(** * Kinetic Monte Carlo engine of [montecarlo.py]: model and properties

    A shallow embedding of [MonteCarloSimulation]: the occupancy and energy
    state, [update_energy], [keep_modification], [add_atom], [move_atom] and
    [run_lap].  numpy arrays are lists, float64 values are Rocq's binary64
    floats, Python exceptions are explicit outcomes that keep the state as it
    was when the exception was raised, and the global random source is a tape
    of draws read through a cursor, so that every theorem quantified over the
    tape speaks about every possible run. *)

From Stdlib Require Import ZArith Lia Bool List Floats FunctionalExtensionality.
From stdpp Require Import base list.

Set Warnings "-inexact-float".

(** ** Exceptions, console output and the lattice provider *)

(** The Python exceptions the modelled methods can raise. *)
Inductive exn : Type :=
| IndexError          (* an index outside an array, or a boolean mask of the wrong length *)
| ValueError          (* np.random.choice on an empty array or with invalid p; bad broadcast *)
| ZeroDivisionError   (* Python's [/] with a zero divisor *)
| UnboundLocalError.  (* a loop variable read after a loop that never ran *)

(** The three [print] warnings of the engine. *)
Inductive message : Type :=
| TryToAdd (nbtry : nat)   (* "!!! %d try to add !!!" *)
| AddOccupied              (* "!!! Trying to add in an already occupied position !!!" *)
| MoveOccupied.            (* "!!!!Moving to an occupied position!!!!" *)

(** What the engine reads of [self.surface]: the site count, the array of
    site indices and the neighbour table, one row per site.  The tables hold
    site numbers, which are naturals; an entry that is not below the length
    of the array it indexes is an IndexError. *)
Record Surface := mkSurface {
  stlen : nat;
  sti : list nat;
  nni : list (list nat);
}.

(** ** The simulation object *)

Record Sim := mkSim {
  temperature : float;
  steps_per_lap : Z;
  moves_per_step : Z;
  target_coverage : float;
  occ : list bool;
  previous_occ : list bool;
  energies : list float;
  previous_energies : list float;
  energy : float;
  previous_energy : float;
  total_steps : Z;
  attempted_moves : Z;
  successful_moves : Z;
  not_moved_moves : Z;
  blocked_moves : Z;
  move_accepted : Z;
  add_prepopulated : Z;
  _nni : list nat;
  _occ : list bool;
  _nne : list float;
  _p : list float;
}.

Definition set_temperature (v : float) (s : Sim) : Sim :=
  mkSim v (steps_per_lap s) (moves_per_step s) (target_coverage s) (occ s)
    (previous_occ s) (energies s) (previous_energies s) (energy s)
    (previous_energy s) (total_steps s) (attempted_moves s)
    (successful_moves s) (not_moved_moves s) (blocked_moves s)
    (move_accepted s) (add_prepopulated s) (_nni s) (_occ s) (_nne s) (_p s).
Definition set_occ (v : list bool) (s : Sim) : Sim :=
  mkSim (temperature s) (steps_per_lap s) (moves_per_step s)
    (target_coverage s) v (previous_occ s) (energies s) (previous_energies s)
    (energy s) (previous_energy s) (total_steps s) (attempted_moves s)
    (successful_moves s) (not_moved_moves s) (blocked_moves s)
    (move_accepted s) (add_prepopulated s) (_nni s) (_occ s) (_nne s) (_p s).
Definition set_previous_occ (v : list bool) (s : Sim) : Sim :=
  mkSim (temperature s) (steps_per_lap s) (moves_per_step s)
    (target_coverage s) (occ s) v (energies s) (previous_energies s)
    (energy s) (previous_energy s) (total_steps s) (attempted_moves s)
    (successful_moves s) (not_moved_moves s) (blocked_moves s)
    (move_accepted s) (add_prepopulated s) (_nni s) (_occ s) (_nne s) (_p s).
Definition set_energies (v : list float) (s : Sim) : Sim :=
  mkSim (temperature s) (steps_per_lap s) (moves_per_step s)
    (target_coverage s) (occ s) (previous_occ s) v (previous_energies s)
    (energy s) (previous_energy s) (total_steps s) (attempted_moves s)
    (successful_moves s) (not_moved_moves s) (blocked_moves s)
    (move_accepted s) (add_prepopulated s) (_nni s) (_occ s) (_nne s) (_p s).
Definition set_previous_energies (v : list float) (s : Sim) : Sim :=
  mkSim (temperature s) (steps_per_lap s) (moves_per_step s)
    (target_coverage s) (occ s) (previous_occ s) (energies s) v (energy s)
    (previous_energy s) (total_steps s) (attempted_moves s)
    (successful_moves s) (not_moved_moves s) (blocked_moves s)
    (move_accepted s) (add_prepopulated s) (_nni s) (_occ s) (_nne s) (_p s).
Definition set_energy (v : float) (s : Sim) : Sim :=
  mkSim (temperature s) (steps_per_lap s) (moves_per_step s)
    (target_coverage s) (occ s) (previous_occ s) (energies s)
    (previous_energies s) v (previous_energy s) (total_steps s)
    (attempted_moves s) (successful_moves s) (not_moved_moves s)
    (blocked_moves s) (move_accepted s) (add_prepopulated s) (_nni s) (_occ s)
    (_nne s) (_p s).
Definition set_previous_energy (v : float) (s : Sim) : Sim :=
  mkSim (temperature s) (steps_per_lap s) (moves_per_step s)
    (target_coverage s) (occ s) (previous_occ s) (energies s)
    (previous_energies s) (energy s) v (total_steps s) (attempted_moves s)
    (successful_moves s) (not_moved_moves s) (blocked_moves s)
    (move_accepted s) (add_prepopulated s) (_nni s) (_occ s) (_nne s) (_p s).
Definition set_total_steps (v : Z) (s : Sim) : Sim :=
  mkSim (temperature s) (steps_per_lap s) (moves_per_step s)
    (target_coverage s) (occ s) (previous_occ s) (energies s)
    (previous_energies s) (energy s) (previous_energy s) v (attempted_moves s)
    (successful_moves s) (not_moved_moves s) (blocked_moves s)
    (move_accepted s) (add_prepopulated s) (_nni s) (_occ s) (_nne s) (_p s).
Definition set_attempted_moves (v : Z) (s : Sim) : Sim :=
  mkSim (temperature s) (steps_per_lap s) (moves_per_step s)
    (target_coverage s) (occ s) (previous_occ s) (energies s)
    (previous_energies s) (energy s) (previous_energy s) (total_steps s) v
    (successful_moves s) (not_moved_moves s) (blocked_moves s)
    (move_accepted s) (add_prepopulated s) (_nni s) (_occ s) (_nne s) (_p s).
Definition set_successful_moves (v : Z) (s : Sim) : Sim :=
  mkSim (temperature s) (steps_per_lap s) (moves_per_step s)
    (target_coverage s) (occ s) (previous_occ s) (energies s)
    (previous_energies s) (energy s) (previous_energy s) (total_steps s)
    (attempted_moves s) v (not_moved_moves s) (blocked_moves s)
    (move_accepted s) (add_prepopulated s) (_nni s) (_occ s) (_nne s) (_p s).
Definition set_not_moved_moves (v : Z) (s : Sim) : Sim :=
  mkSim (temperature s) (steps_per_lap s) (moves_per_step s)
    (target_coverage s) (occ s) (previous_occ s) (energies s)
    (previous_energies s) (energy s) (previous_energy s) (total_steps s)
    (attempted_moves s) (successful_moves s) v (blocked_moves s)
    (move_accepted s) (add_prepopulated s) (_nni s) (_occ s) (_nne s) (_p s).
Definition set_blocked_moves (v : Z) (s : Sim) : Sim :=
  mkSim (temperature s) (steps_per_lap s) (moves_per_step s)
    (target_coverage s) (occ s) (previous_occ s) (energies s)
    (previous_energies s) (energy s) (previous_energy s) (total_steps s)
    (attempted_moves s) (successful_moves s) (not_moved_moves s) v
    (move_accepted s) (add_prepopulated s) (_nni s) (_occ s) (_nne s) (_p s).
Definition set_move_accepted (v : Z) (s : Sim) : Sim :=
  mkSim (temperature s) (steps_per_lap s) (moves_per_step s)
    (target_coverage s) (occ s) (previous_occ s) (energies s)
    (previous_energies s) (energy s) (previous_energy s) (total_steps s)
    (attempted_moves s) (successful_moves s) (not_moved_moves s)
    (blocked_moves s) v (add_prepopulated s) (_nni s) (_occ s) (_nne s) (_p s).
Definition set_add_prepopulated (v : Z) (s : Sim) : Sim :=
  mkSim (temperature s) (steps_per_lap s) (moves_per_step s)
    (target_coverage s) (occ s) (previous_occ s) (energies s)
    (previous_energies s) (energy s) (previous_energy s) (total_steps s)
    (attempted_moves s) (successful_moves s) (not_moved_moves s)
    (blocked_moves s) (move_accepted s) v (_nni s) (_occ s) (_nne s) (_p s).
Definition set__nni (v : list nat) (s : Sim) : Sim :=
  mkSim (temperature s) (steps_per_lap s) (moves_per_step s)
    (target_coverage s) (occ s) (previous_occ s) (energies s)
    (previous_energies s) (energy s) (previous_energy s) (total_steps s)
    (attempted_moves s) (successful_moves s) (not_moved_moves s)
    (blocked_moves s) (move_accepted s) (add_prepopulated s) v (_occ s)
    (_nne s) (_p s).
Definition set__occ (v : list bool) (s : Sim) : Sim :=
  mkSim (temperature s) (steps_per_lap s) (moves_per_step s)
    (target_coverage s) (occ s) (previous_occ s) (energies s)
    (previous_energies s) (energy s) (previous_energy s) (total_steps s)
    (attempted_moves s) (successful_moves s) (not_moved_moves s)
    (blocked_moves s) (move_accepted s) (add_prepopulated s) (_nni s) v
    (_nne s) (_p s).
Definition set__nne (v : list float) (s : Sim) : Sim :=
  mkSim (temperature s) (steps_per_lap s) (moves_per_step s)
    (target_coverage s) (occ s) (previous_occ s) (energies s)
    (previous_energies s) (energy s) (previous_energy s) (total_steps s)
    (attempted_moves s) (successful_moves s) (not_moved_moves s)
    (blocked_moves s) (move_accepted s) (add_prepopulated s) (_nni s) (_occ s)
    v (_p s).
Definition set__p (v : list float) (s : Sim) : Sim :=
  mkSim (temperature s) (steps_per_lap s) (moves_per_step s)
    (target_coverage s) (occ s) (previous_occ s) (energies s)
    (previous_energies s) (energy s) (previous_energy s) (total_steps s)
    (attempted_moves s) (successful_moves s) (not_moved_moves s)
    (blocked_moves s) (move_accepted s) (add_prepopulated s) (_nni s) (_occ s)
    (_nne s) v.

(** The process: the simulation object, numpy's global random source (a tape
    of draws and the position of the next one) and what was printed. *)
Record World := mkWorld {
  self : Sim;
  rng_tape : nat -> nat;
  rng_pos : nat;
  stdout : list message;
}.

Definition set_self (s : Sim) (w : World) : World :=
  mkWorld s (rng_tape w) (rng_pos w) (stdout w).

(** ** Computations that may raise *)

Inductive outcome (A : Type) : Type :=
| Ok (a : A) (w : World)
| Raise (e : exn) (w : World).
Arguments Ok {A} a w.
Arguments Raise {A} e w.

Definition M (A : Type) : Type := World -> outcome A.

Definition ret {A} (a : A) : M A := fun w => Ok a w.

Definition raise {A} (e : exn) : M A := fun w => Raise e w.

Definition bind {A B} (c : M A) (k : A -> M B) : M B :=
  fun w => match c w with
           | Ok a w' => k a w'
           | Raise e w' => Raise e w'
           end.

Notation "x <- c ;; k" := (bind c (fun x => k))
  (at level 100, c at next level, right associativity).
Notation "c ;;; k" := (bind c (fun _ => k))
  (at level 100, right associativity).

Definition get_self : M Sim := fun w => Ok (self w) w.

Definition modify (f : Sim -> Sim) : M unit := fun w => Ok tt (set_self (f (self w)) w).

Definition print (m : message) : M unit :=
  fun w => Ok tt (mkWorld (self w) (rng_tape w) (rng_pos w) (stdout w ++ [m])).

(** [a[i]] and friends: [None] is an IndexError. *)
Definition index_or_raise {A} (o : option A) : M A :=
  match o with Some a => ret a | None => raise IndexError end.

(** The world an outcome ends in, returned or raised. *)
Definition world_of {A} (o : outcome A) : World :=
  match o with Ok _ w => w | Raise _ w => w end.

(** [for x in xs: body x]. *)
Fixpoint for_each {A} (xs : list A) (body : A -> M unit) : M unit :=
  match xs with
  | [] => ret tt
  | x :: xs' => body x ;;; for_each xs' body
  end.

(** [for _ in range(n): body]. *)
Fixpoint repeat_times (n : nat) (body : M unit) : M unit :=
  match n with
  | O => ret tt
  | S n' => body ;;; repeat_times n' body
  end.

(** ** numpy on lists *)

(** [a[idx]] with an integer array [idx]. *)
Definition take_idx {A} (a : list A) (idx : list nat) : option (list A) :=
  mapM (fun i => a !! i) idx.

(** [a[mask]] with a boolean array [mask], which must be as long as [a]. *)
Fixpoint mask_filter {A} (a : list A) (mask : list bool) : list A :=
  match a, mask with
  | x :: a', b :: mask' => if b then x :: mask_filter a' mask' else mask_filter a' mask'
  | _, _ => []
  end.

Definition mask_select {A} (a : list A) (mask : list bool) : option (list A) :=
  if Nat.eqb (length a) (length mask) then Some (mask_filter a mask) else None.

(** [a[i] = v]. *)
Definition set_at {A} (a : list A) (i : nat) (v : A) : option (list A) :=
  if Nat.ltb i (length a) then Some (<[i:=v]> a) else None.

(** [a[idx] = v] with an integer array [idx]. *)
Fixpoint set_all {A} (a : list A) (idx : list nat) (v : A) : option (list A) :=
  match idx with
  | [] => Some a
  | i :: idx' => match set_at a i v with
                 | Some a' => set_all a' idx' v
                 | None => None
                 end
  end.

(** [a[idx] = b[idx]] with an integer array [idx]. *)
Fixpoint copy_at {A} (a b : list A) (idx : list nat) : option (list A) :=
  match idx with
  | [] => Some a
  | i :: idx' => match b !! i with
                 | Some v => match set_at a i v with
                             | Some a' => copy_at a' b idx'
                             | None => None
                             end
                 | None => None
                 end
  end.

Definition np_any (bs : list bool) : bool := existsb (fun b => b) bs.
Definition np_all (bs : list bool) : bool := forallb (fun b => b) bs.
Definition np_logical_not (bs : list bool) : list bool := map negb bs.

Fixpoint count_nonzero (bs : list bool) : nat :=
  match bs with
  | [] => O
  | b :: bs' => (if b then 1 else 0) + count_nonzero bs'
  end.

(** [np.sum] of a float array, adding from the left.  (numpy adds arrays of
    eight and more entries in blocks, which can round differently; nothing
    below depends on the order of the additions.) *)
Definition np_sum (xs : list float) : float :=
  fold_left PrimFloat.add xs 0%float.

(** A Python int as a float (exact below 2^53). *)
Definition float_of_nat (n : nat) : float :=
  PrimFloat.of_uint63 (Uint63.of_Z (Z.of_nat n)).

(** *** [np.random.choice] *)

Definition draw : M nat :=
  fun w => Ok (rng_tape w (rng_pos w))
              (mkWorld (self w) (rng_tape w) (S (rng_pos w)) (stdout w)).

(** [np.random.choice(a)]: a uniform draw from [a]; every entry can come out,
    and an empty [a] is a ValueError. *)
Definition random_choice (a : list nat) : M nat :=
  match a with
  | [] => raise ValueError
  | x :: _ => r <- draw ;; ret (nth (r mod length a) a x)
  end.

(** numpy accepts [p] when it holds no NaN and no negative entry and sums to
    one up to sqrt(eps). *)
Definition valid_probabilities (p : list float) : bool :=
  forallb (fun x => negb (PrimFloat.is_nan x)) p
  && forallb (fun x => negb (x <? 0)%float) p
  && (PrimFloat.abs (np_sum p - 1) <=? 0x1p-26)%float.

(** The positions of [p] that carry probability. *)
Fixpoint support_from (k : nat) (p : list float) : list nat :=
  match p with
  | [] => []
  | x :: p' => if (0 <? x)%float then k :: support_from (S k) p'
               else support_from (S k) p'
  end.

(** [np.random.choice(a, p=p)]: ValueError on sizes that differ or on an
    invalid [p]; otherwise some entry of [a] at a position of positive
    probability, and each of them can come out. *)
Definition random_choice_p (a : list nat) (p : list float) : M nat :=
  if negb (Nat.eqb (length a) (length p)) then raise ValueError
  else if negb (valid_probabilities p) then raise ValueError
  else match support_from 0 p with
       | [] => raise ValueError
       | (k0 :: _) as supp =>
           r <- draw ;;
           match a !! nth (r mod length supp) supp k0 with
           | Some x => ret x
           | None => raise ValueError
           end
       end.

(** [dst[:] = src] and [dst[1:] = src]: [src] must be as long as the target,
    or of length one (numpy then repeats it); otherwise a ValueError. *)
Definition broadcast_to {A} (n : nat) (src : list A) : option (list A) :=
  if Nat.eqb (length src) n then Some src
  else match src with
       | [x] => Some (replicate n x)
       | _ => None
       end.

(** [a[mask] = v] with a boolean array [mask], which must be as long as [a]. *)
Definition mask_assign {A} (a : list A) (mask : list bool) (v : A) : option (list A) :=
  if Nat.eqb (length a) (length mask)
  then Some (zip_with (fun x (b : bool) => if b then v else x) a mask)
  else None.

(** A read of the object that may raise [e]. *)
Definition read {A} (e : exn) (f : Sim -> option A) : M A :=
  fun w => match f (self w) with
           | Some a => Ok a w
           | None => Raise e w
           end.

(** An assignment to the object that may raise [e], and then changes nothing. *)
Definition assign (e : exn) (f : Sim -> option Sim) : M unit :=
  fun w => match f (self w) with
           | Some s' => Ok tt (set_self s' w)
           | None => Raise e w
           end.

(** [[f x for x in xs]]. *)
Fixpoint list_comp {A B} (f : A -> M B) (xs : list A) : M (list B) :=
  match xs with
  | [] => ret []
  | x :: xs' => y <- f x ;; ys <- list_comp f xs' ;; ret (y :: ys)
  end.

(** ** The engine *)

Section Engine.

(** [self.surface], read only. *)
Variable surface : Surface.

(** [self.V(i, occ[nni], surface, **V_params)], a pure function. *)
Variable V : nat -> list bool -> float.

(** [np.exp] on one float. *)
Variable np_exp : float -> float.

(** [atoms_on_surface]: np.count_nonzero(self.occ). *)
Definition atoms_on_surface (s : Sim) : nat := count_nonzero (occ s).

(** [coverage]: atoms_on_surface / len(self.occ), Python's true division of
    two ints, [np.count_nonzero] giving a Python int as numpy 1 does.  (Where
    it gives a numpy integer, the division by zero on a lattice without sites
    is a NaN with a warning and not an exception; with at least one site the
    two agree.) *)
Definition coverage : M float :=
  s <- get_self ;;
  match length (occ s) with
  | O => raise ZeroDivisionError
  | S _ => ret (float_of_nat (atoms_on_surface s) / float_of_nat (length (occ s)))%float
  end.

(** [boltzmann_T]: 11604.5221105 / self.temperature, the temperature being
    a Python number, whose division by zero raises.  (A numpy scalar from the
    temperature schedule would give inf with a warning at zero; away from
    zero the two agree.) *)
Definition boltzmann_T : M float :=
  s <- get_self ;;
  if (temperature s =? 0)%float then raise ZeroDivisionError
  else ret (11604.5221105 / temperature s)%float.

(** [get_energy(i)]: V on the occupancy of the whole neighbour row of [i]. *)
Definition get_energy (i : nat) : M float :=
  row <- index_or_raise (nni surface !! i) ;;
  o <- read IndexError (fun s => take_idx (occ s) row) ;;
  ret (V i o).

(** [update_energy(indices)] *)
Definition update_energy (indices : list nat) : M unit :=
  (* occ = self.occ[idx] *)
  o <- read IndexError (fun s => take_idx (occ s) indices) ;;
  (* self.energies[idx[np.logical_not(occ)]] = 0 *)
  assign IndexError (fun s =>
    es ← set_all (energies s) (mask_filter indices (np_logical_not o)) 0%float;
    Some (set_energies es s)) ;;;
  (* for i in idx[occ]: self.energies[i] = self.get_energy(i) *)
  for_each (mask_filter indices o) (fun i =>
    e <- get_energy i ;;
    assign IndexError (fun s =>
      es ← set_at (energies s) i e; Some (set_energies es s))) ;;;
  (* self.energy = np.sum(self.energies) *)
  modify (fun s => set_energy (np_sum (energies s)) s).

(** [keep_modification(indices)] *)
Definition keep_modification (indices : list nat) : M unit :=
  assign IndexError (fun s =>
    pe ← copy_at (previous_energies s) (energies s) indices;
    Some (set_previous_energies pe s)) ;;;
  modify (fun s => set_previous_energy (energy s) s) ;;;
  assign IndexError (fun s =>
    po ← copy_at (previous_occ s) (occ s) indices;
    Some (set_previous_occ po s)).

(** [reverse_modification(indices)] *)
Definition reverse_modification (indices : list nat) : M unit :=
  assign IndexError (fun s =>
    es ← copy_at (energies s) (previous_energies s) indices;
    Some (set_energies es s)) ;;;
  modify (fun s => set_energy (previous_energy s) s) ;;;
  assign IndexError (fun s =>
    o ← copy_at (occ s) (previous_occ s) indices;
    Some (set_occ o s)).

(** *** Deposition *)

(** The [for n in range(nbtry)] loop of [add_atom].  [last] holds the loop's
    locals [i] and [nni] once an iteration has set them; the boolean is
    [add_success]. *)
Fixpoint add_atom_search (n : nat) (not_occ_i : list nat)
    (last : option (nat * list nat)) : M (option (nat * list nat) * bool) :=
  match n with
  | O => ret (last, false)
  | S n' =>
      (* i = np.random.choice(not_occ_i) *)
      i <- random_choice not_occ_i ;;
      (* nni = self.surface.nni[i] *)
      row <- index_or_raise (nni surface !! i) ;;
      (* if not np.any(self.occ[nni[:9]]) *)
      o <- read IndexError (fun s => take_idx (occ s) (take 9 row)) ;;
      if negb (np_any o) then ret (Some (i, row), true)
      else add_atom_search n' not_occ_i (Some (i, row))
  end.

(** [add_atom()] *)
Definition add_atom : M unit :=
  let nbtry := stlen surface in
  (* not_occ_i = self.surface.sti[np.logical_not(self.occ)] *)
  not_occ_i <- read IndexError (fun s =>
                 mask_select (sti surface) (np_logical_not (occ s))) ;;
  r <- add_atom_search nbtry not_occ_i None ;;
  (* if not add_success: print(...) *)
  (if snd r then ret tt else print (TryToAdd nbtry)) ;;;
  match fst r with
  | None => raise UnboundLocalError
  | Some (i, row) =>
      (* if self.occ[i]: print(...) *)
      b <- read IndexError (fun s => occ s !! i) ;;
      (if b : bool then print AddOccupied else ret tt) ;;;
      (* self.occ[i] = True *)
      assign IndexError (fun s => o ← set_at (occ s) i true; Some (set_occ o s)) ;;;
      update_energy row ;;;
      update_energy [i]
  end.

(** The common tail of [prepopulate] and [prepopulate_split], from the
    chosen index array [c] on. *)
Definition prepopulate_with (c : list nat) : M unit :=
  let all := seq 0 (stlen surface) in
  modify (set_add_prepopulated (Z.of_nat (length c))) ;;;
  assign IndexError (fun s => o ← set_all (occ s) c true; Some (set_occ o s)) ;;;
  update_energy all ;;;
  keep_modification all.

(** *** Diffusion *)

(** The blocked-move test of [move_atom]; Python's [and] evaluates its
    operands from the left and stops at the first false one. *)
Definition is_surrounded (i : nat) (row : list nat) : M bool :=
  (* np.all(self.occ[nni[18:24]]) *)
  ring <- read IndexError (fun s => take_idx (occ s) (take 6 (drop 18 row))) ;;
  if negb (np_all ring) then ret false
  else
    (* not np.any(self.occ[nni[:18]]) *)
    inner <- read IndexError (fun s => take_idx (occ s) (take 18 row)) ;;
    if np_any inner then ret false
    else
      (* self.occ[i] *)
      read IndexError (fun s => occ s !! i).

(** The hop energy of candidate [ii]:
    [0 if self.occ[ii] else self.get_energy(ii)]. *)
Definition hop_energy (ii : nat) : M float :=
  b <- read IndexError (fun s => occ s !! ii) ;;
  if b : bool then ret 0%float else get_energy ii.

(** Lines 190 to 198 of [move_atom]: vacate [i], fill the candidate cache and
    compute the masked Boltzmann weights. *)
Definition hop_weights (i : nat) (row : list nat) : M unit :=
  (* self.occ[i] = False *)
  assign IndexError (fun s => o ← set_at (occ s) i false; Some (set_occ o s)) ;;;
  (* self._nni[0] = i *)
  assign IndexError (fun s => c ← set_at (_nni s) 0 i; Some (set__nni c s)) ;;;
  (* self._nni[1:] = nni[:3] *)
  assign ValueError (fun s =>
    t ← broadcast_to (length (_nni s) - 1) (take 3 row);
    Some (set__nni (take 1 (_nni s) ++ t) s)) ;;;
  (* self._nne[:] = [0 if self.occ[ii] else self.get_energy(ii) for ii in self._nni] *)
  s <- get_self ;;
  es <- list_comp hop_energy (_nni s) ;;
  assign ValueError (fun s =>
    e ← broadcast_to (length (_nne s)) es; Some (set__nne e s)) ;;;
  (* self._occ[:] = self.occ[self._nni] *)
  o <- read IndexError (fun s => take_idx (occ s) (_nni s)) ;;
  assign ValueError (fun s =>
    c ← broadcast_to (length (_occ s)) o; Some (set__occ c s)) ;;;
  (* self._p[:] = np.exp(-self._nne * self.boltzmann_T) *)
  bT <- boltzmann_T ;;
  assign ValueError (fun s =>
    p ← broadcast_to (length (_p s))
          (map (fun e => np_exp (- e * bT)%float) (_nne s));
    Some (set__p p s)) ;;;
  (* self._p[self._occ] = 0 *)
  assign IndexError (fun s =>
    p ← mask_assign (_p s) (_occ s) 0%float; Some (set__p p s)).

(** Line 199: [self._p[:] /= np.sum(self._p)], an unguarded float division. *)
Definition hop_normalize : M unit :=
  modify (fun s =>
    let total := np_sum (_p s) in
    set__p (map (fun x => (x / total)%float) (_p s)) s).

(** Lines 201 to 220: draw the destination [j] and commit the hop. *)
Definition hop_commit (i : nat) : M unit :=
  (* j = np.random.choice(self._nni, p=self._p) *)
  s <- get_self ;;
  j <- random_choice_p (_nni s) (_p s) ;;
  (if Nat.eqb j i
   then modify (fun s => set_not_moved_moves (not_moved_moves s + 1) s)
   else modify (fun s => set_successful_moves (successful_moves s + 1) s)) ;;;
  (* if self.occ[j]: print(...) *)
  b <- read IndexError (fun s => occ s !! j) ;;
  (if b : bool then print MoveOccupied else ret tt) ;;;
  (* self.occ[j] = True *)
  assign IndexError (fun s => o ← set_at (occ s) j true; Some (set_occ o s)) ;;;
  s <- get_self ;;
  update_energy (_nni s) ;;;
  update_energy [i; j] ;;;
  s <- get_self ;;
  keep_modification (_nni s) ;;;
  keep_modification [i; j] ;;;
  modify (fun s => set_move_accepted (move_accepted s + 1) s).

(** [move_atom()] *)
Definition move_atom : M unit :=
  modify (fun s => set_attempted_moves (attempted_moves s + 1) s) ;;;
  (* i = np.random.choice(self.surface.sti[self.occ]) *)
  occ_i <- read IndexError (fun s => mask_select (sti surface) (occ s)) ;;
  i <- random_choice occ_i ;;
  (* nni = self.surface.nni[i] *)
  row <- index_or_raise (nni surface !! i) ;;
  blocked <- is_surrounded i row ;;
  if blocked : bool
  then modify (fun s => set_blocked_moves (blocked_moves s + 1) s)
  else hop_weights i row ;;; hop_normalize ;;; hop_commit i.

(** *** The lap driver *)

(** One iteration of the [for step in range(N)] loop of [run_lap]. *)
Definition run_step : M unit :=
  (* if self.coverage < self.target_coverage: self.add_atom() *)
  cov <- coverage ;;
  s <- get_self ;;
  (if (cov <? target_coverage s)%float then add_atom else ret tt) ;;;
  (* for i in range(self.moves_per_step*self.atoms_on_surface): self.move_atom() *)
  s <- get_self ;;
  repeat_times (Z.to_nat (moves_per_step s * Z.of_nat (atoms_on_surface s)))
    move_atom ;;;
  modify (fun s => set_total_steps (total_steps s + 1) s).

(** [run_lap()] *)
Definition run_lap : M unit :=
  s <- get_self ;;
  repeat_times (Z.to_nat (steps_per_lap s)) run_step.

End Engine.

(** [__init__]: the state of a new simulation over [n] sites. *)
Definition new_sim (n : nat) (temperature0 : float) (steps_per_lap0 moves_per_step0 : Z)
    (max_coverage : float) : Sim :=
  mkSim temperature0 steps_per_lap0 moves_per_step0 max_coverage
    (replicate n false) (replicate n false)
    (replicate n 0%float) (replicate n 0%float) 0%float 0%float
    0 0 0 0 0 0 0
    (replicate 4 O) (replicate 4 false) (replicate 4 0%float) (replicate 4 0%float).

Definition new_world (s : Sim) (tape : nat -> nat) : World := mkWorld s tape 0 [].

(** ** A small lattice for the examples *)

Module Cube.

(** Eight sites, the corners of a cube; the three nearest neighbours of a
    site differ from it in one bit, the next three in two bits, the last one
    in three.  Rows are 24 entries long, the lattice being periodic. *)
Definition offsets : list nat :=
  [1; 2; 4;  3; 5; 6;  7; 3; 5;  6; 7; 1; 2; 4; 3; 5; 6; 7;  1; 2; 4; 3; 5; 6].

Definition row (s : nat) : list nat := map (Nat.lxor s) offsets.

Definition surface : Surface := mkSurface 8 (seq 0 8) (map row (seq 0 8)).

(** A repulsive pair potential: one unit of energy per occupied site among
    the first six entries of the neighbour row. *)
Definition V_repulsive (i : nat) (o : list bool) : float :=
  float_of_nat (count_nonzero (take 6 o)).

(** The flat potential. *)
Definition V_flat (i : nat) (o : list bool) : float := 0%float.

(** [exp] at the arguments the examples meet: exp(x) = 0 for x <= -746,
    below the least positive double, and exp(0) = 1.  Any other argument gets
    NaN, with which [random_choice_p] raises rather than go on. *)
Definition exp_pts (x : float) : float :=
  if (x <=? -746)%float then 0%float
  else if (x =? 0)%float then 1%float
  else nan.

(** A simulation at 1 K, no site occupied. *)
Definition sim0 : Sim := new_sim 8 1%float 1 1 0.5%float.

Definition tape0 : nat -> nat := fun _ => O.

(** The simulation after [prepopulate] has chosen the sites [c]. *)
Definition populated (V : nat -> list bool -> float) (c : list nat) : World :=
  world_of (prepopulate_with surface V c (new_world sim0 tape0)).

End Cube.


(** ** A lattice with room for a buried site *)

Module Loop.

(** Twenty-five sites around a loop; the row of a site lists the 24 others
    by their distance ahead of it. *)
Definition row (s : nat) : list nat := map (fun d => (s + d) mod 25) (seq 1 24).

Definition surface : Surface := mkSurface 25 (seq 0 25) (map row (seq 0 25)).

(** Site 0 and the six sites of its encasing ring, 19 to 24, occupied. *)
Definition buried : World :=
  world_of (prepopulate_with surface Cube.V_flat [0; 19; 20; 21; 22; 23; 24]
              (new_world (new_sim 25 300%float 1 1 0.5%float) Cube.tape0)).

(** Every site occupied. *)
Definition full : World :=
  world_of (prepopulate_with surface Cube.V_flat (seq 0 25)
              (new_world (new_sim 25 300%float 1 1 0.5%float) Cube.tape0)).

End Loop.

(** ** The smallest periodic lattice *)

Module Dot.

(** One site, every neighbour of which is the site itself. *)
Definition surface : Surface := mkSurface 1 [0] [replicate 24 0].

(** The site occupied. *)
Definition occupied : World :=
  world_of (prepopulate_with surface Cube.V_flat [0]
              (new_world (new_sim 1 300%float 1 1 0.5%float) Cube.tape0)).

End Dot.

(** ** Well-formed inputs and observations *)

(** The lattice provider's contract: [sti] lists the sites 0 .. N-1, the
    neighbour table has one row per site and holds site indices only. *)
Definition well_formed_surface (sf : Surface) : bool :=
  bool_decide (sti sf = seq 0 (stlen sf))
  && Nat.eqb (length (nni sf)) (stlen sf)
  && forallb (forallb (fun k => Nat.ltb k (stlen sf))) (nni sf).

(** The sizes [__init__] gives the arrays; no method changes them. *)
Definition well_formed (sf : Surface) (s : Sim) : bool :=
  Nat.eqb (length (occ s)) (stlen sf)
  && Nat.eqb (length (previous_occ s)) (stlen sf)
  && Nat.eqb (length (energies s)) (stlen sf)
  && Nat.eqb (length (previous_energies s)) (stlen sf)
  && Nat.eqb (length (_nni s)) 4
  && Nat.eqb (length (_occ s)) 4
  && Nat.eqb (length (_nne s)) 4
  && Nat.eqb (length (_p s)) 4.

(** The four move counters: attempted, successful, not moved, blocked. *)
Definition counters (s : Sim) : Z * Z * Z * Z :=
  (attempted_moves s, successful_moves s, not_moved_moves s, blocked_moves s).

Definition counters_le (s s' : Sim) : Prop :=
  (attempted_moves s <= attempted_moves s')%Z
  /\ (successful_moves s <= successful_moves s')%Z
  /\ (not_moved_moves s <= not_moved_moves s')%Z
  /\ (blocked_moves s <= blocked_moves s')%Z.

(** A property of the end of every run of [c], returned or raised. *)
Definition always {A} (R : World -> World -> Prop) (c : M A) : Prop :=
  forall w, R w (world_of (c w)).

(** [w'] is [w] but for the energy bookkeeping: [energies], [energy] and the
    snapshot buffers. *)
Definition bookkeeping_only (w w' : World) : Prop :=
  exists es e pes pe po,
    w' = set_self (set_previous_occ po (set_previous_energy pe
           (set_previous_energies pes (set_energy e
             (set_energies es (self w)))))) w
    /\ length es = length (energies (self w))
    /\ length pes = length (previous_energies (self w))
    /\ length po = length (previous_occ (self w)).

(** [w'] is [w] but for the position on the random tape. *)
Definition rng_only (w w' : World) : Prop :=
  self w' = self w /\ stdout w' = stdout w /\ rng_tape w' = rng_tape w.

(** The arrays of [s'] are as long as those of [s]. *)
Definition same_shape (s s' : Sim) : Prop :=
  length (occ s') = length (occ s)
  /\ length (previous_occ s') = length (previous_occ s)
  /\ length (energies s') = length (energies s)
  /\ length (previous_energies s') = length (previous_energies s)
  /\ length (_nni s') = length (_nni s)
  /\ length (_occ s') = length (_occ s)
  /\ length (_nne s') = length (_nne s)
  /\ length (_p s') = length (_p s).

(** What the examples use of [np.exp]: it is one at zero and underflows to
    zero from -746 down. *)
Definition exp_like (f : float -> float) : Prop :=
  f (-0)%float = 1%float /\ f 0%float = 1%float
  /\ forall x, (x <=? -746)%float = true -> f x = 0%float.

(** The energy invariant at site [i]: energy zero if unoccupied, and if
    occupied the energy the potential gives it on the current occupancy of
    its neighbour row. *)
Definition consistent_at (sf : Surface) (V : nat -> list bool -> float)
    (s : Sim) (i : nat) : Prop :=
  (occ s !! i = Some false -> energies s !! i = Some 0%float)
  /\ (occ s !! i = Some true ->
      exists row o, nni sf !! i = Some row
                    /\ take_idx (occ s) row = Some o
                    /\ energies s !! i = Some (V i o)).

(** The energy invariant: [energy] is the sum of [energies], and every site
    is consistent. *)
Definition energy_consistent (sf : Surface) (V : nat -> list bool -> float)
    (s : Sim) : Prop :=
  energy s = np_sum (energies s) /\ forall i, consistent_at sf V s i.

(** The energy the potential gives site [i] on the occupancy [o]: what
    [get_energy(i)] returns. *)
Definition potential_at (sf : Surface) (V : nat -> list bool -> float)
    (o : list bool) (i : nat) : option float :=
  row ← nni sf !! i; ob ← take_idx o row; Some (V i ob).

(** The part of the energy invariant that does not involve the potential. *)
Definition energy_sum_and_zeros (s : Sim) : Prop :=
  energy s = np_sum (energies s)
  /\ forall i, occ s !! i = Some false -> energies s !! i = Some 0%float.

(** Being a neighbour is mutual: a site is in the rows of the sites of its
    own row. *)
Definition symmetric_table (sf : Surface) : Prop :=
  forall i k row_i row_k,
    nni sf !! i = Some row_i -> nni sf !! k = Some row_k ->
    i ∈ row_k -> k ∈ row_i.

(** The run parameters the lap driver reads. *)
Definition config (s : Sim) : Z * Z * float :=
  (steps_per_lap s, moves_per_step s, target_coverage s).

(** The value of the [coverage] property on a non-empty lattice. *)
Definition coverage_of (s : Sim) : float :=
  (float_of_nat (atoms_on_surface s) / float_of_nat (length (occ s)))%float.

(** [self.coverage < self.target_coverage], the test that guards the
    deposition. *)
Definition below_target (s : Sim) : bool :=
  (coverage_of s <? target_coverage s)%float.

(** ** The methods the lap driver does not call *)

From stdpp Require Import sorting.

(** A site type of the lattice provider: what [__init__] reads of it. *)
Record Site := mkSite {
  prob : float;
}.

(** The site-type tables of [self.surface]: the site types, the sites of
    each type and the x coordinate of each site. *)
Record Groups := mkGroups {
  sites : list Site;
  stidx : list (list nat);
  stx : list float;
}.

(** The draws of [np.random.choice(a, size=k, replace=False)]: one entry of
    what is left of [a] at a time. *)
Fixpoint sample_without_replacement (k : nat) (pool : list nat) : M (list nat) :=
  match k with
  | O => ret []
  | S k' =>
      match pool with
      | [] => raise ValueError
      | x :: _ =>
          r <- draw ;;
          let j := r mod length pool in
          ys <- sample_without_replacement k' (delete j pool) ;;
          ret (nth j pool x :: ys)
      end
  end.

(** [np.random.choice(a, size=size, replace=False)]: a ValueError on a
    size above the length of [a] (no larger sample than the population) or
    below zero (no negative dimensions); otherwise [size] entries of [a] at
    distinct positions, and each such selection can come out. *)
Definition random_choice_without_replacement (a : list nat) (size : Z) : M (list nat) :=
  if (size <? 0)%Z then raise ValueError
  else if (Z.of_nat (length a) <? size)%Z then raise ValueError
  else sample_without_replacement (Z.to_nat size) a.

(** [np.union1d(a, b)]: the sorted array of the values of [a] and [b], each
    once. *)
Definition np_union1d (a b : list nat) : list nat :=
  merge_sort Nat.le (remove_dups (a ++ b)).

(** [np.random.uniform()]: a multiple of 2^-53 in [0, 1). *)
Definition random_uniform : M float :=
  r <- draw ;;
  ret (PrimFloat.of_uint63 (Uint63.of_Z (Z.of_nat r mod 2 ^ 53)) / 0x1p+53)%float.

(** The loop that fills [self.landing_prob] in [__init__], from site type
    number [i] on: [self.landing_prob[self.surface.stidx[i]] = s.prob]. *)
Fixpoint landing_prob_from (g : Groups) (i : nat) (ss : list Site)
    (lp : list float) : option (list float) :=
  match ss with
  | [] => Some lp
  | s :: ss' =>
      idx ← stidx g !! i;
      lp' ← set_all lp idx (prob s);
      landing_prob_from g (S i) ss' lp'
  end.

(** [self.landing_prob] as [__init__] leaves it over [n] sites; [None] is an
    IndexError. *)
Definition landing_prob (n : nat) (g : Groups) : option (list float) :=
  landing_prob_from g 0 (sites g) (replicate n 0%float).

Section Setup.

Variable surface : Surface.
Variable groups : Groups.
Variable V : nat -> list bool -> float.
Variable np_exp : float -> float.

(** [prepopulate(fraction)] from line 237 on, [size] being the value of
    [int(fraction * total)].  The calls to the progress reporter [Timing],
    which is not part of the engine, are left out here and in
    [prepopulate_split]. *)
Definition prepopulate (size : Z) : M unit :=
  let total := stlen surface in
  let all := seq 0 total in
  (* c = np.random.choice(all, size=int(fraction * total), replace=False) *)
  c <- random_choice_without_replacement all size ;;
  prepopulate_with surface V c.

(** [prepopulate_split(i, j, gap)] *)
Definition prepopulate_split (i j : nat) (gap : float) : M unit :=
  (* s1 = s.sites[i]; s2 = s.sites[j] *)
  s1 <- index_or_raise (sites groups !! i) ;;
  s2 <- index_or_raise (sites groups !! j) ;;
  (* idx1 = self.surface.stidx[i]; idx2 = self.surface.stidx[j] *)
  idx1 <- index_or_raise (stidx groups !! i) ;;
  idx2 <- index_or_raise (stidx groups !! j) ;;
  (* idx1[s.stx[idx1] < -gap/2] *)
  x1 <- index_or_raise (take_idx (stx groups) idx1) ;;
  low <- index_or_raise
           (mask_select idx1 (map (fun x => (x <? - gap / 2)%float) x1)) ;;
  (* idx2[s.stx[idx2] > gap/2] *)
  x2 <- index_or_raise (take_idx (stx groups) idx2) ;;
  high <- index_or_raise
            (mask_select idx2 (map (fun x => (gap / 2 <? x)%float) x2)) ;;
  prepopulate_with surface V (np_union1d low high).

(** [accept()] *)
Definition accept : M bool :=
  s <- get_self ;;
  (* dE = self.energy - self.previous_energy *)
  let dE := (energy s - previous_energy s)%float in
  if (dE <? 0)%float then ret true
  else
    (* np.random.uniform() < np.exp(-(dE*self.boltzmann_T)) *)
    u <- random_uniform ;;
    bT <- boltzmann_T ;;
    ret (u <? np_exp (- (dE * bT)))%float.

End Setup.

(** [w'] is [w] but for [energies] and [energy]. *)
Definition energies_only (w w' : World) : Prop :=
  exists es e,
    w' = set_self (set_energy e (set_energies es (self w))) w
    /\ length es = length (energies (self w)).

(** No site has lost its particle from [s] to [s']. *)
Definition occupancy_kept (s s' : Sim) : Prop :=
  length (occ s') = length (occ s)
  /\ forall k, occ s !! k = Some true -> occ s' !! k = Some true.

(** attempted = successful + not moved + blocked. *)
Definition counter_identity (s : Sim) : Prop :=
  (attempted_moves s
   = successful_moves s + not_moved_moves s + blocked_moves s)%Z.

(** Every counter of the object: the four move counters, [total_steps],
    [move_accepted] and [add_prepopulated]. *)
Definition ledger (s : Sim) : Z * Z * Z * Z * Z * Z * Z :=
  (counters s, total_steps s, move_accepted s, add_prepopulated s).

(** [move_accepted] counts the moves that were not blocked. *)
Definition accepted_identity (s : Sim) : Prop :=
  (move_accepted s = successful_moves s + not_moved_moves s)%Z.

(** What the lap driver keeps: the sizes of the arrays, the two counter
    identities and the part of the energy invariant that does not involve
    the potential. *)
Definition lap_invariant (sf : Surface) (s : Sim) : Prop :=
  well_formed sf s = true
  /\ counter_identity s
  /\ accepted_identity s
  /\ energy_sum_and_zeros s.

(** The snapshot holds the current state: [reverse_modification] would
    change nothing. *)
Definition snapshot_current (s : Sim) : Prop :=
  previous_occ s = occ s
  /\ previous_energies s = energies s
  /\ previous_energy s = energy s.

(** The snapshot holds the current occupancy and energies outside the sites
    of [D]. *)
Definition snapshot_but (D : list nat) (s : Sim) : Prop :=
  forall k, k ∉ D ->
    previous_occ s !! k = occ s !! k
    /\ previous_energies s !! k = energies s !! k.

(** A split lattice for the examples: the cube's sites in two types, the
    even and the odd ones, on a line. *)
Module Split.

Definition groups : Groups :=
  mkGroups [mkSite 0.5%float; mkSite 0.5%float]
    [[0; 2; 4; 6]; [1; 3; 5; 7]]
    [(-4)%float; (-3)%float; (-2)%float; (-1)%float;
     1%float; 2%float; 3%float; 4%float].

End Split.

(** * Properties *)

(** ** Stepping through computations *)

Lemma bind_Ok {A B} (c : M A) (k : A -> M B) w b w' :
  bind c k w = Ok b w' ->
  exists a w1, c w = Ok a w1 /\ k a w1 = Ok b w'.
Proof.
  unfold bind. destruct (c w) as [a w1|e w1]; [eauto | discriminate].
Qed.

Lemma bind_Raise {A B} (c : M A) (k : A -> M B) w e w' :
  bind c k w = Raise e w' ->
  c w = Raise e w' \/ exists a w1, c w = Ok a w1 /\ k a w1 = Raise e w'.
Proof.
  unfold bind. destruct (c w) as [a w1|e1 w1]; [eauto | intros [= -> ->]; auto].
Qed.

Lemma bind_step {A B} (c : M A) (k : A -> M B) w a w1 :
  c w = Ok a w1 -> bind c k w = k a w1.
Proof. unfold bind. intros ->. reflexivity. Qed.

Lemma read_Ok {A} e (f : Sim -> option A) w a w' :
  read e f w = Ok a w' -> f (self w) = Some a /\ w' = w.
Proof. unfold read. destruct (f (self w)); [intros [= -> ->]; auto | discriminate]. Qed.

Lemma assign_Ok e (f : Sim -> option Sim) w u w' :
  assign e f w = Ok u w' -> exists s', f (self w) = Some s' /\ w' = set_self s' w.
Proof. unfold assign. destruct (f (self w)); [intros [= _ <-]; eauto | discriminate]. Qed.

Lemma index_or_raise_Ok {A} (o : option A) w a w' :
  index_or_raise o w = Ok a w' -> o = Some a /\ w' = w.
Proof. destruct o; simpl; [intros [= -> ->]; auto | discriminate]. Qed.

Lemma modify_Ok f w u w' :
  modify f w = Ok u w' -> w' = set_self (f (self w)) w.
Proof. intros [= _ <-]. reflexivity. Qed.

Lemma get_self_Ok w s w' : get_self w = Ok s w' -> s = self w /\ w' = w.
Proof. intros [= <- <-]. auto. Qed.

Lemma print_Ok m w u w' :
  print m w = Ok u w' ->
  w' = mkWorld (self w) (rng_tape w) (rng_pos w) (stdout w ++ [m]).
Proof. intros [= _ <-]. reflexivity. Qed.

Lemma ret_Ok {A} (a : A) w b w' : ret a w = Ok b w' -> b = a /\ w' = w.
Proof. intros [= <- <-]. auto. Qed.

(** One step of a run known to have returned. *)
Ltac step_in_as H a H1 :=
  let w := fresh "w" in
  apply bind_Ok in H; destruct H as (a & w & H1 & H);
  first
    [ apply read_Ok in H1; destruct H1 as [H1 ->]
    | apply assign_Ok in H1; destruct H1 as (? & H1 & ->)
    | apply index_or_raise_Ok in H1; destruct H1 as [H1 ->]
    | apply modify_Ok in H1; subst w
    | apply get_self_Ok in H1; destruct H1 as [-> ->]
    | apply print_Ok in H1; subst w
    | apply ret_Ok in H1; destruct H1 as [-> ->]
    | idtac ].

Tactic Notation "step_in" hyp(H) "as" ident(a) ident(H1) := step_in_as H a H1.

Tactic Notation "step_in" hyp(H) :=
  let a := fresh "a" in
  let H1 := fresh "Hs" in
  step_in_as H a H1.

(** Reduce field reads of written objects and worlds, and nothing else. *)
Ltac sim_simpl :=
  cbn [temperature steps_per_lap moves_per_step target_coverage occ
       previous_occ energies previous_energies energy previous_energy
       total_steps attempted_moves successful_moves not_moved_moves
       blocked_moves move_accepted add_prepopulated _nni _occ _nne _p self
       rng_tape rng_pos stdout set_temperature set_occ set_previous_occ
       set_energies set_previous_energies set_energy set_previous_energy
       set_total_steps set_attempted_moves set_successful_moves
       set_not_moved_moves set_blocked_moves set_move_accepted
       set_add_prepopulated set__nni set__occ set__nne set__p set_self].

Tactic Notation "sim_simpl" "in" hyp(H) :=
  cbn [temperature steps_per_lap moves_per_step target_coverage occ
       previous_occ energies previous_energies energy previous_energy
       total_steps attempted_moves successful_moves not_moved_moves
       blocked_moves move_accepted add_prepopulated _nni _occ _nne _p self
       rng_tape rng_pos stdout set_temperature set_occ set_previous_occ
       set_energies set_previous_energies set_energy set_previous_energy
       set_total_steps set_attempted_moves set_successful_moves
       set_not_moved_moves set_blocked_moves set_move_accepted
       set_add_prepopulated set__nni set__occ set__nne set__p set_self] in H.

(** Spell a written object out, field by field. *)
Ltac sim_unfold :=
  unfold set_temperature, set_occ, set_previous_occ, set_energies,
         set_previous_energies, set_energy, set_previous_energy, set_total_steps,
         set_attempted_moves, set_successful_moves, set_not_moved_moves,
         set_blocked_moves, set_move_accepted, set_add_prepopulated, set__nni,
         set__occ, set__nne, set__p, set_self;
  cbn [temperature steps_per_lap moves_per_step target_coverage occ
       previous_occ energies previous_energies energy previous_energy
       total_steps attempted_moves successful_moves not_moved_moves
       blocked_moves move_accepted add_prepopulated _nni _occ _nne _p self
       rng_tape rng_pos stdout].

(** *** Relations kept by every run *)

Section Always.

Context (R : World -> World -> Prop).
Hypothesis R_refl : forall w, R w w.
Hypothesis R_trans : forall w1 w2 w3, R w1 w2 -> R w2 w3 -> R w1 w3.

Lemma always_ret {A} (a : A) : always R (ret a).
Proof. intros w. apply R_refl. Qed.

Lemma always_raise {A} e : always R (@raise A e).
Proof. intros w. apply R_refl. Qed.

Lemma always_bind {A B} (c : M A) (k : A -> M B) :
  always R c -> (forall a, always R (k a)) -> always R (bind c k).
Proof.
  intros Hc Hk w. unfold bind. specialize (Hc w).
  destruct (c w) as [a w1|e w1]; simpl in *; [|assumption].
  eapply R_trans; [exact Hc | apply Hk].
Qed.

Lemma always_read {A} e (f : Sim -> option A) : always R (read e f).
Proof. intros w. unfold read. destruct (f (self w)); apply R_refl. Qed.

Lemma always_get_self : always R get_self.
Proof. intros w. apply R_refl. Qed.

Lemma always_index_or_raise {A} (o : option A) : always R (index_or_raise o).
Proof. intros w. destruct o; apply R_refl. Qed.

Lemma always_assign e (f : Sim -> option Sim) :
  (forall w s', f (self w) = Some s' -> R w (set_self s' w)) ->
  always R (assign e f).
Proof.
  intros Hf w. unfold assign. destruct (f (self w)) eqn:E; simpl; [auto | apply R_refl].
Qed.

Lemma always_modify f :
  (forall w, R w (set_self (f (self w)) w)) -> always R (modify f).
Proof. intros Hf w. apply Hf. Qed.

Lemma always_if {A} (b : bool) (c1 c2 : M A) :
  always R c1 -> always R c2 -> always R (if b then c1 else c2).
Proof. destruct b; auto. Qed.

Lemma always_for_each {A} (xs : list A) body :
  (forall x, always R (body x)) -> always R (for_each xs body).
Proof.
  intros Hb. induction xs as [|x xs IH]; simpl.
  - apply always_ret.
  - apply always_bind; auto.
Qed.

Lemma always_repeat_times n body :
  always R body -> always R (repeat_times n body).
Proof.
  intros Hb. induction n as [|n IH]; simpl.
  - apply always_ret.
  - apply always_bind; auto.
Qed.

Lemma always_list_comp {A B} (f : A -> M B) xs :
  (forall x, always R (f x)) -> always R (list_comp f xs).
Proof.
  intros Hf. induction xs as [|x xs IH]; simpl.
  - apply always_ret.
  - apply always_bind; [auto|]. intros y.
    apply always_bind; [auto|]. intros ys. apply always_ret.
Qed.

End Always.

Lemma always_weaken {A} (R1 R2 : World -> World -> Prop) (c : M A) :
  (forall w w', R1 w w' -> R2 w w') -> always R1 c -> always R2 c.
Proof. intros HR Hc w. apply HR, Hc. Qed.

Lemma always_draw (R : World -> World -> Prop) :
  (forall w, R w (mkWorld (self w) (rng_tape w) (S (rng_pos w)) (stdout w))) ->
  always R draw.
Proof. intros HR w. apply HR. Qed.

Lemma always_print (R : World -> World -> Prop) m :
  (forall w, R w (mkWorld (self w) (rng_tape w) (rng_pos w) (stdout w ++ [m]))) ->
  always R (print m).
Proof. intros HR w. apply HR. Qed.

(** One step through a goal [always R c], given that [R] is reflexive and
    transitive; [leaf] proves what an assignment has to satisfy. *)
Ltac always_step Hr Ht leaf :=
  first
    [ apply (always_ret _ Hr)
    | apply (always_raise _ Hr)
    | apply (always_read _ Hr)
    | apply (always_get_self _ Hr)
    | apply (always_index_or_raise _ Hr)
    | apply always_draw; intros ?; leaf
    | apply always_print; intros ?; leaf
    | apply (always_bind _ Ht); [|intros ?]
    | apply always_if
    | apply (always_for_each _ Hr Ht); intros ?
    | apply (always_repeat_times _ Hr Ht)
    | apply (always_list_comp _ Hr Ht); intros ?
    | apply (always_assign _ Hr);
        let w := fresh "w" in
        let s' := fresh "s'" in
        let Hf := fresh "Hf" in
        let x := fresh "x" in
        let Hx := fresh "Hx" in
        intros w s' Hf; apply bind_Some in Hf as (x & Hx & [= <-]); leaf
    | apply always_modify; intros ?; leaf ].

(** ** numpy on lists: facts *)

Lemma set_at_Some {A} (a : list A) i v a' :
  set_at a i v = Some a' -> i < length a /\ a' = <[i:=v]> a.
Proof.
  unfold set_at. destruct (Nat.ltb_spec i (length a)); [intros [= <-]; auto | discriminate].
Qed.

Lemma set_at_total {A} (a : list A) i v :
  i < length a -> set_at a i v = Some (<[i:=v]> a).
Proof.
  unfold set_at. destruct (Nat.ltb_spec i (length a)); [reflexivity | lia].
Qed.

Lemma set_all_length {A} (idx : list nat) : forall (a : list A) v a',
  set_all a idx v = Some a' -> length a' = length a.
Proof.
  induction idx as [|i idx IH]; simpl; intros a v a' H.
  - congruence.
  - destruct (set_at a i v) as [a1|] eqn:E; [|discriminate].
    apply set_at_Some in E as [_ ->]. apply IH in H.
    rewrite H. apply length_insert.
Qed.

Lemma set_all_total {A} (idx : list nat) : forall (a : list A) v,
  Forall (fun i => i < length a) idx -> is_Some (set_all a idx v).
Proof.
  induction idx as [|i idx IH]; simpl; intros a v H.
  - eauto.
  - inversion H as [|? ? Hi Hrest]; subst.
    rewrite set_at_total by assumption. apply IH.
    rewrite length_insert. assumption.
Qed.

(** [a[idx] = v] writes [v] at the positions of [idx] and nowhere else. *)
Lemma set_all_lookup {A} (idx : list nat) : forall (a : list A) v a' k,
  set_all a idx v = Some a' ->
  a' !! k = if bool_decide (k ∈ idx) then Some v else a !! k.
Proof.
  induction idx as [|i idx IH]; intros a v a' k H; simpl in H.
  - injection H as <-. case_bool_decide as Hk; [by apply elem_of_nil in Hk | done].
  - destruct (set_at a i v) as [a1|] eqn:E; [|discriminate].
    apply set_at_Some in E as [Hi ->].
    rewrite (IH _ _ _ k H). rewrite (bool_decide_ext (k ∈ i :: idx) (k = i \/ k ∈ idx))
      by apply elem_of_cons.
    destruct (decide (k ∈ idx)) as [Hin|Hin].
    + rewrite !bool_decide_eq_true_2 by auto. reflexivity.
    + rewrite (bool_decide_eq_false_2 (k ∈ idx)) by exact Hin.
      destruct (decide (k = i)) as [->|Hne].
      * rewrite bool_decide_eq_true_2 by auto. by apply list_lookup_insert_eq.
      * rewrite bool_decide_eq_false_2 by (intros [?|?]; done).
        by apply list_lookup_insert_ne.
Qed.

Lemma copy_at_length {A} (idx : list nat) : forall (a b a' : list A),
  copy_at a b idx = Some a' -> length a' = length a.
Proof.
  induction idx as [|i idx IH]; simpl; intros a b a' H.
  - congruence.
  - destruct (b !! i) as [v|]; [|discriminate].
    destruct (set_at a i v) as [a1|] eqn:E; [|discriminate].
    apply set_at_Some in E as [_ ->]. apply IH in H.
    rewrite H. apply length_insert.
Qed.

Lemma copy_at_total {A} (idx : list nat) : forall (a b : list A),
  length a = length b ->
  Forall (fun i => i < length a) idx -> is_Some (copy_at a b idx).
Proof.
  induction idx as [|i idx IH]; simpl; intros a b Hl H.
  - eauto.
  - inversion H as [|? ? Hi Hrest]; subst.
    destruct (lookup_lt_is_Some_2 b i) as [v ->]; [lia|].
    rewrite set_at_total by assumption. apply IH.
    + rewrite length_insert. assumption.
    + rewrite length_insert. assumption.
Qed.

Lemma take_idx_length {A} (a : list A) idx o :
  take_idx a idx = Some o -> length o = length idx.
Proof. intros H. symmetry. eapply length_mapM, H. Qed.

Lemma take_idx_total {A} (a : list A) idx :
  Forall (fun i => i < length a) idx -> is_Some (take_idx a idx).
Proof.
  intros H. apply mapM_is_Some_2. eapply Forall_impl; [exact H|].
  intros i Hi. simpl. by apply lookup_lt_is_Some_2.
Qed.

(** [a[idx][k]] is [a[idx[k]]]. *)
Lemma take_idx_lookup {A} (a : list A) idx o k i :
  take_idx a idx = Some o -> idx !! k = Some i ->
  exists x, o !! k = Some x /\ a !! i = Some x.
Proof.
  intros H Hk. apply mapM_Some_1 in H.
  destruct (Forall2_lookup_l _ _ _ _ _ H Hk) as (x & Hx & Hax). eauto.
Qed.

Lemma take_idx_in_range {A} (a : list A) idx o i :
  take_idx a idx = Some o -> i ∈ idx -> i < length a.
Proof.
  intros H Hi. apply list_elem_of_lookup in Hi as [k Hk].
  destruct (take_idx_lookup _ _ _ _ _ H Hk) as (x & _ & Hx).
  eapply lookup_lt_Some, Hx.
Qed.

(** When [np.any(a[idx])] is false, every site of [idx] holds false. *)
Lemma np_any_false_lookup (a : list bool) idx o i :
  take_idx a idx = Some o -> np_any o = false -> i ∈ idx -> a !! i = Some false.
Proof.
  intros H Hany Hi. apply list_elem_of_lookup in Hi as [k Hk].
  destruct (take_idx_lookup _ _ _ _ _ H Hk) as (x & Hox & Hx).
  rewrite Hx. f_equal. destruct x; [|reflexivity].
  assert (np_any o = true); [|congruence].
  apply existsb_exists. exists true. split; [|reflexivity].
  apply list_elem_of_In, list_elem_of_lookup. eauto.
Qed.

(** When [np.all(a[idx])] is true, every site of [idx] holds true. *)
Lemma np_all_true_lookup (a : list bool) idx o i :
  take_idx a idx = Some o -> np_all o = true -> i ∈ idx -> a !! i = Some true.
Proof.
  intros H Hall Hi. apply list_elem_of_lookup in Hi as [k Hk].
  destruct (take_idx_lookup _ _ _ _ _ H Hk) as (x & Hox & Hx).
  rewrite Hx. f_equal.
  unfold np_all in Hall. rewrite forallb_forall in Hall. apply Hall.
  apply list_elem_of_In, list_elem_of_lookup. eauto.
Qed.

Lemma mask_filter_elem_of {A} (a : list A) : forall mask x,
  x ∈ mask_filter a mask -> x ∈ a.
Proof.
  induction a as [|y a IH]; intros [|b mask] x; simpl; try (intros H; by apply elem_of_nil in H).
  destruct b.
  - intros H. apply elem_of_cons in H as [->|H]; [left | right; eauto].
  - intros H. right. eauto.
Qed.

(** [arange(n)[mask]] holds exactly the positions where [mask] is true. *)
Lemma mask_filter_seq (n : nat) : forall k mask i,
  length mask = n ->
  i ∈ mask_filter (seq k n) mask <-> k <= i /\ mask !! (i - k) = Some true.
Proof.
  induction n as [|n IH]; intros k [|b mask] i Hl; simpl in *; try discriminate.
  - split; [intros H; by apply elem_of_nil in H | intros [_ H]; discriminate].
  - injection Hl as Hl.
    assert (Hrec := IH (S k) mask i Hl).
    destruct b.
    + rewrite elem_of_cons, Hrec. split.
      * intros [->|[Hle Hm]].
        -- rewrite Nat.sub_diag. auto.
        -- split; [lia|]. replace (i - k) with (S (i - S k)) by lia. exact Hm.
      * intros [Hle Hm]. destruct (decide (i = k)) as [->|Hne]; [by left|right].
        split; [lia|]. replace (i - k) with (S (i - S k)) in Hm by lia. exact Hm.
    + rewrite Hrec. split.
      * intros [Hle Hm]. split; [lia|].
        replace (i - k) with (S (i - S k)) by lia. exact Hm.
      * intros [Hle Hm]. destruct (decide (i = k)) as [->|Hne].
        -- rewrite Nat.sub_diag in Hm. discriminate.
        -- split; [lia|]. replace (i - k) with (S (i - S k)) in Hm by lia. exact Hm.
Qed.

Lemma mask_filter_all_false {A} (a : list A) : forall mask,
  forallb negb mask = true -> mask_filter a mask = [].
Proof.
  induction a as [|x a IH]; intros [|b mask]; simpl; try reflexivity.
  destruct b; simpl; [discriminate | apply IH].
Qed.

Lemma count_nonzero_insert_true (a : list bool) : forall i,
  a !! i = Some false -> count_nonzero (<[i:=true]> a) = S (count_nonzero a).
Proof.
  induction a as [|b a IH]; intros [|i]; simpl; try discriminate.
  - intros [= ->]. reflexivity.
  - intros H. rewrite (IH _ H). lia.
Qed.

Lemma count_nonzero_insert_false (a : list bool) : forall i,
  a !! i = Some true -> S (count_nonzero (<[i:=false]> a)) = count_nonzero a.
Proof.
  induction a as [|b a IH]; intros [|i]; simpl; try discriminate.
  - intros [= ->]. reflexivity.
  - intros H. rewrite <- (IH _ H). lia.
Qed.

Lemma count_nonzero_le_length (a : list bool) : count_nonzero a <= length a.
Proof. induction a as [|[] a IH]; simpl; lia. Qed.

Lemma broadcast_to_length {A} n (src r : list A) :
  broadcast_to n src = Some r -> length r = n.
Proof.
  unfold broadcast_to. destruct (Nat.eqb_spec (length src) n).
  - intros [= <-]. assumption.
  - destruct src as [|x [|y src]]; try discriminate.
    intros [= <-]. apply length_replicate.
Qed.

Lemma broadcast_to_elem_of {A} n (src r : list A) x :
  broadcast_to n src = Some r -> x ∈ r -> x ∈ src.
Proof.
  unfold broadcast_to. destruct (Nat.eqb_spec (length src) n).
  - intros [= <-]. auto.
  - destruct src as [|y [|z src]]; try discriminate.
    intros [= <-] Hx. apply elem_of_replicate_inv in Hx as ->. left.
Qed.

Lemma broadcast_to_same_length {A} (src r : list A) :
  broadcast_to (length src) src = Some r -> r = src.
Proof. unfold broadcast_to. rewrite Nat.eqb_refl. congruence. Qed.

Lemma mask_assign_Some {A} (a : list A) mask v r :
  mask_assign a mask v = Some r ->
  length a = length mask
  /\ r = zip_with (fun x (b : bool) => if b then v else x) a mask.
Proof.
  unfold mask_assign. destruct (Nat.eqb_spec (length a) (length mask)); [|discriminate].
  intros [= <-]. auto.
Qed.

(** ** Energy bookkeeping touches nothing else *)

Lemma bookkeeping_only_refl w : bookkeeping_only w w.
Proof.
  exists (energies (self w)), (energy (self w)), (previous_energies (self w)),
    (previous_energy (self w)), (previous_occ (self w)).
  destruct w as [[] ? ? ?]. simpl. auto.
Qed.

Lemma bookkeeping_only_trans w1 w2 w3 :
  bookkeeping_only w1 w2 -> bookkeeping_only w2 w3 -> bookkeeping_only w1 w3.
Proof.
  intros (es & e & pes & pe & po & -> & H1 & H2 & H3)
         (es' & e' & pes' & pe' & po' & -> & H1' & H2' & H3').
  exists es', e', pes', pe', po'.
  destruct w1 as [[] ? ? ?]. simpl in *. repeat split; congruence.
Qed.

Lemma bookkeeping_set_energies w es :
  length es = length (energies (self w)) ->
  bookkeeping_only w (set_self (set_energies es (self w)) w).
Proof.
  intros H. exists es, (energy (self w)), (previous_energies (self w)),
    (previous_energy (self w)), (previous_occ (self w)).
  destruct w as [[] ? ? ?]. simpl in *. auto.
Qed.

Lemma bookkeeping_set_energy w e :
  bookkeeping_only w (set_self (set_energy e (self w)) w).
Proof.
  exists (energies (self w)), e, (previous_energies (self w)),
    (previous_energy (self w)), (previous_occ (self w)).
  destruct w as [[] ? ? ?]. simpl in *. auto.
Qed.

Lemma bookkeeping_set_previous_energies w pes :
  length pes = length (previous_energies (self w)) ->
  bookkeeping_only w (set_self (set_previous_energies pes (self w)) w).
Proof.
  intros H. exists (energies (self w)), (energy (self w)), pes,
    (previous_energy (self w)), (previous_occ (self w)).
  destruct w as [[] ? ? ?]. simpl in *. auto.
Qed.

Lemma bookkeeping_set_previous_energy w pe :
  bookkeeping_only w (set_self (set_previous_energy pe (self w)) w).
Proof.
  exists (energies (self w)), (energy (self w)), (previous_energies (self w)),
    pe, (previous_occ (self w)).
  destruct w as [[] ? ? ?]. simpl in *. auto.
Qed.

Lemma bookkeeping_set_previous_occ w po :
  length po = length (previous_occ (self w)) ->
  bookkeeping_only w (set_self (set_previous_occ po (self w)) w).
Proof.
  intros H. exists (energies (self w)), (energy (self w)), (previous_energies (self w)),
    (previous_energy (self w)), po.
  destruct w as [[] ? ? ?]. simpl in *. auto.
Qed.

(** What a run that only does bookkeeping leaves as it was. *)
Lemma bookkeeping_only_frame w w' :
  bookkeeping_only w w' ->
  occ (self w') = occ (self w)
  /\ counters (self w') = counters (self w)
  /\ stdout w' = stdout w
  /\ rng_pos w' = rng_pos w
  /\ rng_tape w' = rng_tape w
  /\ length (energies (self w')) = length (energies (self w))
  /\ length (previous_energies (self w')) = length (previous_energies (self w))
  /\ length (previous_occ (self w')) = length (previous_occ (self w)).
Proof.
  intros (es & e & pes & pe & po & -> & H1 & H2 & H3).
  destruct w as [[] ? ? ?]. simpl in *. auto 10.
Qed.

Section EngineFacts.

Variable surface : Surface.
Variable V : nat -> list bool -> float.
Variable np_exp : float -> float.

Lemma get_energy_Ok i w e w' :
  get_energy surface V i w = Ok e w' ->
  w' = w /\ exists row o, nni surface !! i = Some row
                          /\ take_idx (occ (self w)) row = Some o /\ e = V i o.
Proof.
  unfold get_energy. intros H.
  step_in H. step_in H. apply ret_Ok in H as [-> ->]. eauto 10.
Qed.

Lemma get_energy_pure i : always eq (get_energy surface V i).
Proof.
  intros w. unfold get_energy, bind, index_or_raise, read.
  destruct (nni surface !! i); simpl; [|reflexivity].
  destruct (take_idx (occ (self w)) l); reflexivity.
Qed.

Lemma update_energy_bookkeeping idx :
  always bookkeeping_only (update_energy surface V idx).
Proof.
  pose proof bookkeeping_only_refl as Hr.
  pose proof bookkeeping_only_trans as Ht.
  unfold update_energy.
  apply always_bind; auto using always_read. intros o.
  apply always_bind; auto.
  { apply always_assign; auto. intros w s' H.
    apply bind_Some in H as (es & H & [= <-]).
    apply bookkeeping_set_energies. eapply set_all_length, H. }
  intros _. apply always_bind; auto.
  { apply always_for_each; auto. intros i.
    apply always_bind; auto.
    - intros w. rewrite <- (get_energy_pure i w). apply Hr.
    - intros e. apply always_assign; auto. intros w s' H.
      apply bind_Some in H as (es & H & [= <-]).
      apply set_at_Some in H as [_ ->].
      apply bookkeeping_set_energies, length_insert. }
  intros _. apply always_modify. intros w. apply bookkeeping_set_energy.
Qed.

Lemma keep_modification_bookkeeping idx :
  always bookkeeping_only (keep_modification idx).
Proof.
  pose proof bookkeeping_only_refl as Hr.
  pose proof bookkeeping_only_trans as Ht.
  unfold keep_modification.
  apply always_bind; auto.
  { apply always_assign; auto. intros w s' H.
    apply bind_Some in H as (es & H & [= <-]).
    apply bookkeeping_set_previous_energies. eapply copy_at_length, H. }
  intros _. apply always_bind; auto.
  { apply always_modify. intros w. apply bookkeeping_set_previous_energy. }
  intros _. apply always_assign; auto. intros w s' H.
  apply bind_Some in H as (es & H & [= <-]).
  apply bookkeeping_set_previous_occ. eapply copy_at_length, H.
Qed.

Lemma update_energy_Ok idx w u w' :
  update_energy surface V idx w = Ok u w' -> bookkeeping_only w w'.
Proof. intros H. pose proof (update_energy_bookkeeping idx w) as B. by rewrite H in B. Qed.

Lemma keep_modification_Ok idx w u w' :
  keep_modification idx w = Ok u w' -> bookkeeping_only w w'.
Proof. intros H. pose proof (keep_modification_bookkeeping idx w) as B. by rewrite H in B. Qed.

(** *** Runs that cannot raise *)

Lemma for_each_total {A} (I : World -> Prop) (P : A -> Prop) xs (body : A -> M unit) :
  Forall P xs ->
  (forall x w, P x -> I w -> exists w', body x w = Ok tt w' /\ I w') ->
  forall w, I w -> exists w', for_each xs body w = Ok tt w' /\ I w'.
Proof.
  intros HP Hbody. induction HP as [|x xs Hx _ IH]; intros w Hw; simpl.
  - eauto.
  - destruct (Hbody x w Hx Hw) as (w1 & E & Hw1).
    rewrite (bind_step _ _ _ _ _ E). apply IH, Hw1.
Qed.

Hypothesis surface_ok : well_formed_surface surface = true.

Lemma surface_sti : sti surface = seq 0 (stlen surface).
Proof.
  unfold well_formed_surface in surface_ok.
  apply andb_prop in surface_ok as [H _]. apply andb_prop in H as [H _].
  by apply bool_decide_eq_true_1 in H.
Qed.

Lemma surface_row i : i < stlen surface -> is_Some (nni surface !! i).
Proof.
  unfold well_formed_surface in surface_ok.
  apply andb_prop in surface_ok as [H _]. apply andb_prop in H as [_ H].
  apply Nat.eqb_eq in H. intros Hi. apply lookup_lt_is_Some_2. lia.
Qed.

Lemma surface_entries i row :
  nni surface !! i = Some row -> Forall (fun k => k < stlen surface) row.
Proof.
  unfold well_formed_surface in surface_ok.
  apply andb_prop in surface_ok as [_ H]. rewrite forallb_forall in H.
  intros Hrow. apply Forall_forall. intros k Hk.
  assert (Hin : In row (nni surface)).
  { apply list_elem_of_In, list_elem_of_lookup. eauto. }
  specialize (H row Hin). rewrite forallb_forall in H.
  apply Nat.ltb_lt, H, list_elem_of_In, Hk.
Qed.

Lemma get_energy_total i w :
  length (occ (self w)) = stlen surface -> i < stlen surface ->
  exists e, get_energy surface V i w = Ok e w.
Proof.
  intros Hl Hi. destruct (surface_row i Hi) as [row Hrow].
  destruct (take_idx_total (occ (self w)) row) as [o Ho].
  { rewrite Hl. by apply (surface_entries i). }
  exists (V i o). unfold get_energy, bind, index_or_raise, read.
  rewrite Hrow. simpl. rewrite Ho. reflexivity.
Qed.

Lemma update_energy_total idx w :
  length (occ (self w)) = stlen surface ->
  length (energies (self w)) = stlen surface ->
  Forall (fun i => i < stlen surface) idx ->
  exists w', update_energy surface V idx w = Ok tt w'.
Proof.
  intros Hocc Hen Hidx. unfold update_energy.
  destruct (take_idx_total (occ (self w)) idx) as [o Ho]; [by rewrite Hocc|].
  assert (Hsub : forall m, Forall (fun i => i < stlen surface) (mask_filter idx m)).
  { intros m. apply Forall_forall. intros i Hi.
    apply mask_filter_elem_of in Hi. rewrite Forall_forall in Hidx. auto. }
  destruct (set_all_total (mask_filter idx (np_logical_not o)) (energies (self w)) 0%float)
    as [es Hes]; [by rewrite Hen|].
  erewrite bind_step; [|unfold read; by rewrite Ho].
  erewrite bind_step; [|unfold assign; simpl; by rewrite Hes].
  set (w1 := set_self (set_energies es (self w)) w).
  assert (Hw1 : length (occ (self w1)) = stlen surface
                /\ length (energies (self w1)) = stlen surface).
  { subst w1. destruct w as [[] ? ? ?]. simpl in *. split; [done|].
    apply set_all_length in Hes. congruence. }
  destruct (for_each_total
              (fun w => length (occ (self w)) = stlen surface
                        /\ length (energies (self w)) = stlen surface)
              (fun i => i < stlen surface)
              (mask_filter idx o)
              (fun i => e <- get_energy surface V i ;;
                 assign IndexError (fun s =>
                   es ← set_at (energies s) i e; Some (set_energies es s)))
              (Hsub o)) with (w := w1) as (w2 & E2 & _); [|exact Hw1|].
  - intros i wa Hi [Ha Hb].
    destruct (get_energy_total i wa Ha Hi) as [e He].
    rewrite (bind_step _ _ _ _ _ He). unfold assign.
    rewrite set_at_total by lia. simpl. eexists. split; [reflexivity|].
    destruct wa as [[] ? ? ?]. simpl in *. rewrite length_insert. auto.
  - rewrite (bind_step _ _ _ _ _ E2). eexists. reflexivity.
Qed.

Lemma keep_modification_total idx w :
  length (energies (self w)) = stlen surface ->
  length (previous_energies (self w)) = stlen surface ->
  length (occ (self w)) = stlen surface ->
  length (previous_occ (self w)) = stlen surface ->
  Forall (fun i => i < stlen surface) idx ->
  exists w', keep_modification idx w = Ok tt w'.
Proof.
  intros H1 H2 H3 H4 Hidx. unfold keep_modification.
  destruct (copy_at_total idx (previous_energies (self w)) (energies (self w)))
    as [pe Hpe]; [lia | by rewrite H2 |].
  destruct (copy_at_total idx (previous_occ (self w)) (occ (self w)))
    as [po Hpo]; [lia | by rewrite H4 |].
  unfold bind, assign, modify. rewrite Hpe. simpl.
  destruct w as [[] ? ? ?]. simpl in *. rewrite Hpo. simpl. eauto.
Qed.

(** *** The random source *)

Lemma nth_mod_elem_of {A} (a : list A) r d :
  a <> [] -> nth (r mod length a) a d ∈ a.
Proof.
  intros Ha. apply list_elem_of_In, nth_In, Nat.mod_upper_bound.
  destruct a; simpl; congruence.
Qed.

Lemma random_choice_Ok a w i w' :
  random_choice a w = Ok i w' ->
  i ∈ a /\ self w' = self w /\ stdout w' = stdout w /\ rng_tape w' = rng_tape w.
Proof.
  destruct a as [|x a]; [discriminate|].
  unfold random_choice, bind, draw, ret. intros [= <- <-].
  split; [|by cbn].
  exact (nth_mod_elem_of (x :: a) _ x ltac:(discriminate)).
Qed.

Lemma random_choice_total a w :
  a <> [] -> exists i w', random_choice a w = Ok i w'.
Proof. destruct a; [done|]. intros _. unfold random_choice, bind, draw, ret. eauto. Qed.

Lemma random_choice_empty w : random_choice [] w = Raise ValueError w.
Proof. reflexivity. Qed.

Lemma same_shape_refl s : same_shape s s.
Proof. unfold same_shape. auto 10. Qed.

Lemma same_shape_trans s1 s2 s3 :
  same_shape s1 s2 -> same_shape s2 s3 -> same_shape s1 s3.
Proof. unfold same_shape. intros H1 H2. destruct_and!. repeat split; congruence. Qed.

Lemma same_shape_well_formed s s' :
  same_shape s s' -> well_formed surface s = true -> well_formed surface s' = true.
Proof.
  unfold same_shape, well_formed. intros H Hw. destruct_and!.
  repeat (apply andb_prop in Hw as [Hw ?]).
  repeat (apply andb_true_intro; split); congruence.
Qed.

Lemma well_formed_lengths s :
  well_formed surface s = true ->
  length (occ s) = stlen surface
  /\ length (previous_occ s) = stlen surface
  /\ length (energies s) = stlen surface
  /\ length (previous_energies s) = stlen surface
  /\ length (_nni s) = 4 /\ length (_occ s) = 4
  /\ length (_nne s) = 4 /\ length (_p s) = 4.
Proof.
  unfold well_formed. intros Hw.
  repeat (apply andb_prop in Hw as [Hw ?]).
  repeat match goal with H : Nat.eqb _ _ = true |- _ => apply Nat.eqb_eq in H end.
  auto 10.
Qed.

Lemma bookkeeping_only_shape w w' :
  bookkeeping_only w w' -> same_shape (self w) (self w').
Proof.
  intros (es & e & pes & pe & po & -> & H1 & H2 & H3).
  destruct w as [[] ? ? ?]. unfold same_shape. simpl in *. auto 10.
Qed.

Lemma mask_select_Some {A} (a : list A) m r :
  mask_select a m = Some r -> length a = length m /\ r = mask_filter a m.
Proof.
  unfold mask_select. destruct (Nat.eqb_spec (length a) (length m)); [|discriminate].
  intros [= <-]. auto.
Qed.

(** ** Deposition *)

Lemma rng_only_refl w : rng_only w w.
Proof. unfold rng_only. auto. Qed.

Lemma rng_only_trans w1 w2 w3 : rng_only w1 w2 -> rng_only w2 w3 -> rng_only w1 w3.
Proof. unfold rng_only. intros (?&?&?) (?&?&?). repeat split; congruence. Qed.

(** What the search loop returns: after no iteration the locals it was
    given; after at least one, a sampled candidate with its row, found free of
    occupied exclusion-zone sites exactly when [add_success] is set. *)
Lemma add_atom_search_Ok n cands : forall last w r w',
  add_atom_search surface n cands last w = Ok r w' ->
  rng_only w w'
  /\ match n with
     | O => r = (last, false)
     | S _ => exists i row, fst r = Some (i, row) /\ i ∈ cands
                /\ nni surface !! i = Some row
                /\ (snd r = true ->
                    exists o, take_idx (occ (self w)) (take 9 row) = Some o
                              /\ np_any o = false)
     end.
Proof.
  induction n as [|n IH]; intros last w r w' H; simpl in H.
  - apply ret_Ok in H as [-> ->]. split; [apply rng_only_refl | reflexivity].
  - apply bind_Ok in H as (i & w1 & Hi & H).
    apply random_choice_Ok in Hi as (Hi & Hself & Hout & Htape).
    step_in H. step_in H.
    rewrite Hself in Hs0.
    destruct (np_any a0) eqn:Hany; simpl in H.
    + apply IH in H as [Hr H].
      split; [eapply rng_only_trans; [|exact Hr]; by repeat split|].
      destruct n as [|n].
      * subst r. exists i, a. simpl. repeat split; auto. discriminate.
      * destruct H as (i' & row' & ? & ? & ? & Hs').
        exists i', row'. repeat split; auto.
        destruct Hr as (Hr & _). intros Hsnd. specialize (Hs' Hsnd).
        by rewrite Hself in Hs'.
    + apply ret_Ok in H as [-> ->]. split; [by repeat split|].
      exists i, a. simpl. repeat split; eauto.
Qed.

Lemma add_atom_search_total n cands : forall last w,
  cands <> [] -> Forall (fun i => i < stlen surface) cands ->
  length (occ (self w)) = stlen surface ->
  exists r w', add_atom_search surface n cands last w = Ok r w'.
Proof.
  induction n as [|n IH]; intros last w Hne Hc Hl; simpl.
  - unfold ret. eauto.
  - destruct (random_choice_total cands w Hne) as (i & w1 & Hi).
    rewrite (bind_step _ _ _ _ _ Hi).
    apply random_choice_Ok in Hi as (Hi & Hself & _).
    assert (Hlt : i < stlen surface).
    { rewrite Forall_forall in Hc. by apply Hc. }
    destruct (surface_row i Hlt) as [row Hrow].
    rewrite Hrow. simpl. unfold bind at 1. simpl.
    destruct (take_idx_total (occ (self w1)) (take 9 row)) as [o Ho].
    { rewrite Hself, Hl. apply Forall_take. by apply (surface_entries i). }
    unfold bind, read. rewrite Ho.
    destruct (np_any o); simpl.
    + apply IH; auto. congruence.
    + unfold ret. eauto.
Qed.

(** What a returning [add_atom] has done: one site [i], unoccupied at call
    entry, is now occupied; the rest of the change is energy bookkeeping,
    random draws and, when the search was exhausted, one warning. *)
Lemma add_atom_Ok w u w' :
  add_atom surface V w = Ok u w' ->
  length (occ (self w)) = stlen surface ->
  exists i row pos out,
    occ (self w) !! i = Some false
    /\ nni surface !! i = Some row
    /\ bookkeeping_only
         (mkWorld (set_occ (<[i:=true]> (occ (self w))) (self w)) (rng_tape w) pos out) w'
    /\ (out = stdout w
        /\ (forall k, k ∈ take 9 row -> occ (self w) !! k = Some false)
        \/ out = stdout w ++ [TryToAdd (stlen surface)])
    /\ exists w4,
         update_energy surface V row
           (mkWorld (set_occ (<[i:=true]> (occ (self w))) (self w)) (rng_tape w) pos out)
         = Ok tt w4
         /\ update_energy surface V [i] w4 = Ok tt w'.
Proof.
  unfold add_atom. intros H Hl.
  step_in H. apply mask_select_Some in Hs as [Hlen ->].
  apply bind_Ok in H as (r & w1 & Hsearch & H).
  apply add_atom_search_Ok in Hsearch as [(Hself & Hout & Htape) Hr].
  apply bind_Ok in H as ([] & w2 & Hprint & H).
  destruct (stlen surface) as [|n] eqn:EN.
  { subst r. simpl in *. apply print_Ok in Hprint. subst w2. discriminate. }
  destruct Hr as (i & row & Hfst & Hi & Hrow & Hfree).
  rewrite Hfst in H.
  assert (Hocc_i : occ (self w) !! i = Some false).
  { rewrite surface_sti, EN in Hi.
    apply mask_filter_seq in Hi as [_ Hi].
    - rewrite Nat.sub_0_r in Hi. unfold np_logical_not in Hi.
      change (map negb (occ (self w))) with (negb <$> occ (self w)) in Hi.
      rewrite list_lookup_fmap in Hi.
      destruct (occ (self w) !! i) as [[]|]; simpl in Hi; congruence.
    - unfold np_logical_not. rewrite length_map. lia. }
  assert (Hw2 : self w2 = self w /\ rng_tape w2 = rng_tape w
                /\ (stdout w2 = stdout w /\ snd r = true
                    \/ stdout w2 = stdout w ++ [TryToAdd (S n)])).
  { destruct (snd r).
    - apply ret_Ok in Hprint as [_ ->]. auto.
    - apply print_Ok in Hprint. subst w2. simpl. rewrite Hout. auto. }
  destruct Hw2 as (Hself2 & Htape2 & Hout2).
  step_in H. rewrite Hself2, Hocc_i in Hs. injection Hs as <-.
  apply bind_Ok in H as ([] & w3 & E & H). apply ret_Ok in E as [_ ->].
  step_in H. rewrite Hself2 in Hs.
  apply bind_Some in Hs as (o & Ho & [= <-]).
  apply set_at_Some in Ho as [Hlt ->].
  apply bind_Ok in H as ([] & w4 & E1 & E2).
  assert (Hw3 : set_self (set_occ (<[i:=true]> (occ (self w))) (self w)) w2
                = mkWorld (set_occ (<[i:=true]> (occ (self w))) (self w))
                    (rng_tape w) (rng_pos w2) (stdout w2)).
  { unfold set_self. by rewrite Htape2. }
  rewrite Hw3 in E1.
  exists i, row, (rng_pos w2), (stdout w2).
  split; [exact Hocc_i|]. split; [exact Hrow|]. split; [|split].
  - eapply bookkeeping_only_trans;
      [exact (update_energy_Ok _ _ _ _ E1) | exact (update_energy_Ok _ _ _ _ E2)].
  - destruct Hout2 as [[Ho Hs]|Ho]; [left|right; exact Ho].
    split; [exact Ho|]. intros k Hk.
    destruct (Hfree Hs) as (o & Hto & Hany).
    eapply np_any_false_lookup; eauto.
  - exists w4. destruct u. split; [exact E1 | exact E2].
Qed.

(** With a free site and a well-formed state, [add_atom] returns. *)
Lemma add_atom_total w :
  well_formed surface (self w) = true ->
  (exists k, occ (self w) !! k = Some false) ->
  exists w', add_atom surface V w = Ok tt w'.
Proof.
  intros Hwf [k Hk].
  destruct (well_formed_lengths _ Hwf) as (Hocc & _ & Hen & _).
  assert (Hk_lt : k < stlen surface).
  { rewrite <- Hocc. eapply lookup_lt_Some, Hk. }
  set (cands := mask_filter (sti surface) (np_logical_not (occ (self w)))).
  assert (Hmask : length (np_logical_not (occ (self w))) = stlen surface).
  { unfold np_logical_not. by rewrite length_map. }
  assert (Hcands : forall i, i ∈ cands <-> occ (self w) !! i = Some false).
  { intros i. subst cands. rewrite surface_sti, mask_filter_seq by exact Hmask.
    rewrite Nat.sub_0_r. unfold np_logical_not.
    change (map negb (occ (self w))) with (negb <$> occ (self w)).
    rewrite list_lookup_fmap.
    destruct (occ (self w) !! i) as [[]|]; simpl; split;
      try (intros [_ ?]); try intros ?; try split; try congruence; lia. }
  assert (Hne : cands <> []).
  { intros E. apply Hcands in Hk. rewrite E in Hk. by apply elem_of_nil in Hk. }
  assert (Hrange : Forall (fun i => i < stlen surface) cands).
  { apply Forall_forall. intros i Hi. apply Hcands in Hi.
    rewrite <- Hocc. eapply lookup_lt_Some, Hi. }
  destruct (add_atom_search_total (stlen surface) cands None w Hne Hrange Hocc)
    as (r & w1 & Hsearch).
  unfold add_atom.
  erewrite bind_step; cycle 1.
  { unfold read, mask_select. rewrite surface_sti, length_seq, Hmask, Nat.eqb_refl.
    rewrite <- surface_sti. reflexivity. }
  fold cands. rewrite (bind_step _ _ _ _ _ Hsearch).
  apply add_atom_search_Ok in Hsearch as [(Hself & Hout & Htape) Hr].
  destruct (stlen surface) as [|n] eqn:EN; [lia|].
  destruct Hr as (i & row & Hfst & Hi & Hrow & _).
  apply Hcands in Hi.
  assert (Hprint : exists w2, (if snd r then ret tt else print (TryToAdd (S n))) w1 = Ok tt w2
                              /\ self w2 = self w).
  { destruct (snd r); eexists; (split; [reflexivity|]); simpl; auto. }
  destruct Hprint as (w2 & Hprint & Hself2).
  rewrite (bind_step _ _ _ _ _ Hprint). rewrite Hfst.
  erewrite bind_step; [|unfold read; rewrite Hself2, Hi; reflexivity].
  erewrite bind_step; [|reflexivity].
  assert (Hi_lt : i < length (occ (self w))) by (eapply lookup_lt_Some, Hi).
  erewrite bind_step; cycle 1.
  { unfold assign. rewrite Hself2. rewrite set_at_total by exact Hi_lt. reflexivity. }
  set (w3 := set_self _ w2).
  assert (Hw3 : length (occ (self w3)) = S n /\ length (energies (self w3)) = S n).
  { subst w3. destruct w2 as [s2 ? ? ?]. simpl in *. subst s2.
    destruct (self w). simpl in *. rewrite length_insert. auto. }
  destruct Hw3 as [Ho3 He3].
  destruct (update_energy_total row w3) as [w4 E4]; [lia | lia | |].
  { by apply (surface_entries i). }
  rewrite (bind_step _ _ _ _ _ E4).
  pose proof (update_energy_Ok _ _ _ _ E4) as B4.
  apply bookkeeping_only_frame in B4 as (Ho4 & _ & _ & _ & _ & He4 & _).
  apply update_energy_total.
  - rewrite Ho4. lia.
  - rewrite He4. lia.
  - constructor; [|constructor]. lia.
Qed.

Lemma bookkeeping_only_occ w w' :
  bookkeeping_only w w' -> occ (self w') = occ (self w).
Proof. intros H. by apply bookkeeping_only_frame in H as (? & _). Qed.

Lemma unoccupied_candidates (o : list bool) i :
  length o = stlen surface ->
  i ∈ mask_filter (sti surface) (np_logical_not o) <-> o !! i = Some false.
Proof.
  intros Hl. rewrite surface_sti, mask_filter_seq.
  - rewrite Nat.sub_0_r. unfold np_logical_not.
    change (map negb o) with (negb <$> o). rewrite list_lookup_fmap.
    destruct (o !! i) as [[]|]; simpl; split;
      try (intros [_ ?]); try intros ?; try split; try congruence; lia.
  - unfold np_logical_not. by rewrite length_map.
Qed.

(** C3, as the code has it.  On a lattice of at least one site, all of them
    occupied, [add_atom] raises ValueError at its first draw, the candidate
    array being empty: nothing is printed, so no exhausted search is
    reported, and the whole state, occupancy included, is as before. *)
Theorem add_atom_full_lattice_raises w :
  length (sti surface) = length (occ (self w)) ->
  0 < stlen surface ->
  np_all (occ (self w)) = true ->
  add_atom surface V w = Raise ValueError w.
Proof using Type.
  intros Hlen Hn Hall. unfold add_atom, bind at 1, read, mask_select.
  unfold np_logical_not at 1. rewrite length_map, Hlen, Nat.eqb_refl.
  rewrite mask_filter_all_false.
  - destruct (stlen surface); [lia|]. reflexivity.
  - unfold np_logical_not, np_all in *. rewrite forallb_forall in *.
    intros b Hb. apply in_map_iff in Hb as (b' & <- & Hb').
    rewrite (Hall b' Hb'). reflexivity.
Qed.

(** C5.  A returning [add_atom] that printed nothing, which is one whose
    search succeeded, has occupied one site that was unoccupied, so the
    number of occupied sites went up by exactly one, and every site among the
    first nine neighbour-table entries of that site was unoccupied at call
    entry. *)
Theorem add_atom_success w w' :
  length (occ (self w)) = stlen surface ->
  add_atom surface V w = Ok tt w' ->
  stdout w' = stdout w ->
  exists i row,
    nni surface !! i = Some row
    /\ occ (self w) !! i = Some false
    /\ occ (self w') = <[i:=true]> (occ (self w))
    /\ count_nonzero (occ (self w')) = S (count_nonzero (occ (self w)))
    /\ forall k, k ∈ take 9 row -> occ (self w) !! k = Some false.
Proof.
  intros Hl H Hout.
  apply add_atom_Ok in H as (i & row & pos & out & Hi & Hrow & B & Hcase & _); [|exact Hl].
  pose proof (bookkeeping_only_frame _ _ B) as (Ho & _ & Hso & _). simpl in Ho, Hso.
  assert (Hocc' : occ (self w') = <[i:=true]> (occ (self w))).
  { rewrite Ho. by destruct (self w). }
  exists i, row. repeat split; auto.
  - rewrite Hocc'. by apply count_nonzero_insert_true.
  - destruct Hcase as [[_ Hfree]|Hex]; [exact Hfree|].
    exfalso. rewrite Hso, Hex in Hout.
    apply (f_equal length) in Hout. rewrite length_app in Hout. simpl in Hout. lia.
Qed.

(** C9.  With a free site at call entry, the search loop samples among the
    sites unoccupied at call entry and leaves the simulation object alone;
    [add_atom] returns, having occupied a site that was unoccupied, so the
    occupied count is up by exactly one whether or not the search was
    exhausted, and the only warning it can print is the one for the
    exhausted search, never the one for an occupied position. *)
Theorem add_atom_adds_one w :
  well_formed surface (self w) = true ->
  (exists k, occ (self w) !! k = Some false) ->
  (forall n last r w1,
      add_atom_search surface n
        (mask_filter (sti surface) (np_logical_not (occ (self w)))) last w = Ok r w1 ->
      self w1 = self w
      /\ (n <> 0 -> exists i row, fst r = Some (i, row) /\ occ (self w) !! i = Some false))
  /\ exists w' i,
      add_atom surface V w = Ok tt w'
      /\ occ (self w) !! i = Some false
      /\ occ (self w') = <[i:=true]> (occ (self w))
      /\ count_nonzero (occ (self w')) = S (count_nonzero (occ (self w)))
      /\ (stdout w' = stdout w
          \/ stdout w' = stdout w ++ [TryToAdd (stlen surface)]).
Proof.
  intros Hwf Hfree.
  destruct (well_formed_lengths _ Hwf) as (Hl & _).
  split.
  - intros n last r w1 Hs.
    apply add_atom_search_Ok in Hs as [(Hself & _) Hr].
    split; [exact Hself|]. intros Hn. destruct n; [done|].
    destruct Hr as (i & row & Hfst & Hi & _).
    exists i, row. split; [exact Hfst|]. by apply unoccupied_candidates in Hi.
  - destruct (add_atom_total w Hwf Hfree) as [w' H].
    pose proof H as H'.
    apply add_atom_Ok in H' as (i & row & pos & out & Hi & Hrow & B & Hcase & _); [|exact Hl].
    pose proof (bookkeeping_only_frame _ _ B) as (Ho & _ & Hso & _). simpl in Ho, Hso.
    assert (Hocc' : occ (self w') = <[i:=true]> (occ (self w))).
    { rewrite Ho. by destruct (self w). }
    exists w', i. repeat split; auto.
    + rewrite Hocc'. by apply count_nonzero_insert_true.
    + rewrite Hso. destruct Hcase as [[-> _]| ->]; auto.
Qed.

(** ** Diffusion *)

(** A weight of zero stays without probability whatever the total is:
    0/total is a zero or, for a total of zero or NaN, NaN. *)
Lemma zero_div_not_positive (total : float) : (0 <? 0 / total)%float = false.
Proof using Type.
  rewrite ltb_spec, div_spec.
  destruct (Prim2SF total) as [sg|sg| |sg m e]; reflexivity.
Qed.

Lemma zero_div_zero_or_nan (total : float) :
  (0 / total =? 0)%float || PrimFloat.is_nan (0 / total)%float = true.
Proof using Type.
  unfold PrimFloat.is_nan. rewrite !FloatAxioms.eqb_spec, div_spec.
  destruct (Prim2SF total) as [sg|sg| |sg m e]; reflexivity.
Qed.

Lemma support_from_lookup p : forall n k,
  k ∈ support_from n p ->
  n <= k /\ exists x, p !! (k - n) = Some x /\ (0 <? x)%float = true.
Proof using Type.
  induction p as [|x p IH]; intros n k H; simpl in H.
  - by apply elem_of_nil in H.
  - destruct (0 <? x)%float eqn:Hx.
    + apply elem_of_cons in H as [->|H].
      * split; [lia|]. rewrite Nat.sub_diag. eauto.
      * apply IH in H as (Hle & y & Hy & Hpos). split; [lia|].
        exists y. replace (k - n) with (S (k - S n)) by lia. auto.
    + apply IH in H as (Hle & y & Hy & Hpos). split; [lia|].
      exists y. replace (k - n) with (S (k - S n)) by lia. auto.
Qed.

(** [np.random.choice(a, p=p)] returns an entry of [a] at a position of
    positive probability. *)
Lemma random_choice_p_Ok a p w j w' :
  random_choice_p a p w = Ok j w' ->
  rng_only w w'
  /\ exists k x, a !! k = Some j /\ p !! k = Some x /\ (0 <? x)%float = true.
Proof using Type.
  unfold random_choice_p.
  destruct (negb (length a =? length p)); [discriminate|].
  destruct (negb (valid_probabilities p)); [discriminate|].
  destruct (support_from 0 p) as [|k0 supp] eqn:Es; [discriminate|].
  unfold bind, draw.
  set (k := nth _ _ _).
  destruct (a !! k) as [x|] eqn:Ek; [|discriminate].
  intros [= <- <-]. split; [by repeat split|].
  assert (Hk : k ∈ support_from 0 p).
  { rewrite Es. subst k. apply nth_mod_elem_of. discriminate. }
  apply support_from_lookup in Hk as (_ & y & Hy & Hpos).
  rewrite Nat.sub_0_r in Hy. eauto.
Qed.

Lemma list_comp_Ok {A B} (f : A -> M B) xs :
  (forall x, always eq (f x)) ->
  forall w ys w', list_comp f xs w = Ok ys w' -> w' = w /\ length ys = length xs.
Proof using Type.
  intros Hf. induction xs as [|x xs IH]; intros w ys w' H; simpl in H.
  - apply ret_Ok in H as [-> ->]. auto.
  - apply bind_Ok in H as (y & w1 & Hy & H).
    pose proof (Hf x w) as E. rewrite Hy in E. simpl in E. subst w1.
    apply bind_Ok in H as (ys' & w2 & Hys & H).
    apply IH in Hys as [-> Hlen].
    apply ret_Ok in H as [-> ->]. simpl. auto.
Qed.

Lemma hop_energy_pure ii : always eq (hop_energy surface V ii).
Proof using Type.
  intros w. unfold hop_energy, bind, read.
  destruct (occ (self w) !! ii) as [[]|]; simpl; try reflexivity.
  apply get_energy_pure.
Qed.

Lemma boltzmann_T_Ok w bT w' : boltzmann_T w = Ok bT w' -> w' = w.
Proof using Type.
  unfold boltzmann_T, bind, get_self.
  destruct (temperature (self w) =? 0)%float; [discriminate|].
  by intros [= _ <-].
Qed.

(** What lines 190 to 198 leave behind: site [i] vacated, the candidates
    [i] and the first three neighbours in [_nni], their occupancy in [_occ],
    and in [_p] the Boltzmann weights with zero for the occupied ones. *)
Lemma hop_weights_Ok i row w u w1 :
  hop_weights surface V np_exp i row w = Ok u w1 ->
  length (_nni (self w)) = 4 -> length (_occ (self w)) = 4 ->
  length (_nne (self w)) = 4 -> length (_p (self w)) = 4 ->
  exists t es o bT,
    i < length (occ (self w))
    /\ broadcast_to 3 (take 3 row) = Some t
    /\ take_idx (<[i:=false]> (occ (self w))) (i :: t) = Some o
    /\ length es = 4
    /\ w1 = set_self
              (set__p (zip_with (fun x (b : bool) => if b then 0%float else x)
                         (map (fun e => np_exp (- e * bT)%float) es) o)
                 (set__occ o (set__nne es (set__nni (i :: t)
                    (set_occ (<[i:=false]> (occ (self w))) (self w)))))) w.
Proof using Type.
  unfold hop_weights. intros H L1 L2 L3 L4.
  destruct w as [s tape pos out]. cbn [self] in *.
  step_in H. sim_simpl in Hs. apply bind_Some in Hs as (o1 & Ho1 & [= <-]).
  apply set_at_Some in Ho1 as [Hi ->].
  step_in H. sim_simpl in Hs. apply bind_Some in Hs as (c & Hc & [= <-]).
  apply set_at_Some in Hc as [_ ->].
  step_in H. sim_simpl in Hs. apply bind_Some in Hs as (t & Ht & [= <-]).
  rewrite length_insert, L1 in Ht. change (4 - 1) with 3 in Ht.
  pose proof (broadcast_to_length _ _ _ Ht) as Htl.
  assert (Hcands : take 1 (<[0:=i]> (_nni s)) ++ t = i :: t).
  { destruct (_nni s); [discriminate | reflexivity]. }
  rewrite Hcands in H. clear Hcands.
  step_in H.
  apply bind_Ok in H as (es & w2 & Hes & H).
  apply list_comp_Ok in Hes as [-> Hesl]; [|apply hop_energy_pure].
  sim_simpl in Hesl.
  assert (Hes4 : length es = 4) by (rewrite Hesl; simpl; lia).
  step_in H. sim_simpl in Hs. apply bind_Some in Hs as (es' & Hes' & [= <-]).
  rewrite L3, <- Hes4 in Hes'.
  apply broadcast_to_same_length in Hes'. subst es'.
  step_in H as o Ho. sim_simpl in Ho.
  pose proof (take_idx_length _ _ _ Ho) as Hal.
  step_in H as u1 Ho'. sim_simpl in Ho'. apply bind_Some in Ho' as (o' & Ho' & [= <-]).
  replace (length (_occ s)) with (length o) in Ho' by (rewrite Hal; simpl; lia).
  apply broadcast_to_same_length in Ho'. subst o'.
  apply bind_Ok in H as (bT & w3 & HbT & H).
  apply boltzmann_T_Ok in HbT. subst w3.
  step_in H as u2 Hp. sim_simpl in Hp. apply bind_Some in Hp as (p & Hp & [= <-]).
  replace (length (_p s)) with (length (map (fun e => np_exp (- e * bT)%float) es)) in Hp
    by (rewrite length_map; lia).
  apply broadcast_to_same_length in Hp. subst p.
  apply assign_Ok in H as (s' & Hs' & ->). sim_simpl in Hs'.
  apply bind_Some in Hs' as (p & Hp' & [= <-]).
  apply mask_assign_Some in Hp' as [_ ->].
  exists t, es, o, bT. repeat split; auto.
Qed.

Lemma is_surrounded_Ok i row w b w' :
  is_surrounded i row w = Ok b w' ->
  w' = w
  /\ (b = true ->
      occ (self w) !! i = Some true
      /\ (forall k, k ∈ take 6 (drop 18 row) -> occ (self w) !! k = Some true)
      /\ (forall k, k ∈ take 18 row -> occ (self w) !! k = Some false)).
Proof using Type.
  unfold is_surrounded. intros H.
  step_in H as ring Hring.
  destruct (np_all ring) eqn:Hall; simpl in H.
  - step_in H as inner Hinner.
    destruct (np_any inner) eqn:Hany.
    + apply ret_Ok in H as [-> ->]. split; [reflexivity | discriminate].
    + apply read_Ok in H as [H ->]. split; [reflexivity|].
      intros ->. repeat split; auto.
      * intros k Hk. exact (np_all_true_lookup _ _ _ _ Hring Hall Hk).
      * intros k Hk. exact (np_any_false_lookup _ _ _ _ Hinner Hany Hk).
  - apply ret_Ok in H as [-> ->]. split; [reflexivity | discriminate].
Qed.

(** What lines 201 to 220 do: the destination [j] sits at a position of
    positive probability; it is counted as a move or as a stay, occupied, and
    the rest is bookkeeping and the count of accepted moves. *)
Lemma hop_commit_Ok i w u w' :
  hop_commit surface V i w = Ok u w' ->
  exists j pos out w4,
    (exists k x, _nni (self w) !! k = Some j /\ _p (self w) !! k = Some x
                 /\ (0 <? x)%float = true)
    /\ (out = stdout w /\ occ (self w) !! j = Some false
        \/ out = stdout w ++ [MoveOccupied] /\ occ (self w) !! j = Some true)
    /\ bookkeeping_only
         (mkWorld
            (set_occ (<[j:=true]> (occ (self w)))
               (if Nat.eqb j i
                then set_not_moved_moves (not_moved_moves (self w) + 1) (self w)
                else set_successful_moves (successful_moves (self w) + 1) (self w)))
            (rng_tape w) pos out) w4
    /\ w' = set_self (set_move_accepted (move_accepted (self w4) + 1) (self w4)) w4.
Proof using Type.
  unfold hop_commit. intros H.
  step_in H as u0 Hu0.
  apply bind_Ok in H as (j & w1 & Hj & H).
  apply random_choice_p_Ok in Hj as [(Hself & Hout & Htape) Hsupp].
  destruct w1 as [s1 tape1 pos1 out1]. cbn [self stdout rng_tape] in *. subst s1 out1 tape1.
  apply bind_Ok in H as ([] & w2 & Hbump & H).
  assert (Hw2 : w2 = mkWorld
            (if Nat.eqb j i
             then set_not_moved_moves (not_moved_moves (self w) + 1) (self w)
             else set_successful_moves (successful_moves (self w) + 1) (self w))
            (rng_tape w) pos1 (stdout w)).
  { destruct (Nat.eqb j i); apply modify_Ok in Hbump; exact Hbump. }
  clear Hbump. subst w2.
  step_in H as b Hb. cbn [self] in Hb.
  assert (Hb' : occ (self w) !! j = Some b).
  { rewrite <- Hb. destruct (Nat.eqb j i); by destruct (self w). }
  clear Hb.
  apply bind_Ok in H as ([] & w3 & Hprint & H).
  assert (Hw3 : self w3 = (if Nat.eqb j i
             then set_not_moved_moves (not_moved_moves (self w) + 1) (self w)
             else set_successful_moves (successful_moves (self w) + 1) (self w))
          /\ rng_tape w3 = rng_tape w /\ rng_pos w3 = pos1
          /\ (stdout w3 = stdout w /\ b = false
              \/ stdout w3 = stdout w ++ [MoveOccupied] /\ b = true)).
  { destruct b.
    - apply print_Ok in Hprint. subst w3. cbn. auto 10.
    - apply ret_Ok in Hprint as [_ ->]. cbn. auto 10. }
  clear Hprint. destruct Hw3 as (Hs3 & Ht3 & Hp3 & Hcase).
  step_in H as u1 Ho.
  apply bind_Some in Ho as (o & Ho & [= <-]).
  apply set_at_Some in Ho as [_ ->].
  step_in H as u2 Hu2.
  apply bind_Ok in H as ([] & w5 & E1 & H). apply update_energy_Ok in E1.
  apply bind_Ok in H as ([] & w6 & E2 & H). apply update_energy_Ok in E2.
  step_in H as u3 Hu3.
  apply bind_Ok in H as ([] & w7 & E3 & H). apply keep_modification_Ok in E3.
  apply bind_Ok in H as ([] & w8 & E4 & H). apply keep_modification_Ok in E4.
  apply modify_Ok in H.
  exists j, pos1, (stdout w3), w8. split; [exact Hsupp|].
  split; [|split; [|exact H]].
  - destruct Hcase as [[-> ->]|[-> ->]]; auto.
  - eapply bookkeeping_only_trans; [|exact E4].
    eapply bookkeeping_only_trans; [|exact E3].
    eapply bookkeeping_only_trans; [|exact E2].
    replace (mkWorld _ _ _ _) with
      (set_self (set_occ (<[j:=true]> (occ (self w3))) (self w3)) w3); [exact E1|].
    destruct w3 as [s3 ? ? ?]. cbn [self rng_tape rng_pos stdout set_self] in *.
    subst. f_equal. f_equal.
    destruct (Nat.eqb j i); by destruct (self w).
Qed.

Lemma occupied_candidates (o : list bool) i :
  length o = stlen surface ->
  i ∈ mask_filter (sti surface) o <-> o !! i = Some true.
Proof.
  intros Hl. rewrite surface_sti, mask_filter_seq by exact Hl.
  rewrite Nat.sub_0_r. split; [by intros [_ ?] | intros ?; split; [lia | done]].
Qed.

(** A position of positive normalised probability is one of an unoccupied
    candidate. *)
Lemma positive_probability_unoccupied (weights : list float) (o : list bool) k x :
  let masked := zip_with (fun y (b : bool) => if b then 0%float else y) weights o in
  map (fun y => (y / np_sum masked)%float) masked !! k = Some x ->
  (0 <? x)%float = true ->
  o !! k = Some false.
Proof using Type.
  intros masked Hk Hpos.
  change (map ?f masked) with (f <$> masked) in Hk.
  rewrite list_lookup_fmap in Hk.
  destruct (masked !! k) as [y|] eqn:Hy; [|discriminate].
  injection Hk as <-.
  apply lookup_zip_with_Some in Hy as (e & b & -> & He & Hb).
  destruct b; [|exact Hb].
  rewrite zero_div_not_positive in Hpos. discriminate.
Qed.

(** What a returning [move_atom] has done. *)
Lemma move_atom_Ok w u w' :
  move_atom surface V np_exp w = Ok u w' ->
  well_formed surface (self w) = true ->
  exists i row,
    occ (self w) !! i = Some true
    /\ nni surface !! i = Some row
    /\ config (self w') = config (self w)
    /\ same_shape (self w) (self w')
    /\ rng_tape w' = rng_tape w
    /\ stdout w' = stdout w
    /\ attempted_moves (self w') = (attempted_moves (self w) + 1)%Z
    /\ (occ (self w') = occ (self w)
        /\ blocked_moves (self w') = (blocked_moves (self w) + 1)%Z
        /\ successful_moves (self w') = successful_moves (self w)
        /\ not_moved_moves (self w') = not_moved_moves (self w)
        /\ (forall k, k ∈ take 6 (drop 18 row) -> occ (self w) !! k = Some true)
        /\ (forall k, k ∈ take 18 row -> occ (self w) !! k = Some false)
        \/ exists j,
            (j = i \/ j ∈ take 3 row)
            /\ <[i:=false]> (occ (self w)) !! j = Some false
            /\ occ (self w') = <[j:=true]> (<[i:=false]> (occ (self w)))
            /\ blocked_moves (self w') = blocked_moves (self w)
            /\ successful_moves (self w')
               = (successful_moves (self w) + if Nat.eqb j i then 0 else 1)%Z
            /\ not_moved_moves (self w')
               = (not_moved_moves (self w) + if Nat.eqb j i then 1 else 0)%Z).
Proof.
  unfold move_atom. intros H Hwf.
  destruct (well_formed_lengths _ Hwf) as (Locc & _ & _ & _ & L1 & L2 & L3 & L4).
  destruct w as [s tape pos out]. cbn [self rng_tape stdout] in *.
  step_in H as u0 Hu0. cbn [self set_self] in H.
  step_in H as cands Hc. sim_simpl in Hc.
  apply mask_select_Some in Hc as [_ ->].
  apply bind_Ok in H as (i & w1 & Hi & H).
  apply random_choice_Ok in Hi as (Hi & Hself & Hout & Htape).
  apply occupied_candidates in Hi; [|exact Locc].
  destruct w1 as [s1 tape1 pos1 out1]. cbn [self stdout rng_tape] in *. subst s1 out1 tape1.
  step_in H as row Hrow.
  apply bind_Ok in H as (b & w2 & Hb & H).
  apply is_surrounded_Ok in Hb as [-> Hb].
  exists i, row. split; [exact Hi|]. split; [exact Hrow|].
  destruct b.
  - apply modify_Ok in H. subst w'.
    destruct (Hb eq_refl) as (_ & Hring & Hinner).
    sim_simpl in Hring. sim_simpl in Hinner.
    unfold same_shape, config. sim_simpl.
    repeat split; auto. left. repeat split; auto.
  - clear Hb.
    apply bind_Ok in H as ([] & w3 & Hw & H).
    apply hop_weights_Ok in Hw; [|exact L1|exact L2|exact L3|exact L4].
    destruct Hw as (t & es & o & bT & Hlt & Ht & Ho & Hes & ->).
    sim_simpl in Hlt. sim_simpl in Ho.
    apply bind_Ok in H as ([] & w4 & Hn & H).
    apply modify_Ok in Hn. subst w4.
    apply hop_commit_Ok in H
      as (j & pos2 & out2 & w5 & (k & x & Hk & Hp & Hpos) & Hcase & B & ->).
    destruct B as (be & ben & bpes & bpe & bpo & -> & Hl1 & Hl2 & Hl3).
    sim_simpl in Hk. sim_simpl in Hp. sim_simpl in Hcase.
    apply positive_probability_unoccupied in Hp; [|exact Hpos].
    destruct (take_idx_lookup _ _ _ _ _ Ho Hk) as (bj & Hoj & Hj).
    rewrite Hp in Hoj. injection Hoj as <-.
    assert (Hjt : j = i \/ j ∈ take 3 row).
    { apply list_elem_of_lookup_2 in Hk. apply elem_of_cons in Hk as [->|Hk]; [by left|].
      right. eapply broadcast_to_elem_of; eauto. }
    assert (Hout2 : out2 = out).
    { destruct Hcase as [[-> _]|[_ Hc]]; [reflexivity | congruence]. }
    subst out2.
    pose proof (broadcast_to_length _ _ _ Ht) as Htl.
    pose proof (take_idx_length _ _ _ Ho) as Hol. simpl in Hol.
    assert (Hshape : same_shape s
      (set_previous_occ bpo (set_previous_energy bpe (set_previous_energies bpes
         (set_energy ben (set_energies be
            (set_occ (<[j:=true]> (<[i:=false]> (occ s)))
               (set__p (map (fun y => (y / np_sum
                   (zip_with (fun x0 (b : bool) => if b then 0%float else x0)
                      (map (fun e => np_exp (- e * bT)%float) es) o))%float)
                  (zip_with (fun x0 (b : bool) => if b then 0%float else x0)
                      (map (fun e => np_exp (- e * bT)%float) es) o))
               (set__occ o (set__nne es (set__nni (i :: t) s))))))))))).
    { destruct (j =? i); sim_simpl in Hl1; sim_simpl in Hl2; sim_simpl in Hl3;
        unfold same_shape; sim_simpl;
        rewrite ?length_insert, ?length_map, ?length_zip_with, ?length_map; simpl;
        repeat split; lia. }
    destruct Hshape as (S1 & S2 & S3 & S4 & S5 & S6 & S7 & S8).
    sim_simpl in S1. sim_simpl in S2. sim_simpl in S3. sim_simpl in S4.
    sim_simpl in S5. sim_simpl in S6. sim_simpl in S7. sim_simpl in S8.
    unfold same_shape, config.
    destruct (j =? i) eqn:Eji; sim_simpl;
      (repeat split; auto; try lia;
       right; exists j; rewrite Eji; repeat split; auto; lia).
Qed.

(** ** Counters *)

Lemma counters_le_refl s : counters_le s s.
Proof using Type. unfold counters_le. lia. Qed.

Lemma counters_le_trans s1 s2 s3 :
  counters_le s1 s2 -> counters_le s2 s3 -> counters_le s1 s3.
Proof using Type. unfold counters_le. lia. Qed.

(** Closes [counters_le (self w) (self w')] where [w'] is [w] after one
    write. *)
Ltac counters_leaf :=
  unfold counters_le; sim_simpl; lia.

Lemma random_choice_counters a :
  always (fun w w' => counters_le (self w) (self w')) (random_choice a).
Proof using Type.
  pose proof (fun w => counters_le_refl (self w)) as Hr.
  pose proof (fun w1 w2 w3 => counters_le_trans (self w1) (self w2) (self w3)) as Ht.
  destruct a; unfold random_choice; repeat always_step Hr Ht counters_leaf.
Qed.

Lemma random_choice_p_counters a p :
  always (fun w w' => counters_le (self w) (self w')) (random_choice_p a p).
Proof using Type.
  pose proof (fun w => counters_le_refl (self w)) as Hr.
  pose proof (fun w1 w2 w3 => counters_le_trans (self w1) (self w2) (self w3)) as Ht.
  unfold random_choice_p.
  repeat always_step Hr Ht counters_leaf.
  destruct (support_from 0 p); repeat always_step Hr Ht counters_leaf.
  destruct (a !! _); repeat always_step Hr Ht counters_leaf.
Qed.

Lemma update_energy_counters idx :
  always (fun w w' => counters_le (self w) (self w')) (update_energy surface V idx).
Proof using Type.
  eapply always_weaken; [|apply update_energy_bookkeeping].
  intros w w' B. apply bookkeeping_only_frame in B as (_ & Hc & _).
  unfold counters in Hc. injection Hc as H1 H2 H3 H4. unfold counters_le. lia.
Qed.

Lemma keep_modification_counters idx :
  always (fun w w' => counters_le (self w) (self w')) (keep_modification idx).
Proof using Type.
  eapply always_weaken; [|apply keep_modification_bookkeeping].
  intros w w' B. apply bookkeeping_only_frame in B as (_ & Hc & _).
  unfold counters in Hc. injection Hc as H1 H2 H3 H4. unfold counters_le. lia.
Qed.

Lemma get_energy_counters i :
  always (fun w w' => counters_le (self w) (self w')) (get_energy surface V i).
Proof using Type.
  eapply always_weaken; [|apply get_energy_pure].
  intros w w' <-. apply counters_le_refl.
Qed.

Lemma add_atom_search_counters n cands : forall last,
  always (fun w w' => counters_le (self w) (self w')) (add_atom_search surface n cands last).
Proof using Type.
  pose proof (fun w => counters_le_refl (self w)) as Hr.
  pose proof (fun w1 w2 w3 => counters_le_trans (self w1) (self w2) (self w3)) as Ht.
  induction n as [|n IH]; intros last; simpl.
  - always_step Hr Ht counters_leaf.
  - apply (always_bind _ Ht); [apply random_choice_counters|]. intros i.
    repeat always_step Hr Ht counters_leaf. apply IH.
Qed.

(** No counter ever goes down in [add_atom], returned or raised. *)
Lemma add_atom_counters :
  always (fun w w' => counters_le (self w) (self w')) (add_atom surface V).
Proof using Type.
  pose proof (fun w => counters_le_refl (self w)) as Hr.
  pose proof (fun w1 w2 w3 => counters_le_trans (self w1) (self w2) (self w3)) as Ht.
  unfold add_atom.
  always_step Hr Ht counters_leaf; [always_step Hr Ht counters_leaf|].
  apply (always_bind _ Ht); [apply add_atom_search_counters|]. intros [last ok].
  always_step Hr Ht counters_leaf; [repeat always_step Hr Ht counters_leaf|].
  simpl. destruct last as [[i row]|]; [|always_step Hr Ht counters_leaf].
  repeat (first [apply update_energy_counters | always_step Hr Ht counters_leaf]).
Qed.

(** No counter ever goes down in [move_atom], returned or raised. *)
Lemma move_atom_counters :
  always (fun w w' => counters_le (self w) (self w')) (move_atom surface V np_exp).
Proof using Type.
  pose proof (fun w => counters_le_refl (self w)) as Hr.
  pose proof (fun w1 w2 w3 => counters_le_trans (self w1) (self w2) (self w3)) as Ht.
  unfold move_atom, is_surrounded, hop_weights, hop_normalize, hop_commit, hop_energy,
    boltzmann_T.
  repeat (first [ apply update_energy_counters | apply keep_modification_counters
                | apply random_choice_counters | apply random_choice_p_counters
                | apply get_energy_counters
                | always_step Hr Ht counters_leaf ]).
Qed.

Lemma run_step_counters :
  always (fun w w' => counters_le (self w) (self w')) (run_step surface V np_exp).
Proof using Type.
  pose proof (fun w => counters_le_refl (self w)) as Hr.
  pose proof (fun w1 w2 w3 => counters_le_trans (self w1) (self w2) (self w3)) as Ht.
  unfold run_step, coverage.
  repeat (first [ apply add_atom_counters | apply move_atom_counters
                | always_step Hr Ht counters_leaf ]).
  destruct (length _); repeat always_step Hr Ht counters_leaf.
Qed.

Lemma run_lap_counters :
  always (fun w w' => counters_le (self w) (self w')) (run_lap surface V np_exp).
Proof using Type.
  pose proof (fun w => counters_le_refl (self w)) as Hr.
  pose proof (fun w1 w2 w3 => counters_le_trans (self w1) (self w2) (self w3)) as Ht.
  unfold run_lap.
  repeat (first [ apply run_step_counters | always_step Hr Ht counters_leaf ]).
Qed.

Lemma always_Ok {A} (R : World -> World -> Prop) (c : M A) w a w' :
  always R c -> c w = Ok a w' -> R w w'.
Proof using Type. intros Hc H. specialize (Hc w). by rewrite H in Hc. Qed.

(** Closes [counters (self w') = counters (self w)] where [w'] is [w] after
    one write to another field. *)
Ltac counters_same_leaf := unfold counters; sim_simpl; reflexivity.

Lemma counters_same_refl : forall w : World, counters (self w) = counters (self w).
Proof using Type. reflexivity. Qed.

Lemma counters_same_trans : forall w1 w2 w3 : World,
  counters (self w2) = counters (self w1) ->
  counters (self w3) = counters (self w2) ->
  counters (self w3) = counters (self w1).
Proof using Type. congruence. Qed.

Lemma bookkeeping_counters_same {A} (c : M A) :
  always bookkeeping_only c ->
  always (fun w w' => counters (self w') = counters (self w)) c.
Proof using Type.
  apply always_weaken. intros w w' B. by apply bookkeeping_only_frame in B as (_ & Hc & _).
Qed.

Lemma random_choice_p_counters_same a p :
  always (fun w w' => counters (self w') = counters (self w)) (random_choice_p a p).
Proof using Type.
  pose proof counters_same_refl as Hr. pose proof counters_same_trans as Ht.
  unfold random_choice_p.
  repeat always_step Hr Ht counters_same_leaf.
  destruct (support_from 0 p); repeat always_step Hr Ht counters_same_leaf.
  destruct (a !! _); repeat always_step Hr Ht counters_same_leaf.
Qed.

Lemma random_choice_counters_same a :
  always (fun w w' => counters (self w') = counters (self w)) (random_choice a).
Proof using Type.
  pose proof counters_same_refl as Hr. pose proof counters_same_trans as Ht.
  destruct a; unfold random_choice; repeat always_step Hr Ht counters_same_leaf.
Qed.

Lemma hop_weights_counters_same i row :
  always (fun w w' => counters (self w') = counters (self w))
    (hop_weights surface V np_exp i row).
Proof using Type.
  pose proof counters_same_refl as Hr. pose proof counters_same_trans as Ht.
  unfold hop_weights, hop_energy, boltzmann_T.
  repeat (first [ eapply always_weaken; [|apply get_energy_pure]; by intros ? ? <-
                | always_step Hr Ht counters_same_leaf ]).
Qed.

(** The part of [hop_commit] after the counter of the move: from the test of
    [occ[j]] on. *)
Lemma hop_commit_tail_counters_same i j :
  always (fun w w' => counters (self w') = counters (self w))
    (b <- read IndexError (fun s => occ s !! j) ;;
     (if b : bool then print MoveOccupied else ret tt) ;;;
     assign IndexError (fun s => o ← set_at (occ s) j true; Some (set_occ o s)) ;;;
     s <- get_self ;;
     update_energy surface V (_nni s) ;;;
     update_energy surface V [i; j] ;;;
     s <- get_self ;;
     keep_modification (_nni s) ;;;
     keep_modification [i; j] ;;;
     modify (fun s => set_move_accepted (move_accepted s + 1) s)).
Proof using Type.
  pose proof counters_same_refl as Hr. pose proof counters_same_trans as Ht.
  repeat (first [ apply bookkeeping_counters_same, update_energy_bookkeeping
                | apply bookkeeping_counters_same, keep_modification_bookkeeping
                | always_step Hr Ht counters_same_leaf ]).
Qed.

(** C10.  A returning [move_atom] has added one to [attempted_moves] and one
    to exactly one of [blocked_moves], [successful_moves] and
    [not_moved_moves], so that attempted = successful + not moved + blocked
    still holds after the call if it held before; and whatever [move_atom],
    [add_atom] and [run_lap] do, returned or raised, none of the four counters
    goes down. *)
Theorem move_atom_counter_identity w w' :
  move_atom surface V np_exp w = Ok tt w' ->
  let a := attempted_moves (self w) in
  let s := successful_moves (self w) in
  let n := not_moved_moves (self w) in
  let b := blocked_moves (self w) in
  (counters (self w') = (a + 1, s, n, b + 1)
   \/ counters (self w') = (a + 1, s + 1, n, b)
   \/ counters (self w') = (a + 1, s, n + 1, b))%Z
  /\ (a = s + n + b ->
      attempted_moves (self w')
      = successful_moves (self w') + not_moved_moves (self w') + blocked_moves (self w'))%Z
  /\ (forall w0, counters_le (self w0) (self (world_of (move_atom surface V np_exp w0))))
  /\ (forall w0, counters_le (self w0) (self (world_of (add_atom surface V w0))))
  /\ (forall w0, counters_le (self w0) (self (world_of (run_lap surface V np_exp w0)))).
Proof using Type.
  intros H a s n b.
  assert (Hcases : (counters (self w') = (a + 1, s, n, b + 1)
   \/ counters (self w') = (a + 1, s + 1, n, b)
   \/ counters (self w') = (a + 1, s, n + 1, b))%Z).
  { unfold move_atom in H.
    step_in H as u0 Hu0.
    set (w0 := set_self _ w) in H.
    assert (Hw0 : counters (self w0) = (a + 1, s, n, b)%Z).
    { subst w0 a s n b. unfold counters. by sim_simpl. }
    clearbody w0.
    step_in H as cands Hc.
    apply bind_Ok in H as (i & w1 & Hi & H).
    apply (always_Ok _ _ _ _ _ (random_choice_counters_same cands)) in Hi.
    cbn beta in Hi. rewrite Hw0 in Hi. clear Hw0 w0 Hc.
    step_in H as row Hrow.
    apply bind_Ok in H as (blocked & w2 & Hb & H).
    apply is_surrounded_Ok in Hb as [-> _].
    destruct blocked.
    - apply modify_Ok in H. subst w'. left.
      unfold counters in *. sim_simpl. by injection Hi as -> -> -> ->.
    - right.
      apply bind_Ok in H as ([] & w3 & Hw & H).
      apply (always_Ok _ _ _ _ _ (hop_weights_counters_same i row)) in Hw.
      cbn beta in Hw. rewrite Hi in Hw. clear Hi w1.
      step_in H as u2 Hu2.
      set (w3' := set_self _ w3) in H.
      assert (Hw' : counters (self w3') = counters (self w3)) by (subst w3'; counters_same_leaf).
      rewrite Hw in Hw'. clear Hw. clearbody w3'. rename Hw' into Hw.
      unfold hop_commit in H.
      step_in H as u1 Hu1.
      apply bind_Ok in H as (j & w4 & Hj & H).
      apply (always_Ok _ _ _ _ _ (random_choice_p_counters_same _ _)) in Hj.
      cbn beta in Hj. rewrite Hw in Hj. clear Hw.
      apply bind_Ok in H as ([] & w5 & Hbump & H).
      apply (always_Ok _ _ _ _ _ (hop_commit_tail_counters_same i j)) in H.
      cbn beta in H. rewrite H. clear H.
      destruct (Nat.eqb j i); apply modify_Ok in Hbump; subst w5;
        unfold counters in *; sim_simpl; injection Hj as -> -> -> ->; auto. }
  split; [exact Hcases|]. split.
  - intros Hid. unfold counters in Hcases.
    destruct Hcases as [Hc|[Hc|Hc]]; injection Hc as -> -> -> ->; lia.
  - split; [apply move_atom_counters|]. split; [apply add_atom_counters|].
    apply run_lap_counters.
Qed.

Lemma take_idx_constant {A} (a : list A) (v : A) idx :
  (forall k, k ∈ idx -> a !! k = Some v) ->
  take_idx a idx = Some (replicate (length idx) v).
Proof using Type.
  intros H. apply mapM_Some_2.
  induction idx as [|i idx IH]; simpl; constructor.
  - apply H. left.
  - apply IH. intros k Hk. apply H. by right.
Qed.

Lemma np_all_replicate_true n : np_all (replicate n true) = true.
Proof using Type. induction n; simpl; auto. Qed.

Lemma np_any_replicate_false n : np_any (replicate n false) = false.
Proof using Type. induction n; simpl; auto. Qed.

(** C6.  In a well-formed state, once lines 190 to 198 have run, [_occ] holds
    the occupancy of the four candidates at selection time, and every
    candidate that is occupied then has a weight of exactly zero.  After the
    normalisation that weight is a zero or NaN, never positive, and a
    destination that [np.random.choice] returns is an unoccupied site. *)
Theorem hop_never_selects_occupied i row w w1 :
  well_formed surface (self w) = true ->
  hop_weights surface V np_exp i row w = Ok tt w1 ->
  (forall k c, _nni (self w1) !! k = Some c ->
               _occ (self w1) !! k = occ (self w1) !! c)
  /\ (forall k, _occ (self w1) !! k = Some true -> _p (self w1) !! k = Some 0%float)
  /\ forall w2, hop_normalize w1 = Ok tt w2 ->
       occ (self w2) = occ (self w1)
       /\ (forall k x, _occ (self w2) !! k = Some true -> _p (self w2) !! k = Some x ->
                       (0 <? x)%float = false
                       /\ (x =? 0)%float || PrimFloat.is_nan x = true)
       /\ forall j w3,
            random_choice_p (_nni (self w2)) (_p (self w2)) w2 = Ok j w3 ->
            occ (self w2) !! j = Some false.
Proof using Type.
  intros Hwf H.
  destruct (well_formed_lengths _ Hwf) as (_ & _ & _ & _ & L1 & L2 & L3 & L4).
  apply hop_weights_Ok in H; [|exact L1|exact L2|exact L3|exact L4].
  destruct H as (t & es & o & bT & Hlt & Ht & Ho & Hes & ->).
  sim_simpl.
  set (weights := map (fun e => np_exp (- e * bT)%float) es).
  set (masked := zip_with (fun x (b : bool) => if b then 0%float else x) weights o).
  assert (Hmasked : forall k, o !! k = Some true -> masked !! k = Some 0%float).
  { intros k Hk. subst masked. rewrite lookup_zip_with, Hk.
    destruct (weights !! k) as [e|] eqn:He; [reflexivity|].
    exfalso. apply lookup_ge_None in He. apply lookup_lt_Some in Hk.
    apply take_idx_length in Ho. apply broadcast_to_length in Ht.
    subst weights. rewrite length_map in He. simpl in Ho. lia. }
  split; [|split].
  - intros k c Hk.
    destruct (take_idx_lookup _ _ _ _ _ Ho Hk) as (x & -> & ->). reflexivity.
  - exact Hmasked.
  - intros w2 Hn. apply modify_Ok in Hn. subst w2. sim_simpl.
    split; [reflexivity|]. split.
    + intros k x Hk Hx.
      change (map ?f masked) with (f <$> masked) in Hx.
      rewrite list_lookup_fmap, (Hmasked k Hk) in Hx. injection Hx as <-.
      split; [apply zero_div_not_positive | apply zero_div_zero_or_nan].
    + intros j w3 Hj.
      apply random_choice_p_Ok in Hj as [_ (k & x & Hk & Hx & Hpos)].
      apply positive_probability_unoccupied in Hx; [|exact Hpos].
      destruct (take_idx_lookup _ _ _ _ _ Ho Hk) as (b & Hb & Hjb).
      congruence.
Qed.

(** The first candidate is the vacated site itself, so the four candidates
    are never all occupied. *)
Lemma hop_weights_self_unoccupied i row w w1 :
  well_formed surface (self w) = true ->
  hop_weights surface V np_exp i row w = Ok tt w1 ->
  _nni (self w1) !! 0 = Some i /\ _occ (self w1) !! 0 = Some false.
Proof using Type.
  intros Hwf H.
  destruct (well_formed_lengths _ Hwf) as (_ & _ & _ & _ & L1 & L2 & L3 & L4).
  apply hop_weights_Ok in H; [|exact L1|exact L2|exact L3|exact L4].
  destruct H as (t & es & o & bT & Hlt & Ht & Ho & Hes & ->).
  sim_simpl. split; [reflexivity|].
  destruct (take_idx_lookup _ _ _ 0 i Ho eq_refl) as (b & -> & Hb).
  rewrite list_lookup_insert_eq in Hb by exact Hlt. congruence.
Qed.

(** ** The lap driver *)

Lemma coverage_Ok w cov w' :
  coverage w = Ok cov w' -> w' = w /\ cov = coverage_of (self w).
Proof using Type.
  unfold coverage, bind, get_self, coverage_of.
  destruct (length (occ (self w))) eqn:E; [discriminate|].
  intros [= <- <-]. auto.
Qed.

Lemma bookkeeping_only_config w w' :
  bookkeeping_only w w' -> config (self w') = config (self w).
Proof using Type.
  intros (es & e & pes & pe & po & -> & _). unfold config. by sim_simpl.
Qed.

(** What a returning [add_atom] leaves for the lap driver. *)
Lemma add_atom_step w w' :
  well_formed surface (self w) = true ->
  add_atom surface V w = Ok tt w' ->
  well_formed surface (self w') = true
  /\ atoms_on_surface (self w') = S (atoms_on_surface (self w))
  /\ config (self w') = config (self w)
  /\ counters (self w') = counters (self w).
Proof.
  intros Hwf H.
  destruct (well_formed_lengths _ Hwf) as (Hl & _).
  apply add_atom_Ok in H as (i & row & pos & out & Hi & Hrow & B & _ & _); [|exact Hl].
  pose proof (bookkeeping_only_frame _ _ B) as (Ho & Hc & _).
  pose proof (bookkeeping_only_shape _ _ B) as Hs.
  pose proof (bookkeeping_only_config _ _ B) as Hcfg.
  sim_simpl in Ho. repeat split.
  - eapply same_shape_well_formed; [|exact Hwf].
    eapply same_shape_trans; [|exact Hs].
    unfold same_shape. sim_simpl. rewrite length_insert. auto 10.
  - unfold atoms_on_surface. rewrite Ho. by apply count_nonzero_insert_true.
  - rewrite Hcfg. unfold config. by sim_simpl.
  - rewrite Hc. unfold counters. by sim_simpl.
Qed.

(** What a returning [move_atom] leaves for the lap driver. *)
Lemma move_atom_step w w' :
  well_formed surface (self w) = true ->
  move_atom surface V np_exp w = Ok tt w' ->
  well_formed surface (self w') = true
  /\ atoms_on_surface (self w') = atoms_on_surface (self w)
  /\ config (self w') = config (self w)
  /\ attempted_moves (self w') = (attempted_moves (self w) + 1)%Z
  /\ stdout w' = stdout w.
Proof.
  intros Hwf H.
  apply move_atom_Ok in H
    as (i & row & Hi & Hrow & Hcfg & Hs & _ & Hout & Hatt & Hcase); [|exact Hwf].
  repeat split; auto.
  - eapply same_shape_well_formed; eauto.
  - unfold atoms_on_surface.
    destruct Hcase as [(-> & _)|(j & _ & Hfree & -> & _)]; [reflexivity|].
    rewrite (count_nonzero_insert_true _ _ Hfree).
    by apply count_nonzero_insert_false.
Qed.

Lemma repeat_move_atom n : forall w w',
  well_formed surface (self w) = true ->
  repeat_times n (move_atom surface V np_exp) w = Ok tt w' ->
  well_formed surface (self w') = true
  /\ atoms_on_surface (self w') = atoms_on_surface (self w)
  /\ config (self w') = config (self w)
  /\ attempted_moves (self w') = (attempted_moves (self w) + Z.of_nat n)%Z
  /\ stdout w' = stdout w.
Proof.
  induction n as [|n IH]; intros w w' Hwf H.
  - apply ret_Ok in H as [_ ->]. repeat split; auto. lia.
  - cbn [repeat_times] in H.
    apply bind_Ok in H as ([] & w1 & H1 & H).
    apply move_atom_step in H1 as (Hwf1 & Ha1 & Hc1 & Hm1 & Ho1); [|exact Hwf].
    apply IH in H as (Hwf' & Ha' & Hc' & Hm' & Ho'); [|exact Hwf1].
    repeat split; auto; try congruence. lia.
Qed.

(** What a returning step of [run_lap] has done. *)
Lemma run_step_Ok w w' :
  well_formed surface (self w) = true ->
  run_step surface V np_exp w = Ok tt w' ->
  exists w1 w2,
    (if below_target (self w)
     then add_atom surface V w = Ok tt w1
          /\ atoms_on_surface (self w1) = S (atoms_on_surface (self w))
     else w1 = w)
    /\ repeat_times
         (Z.to_nat (moves_per_step (self w1) * Z.of_nat (atoms_on_surface (self w1))))
         (move_atom surface V np_exp) w1 = Ok tt w2
    /\ w' = set_self (set_total_steps (total_steps (self w2) + 1) (self w2)) w2
    /\ well_formed surface (self w') = true
    /\ config (self w') = config (self w)
    /\ atoms_on_surface (self w') = atoms_on_surface (self w1)
    /\ attempted_moves (self w')
       = (attempted_moves (self w)
          + Z.max 0 (moves_per_step (self w) * Z.of_nat (atoms_on_surface (self w1))))%Z
    /\ (below_target (self w) = false -> stdout w' = stdout w).
Proof.
  intros Hwf H. unfold run_step in H.
  apply bind_Ok in H as (cov & w0 & Hcov & H).
  apply coverage_Ok in Hcov as [-> ->].
  step_in H as u0 Hu0.
  apply bind_Ok in H as ([] & w1 & Hadd & H).
  fold (below_target (self w)) in Hadd.
  assert (Hw1 : (if below_target (self w)
                 then add_atom surface V w = Ok tt w1
                      /\ atoms_on_surface (self w1) = S (atoms_on_surface (self w))
                 else w1 = w)
                /\ well_formed surface (self w1) = true
                /\ config (self w1) = config (self w)
                /\ attempted_moves (self w1) = attempted_moves (self w)
                /\ (below_target (self w) = false -> stdout w1 = stdout w)).
  { destruct (below_target (self w)).
    - pose proof (add_atom_step _ _ Hwf Hadd) as (? & ? & ? & Hc).
      unfold counters in Hc. injection Hc as ? ? ? ?. repeat split; auto. discriminate.
    - apply ret_Ok in Hadd as [_ ->]. auto. }
  destruct Hw1 as (Hcase & Hwf1 & Hcfg1 & Hatt1 & Hout1).
  step_in H as u1 Hu1.
  apply bind_Ok in H as ([] & w2 & Hmoves & H).
  apply modify_Ok in H.
  pose proof (repeat_move_atom _ _ _ Hwf1 Hmoves) as (Hwf2 & Ha2 & Hc2 & Hm2 & Ho2).
  exists w1, w2. subst w'. sim_simpl.
  split; [exact Hcase|]. split; [exact Hmoves|]. split; [reflexivity|].
  assert (Hmps : moves_per_step (self w1) = moves_per_step (self w)).
  { unfold config in Hcfg1. congruence. }
  repeat split.
  - eapply same_shape_well_formed; [|exact Hwf2]. unfold same_shape. sim_simpl. auto 10.
  - rewrite <- Hcfg1, <- Hc2. unfold config. by sim_simpl.
  - rewrite <- Ha2. unfold atoms_on_surface. by sim_simpl.
  - rewrite Hm2, Hatt1, Hmps. lia.
  - intros Hb. rewrite Ho2. auto.
Qed.

Lemma below_target_stable s s' :
  config s' = config s ->
  atoms_on_surface s' = atoms_on_surface s ->
  length (occ s') = length (occ s) ->
  below_target s' = below_target s.
Proof using Type.
  unfold below_target, coverage_of, config. intros [= _ _ ->] -> ->. reflexivity.
Qed.

Lemma repeat_run_step n : forall w w',
  well_formed surface (self w) = true ->
  repeat_times n (run_step surface V np_exp) w = Ok tt w' ->
  well_formed surface (self w') = true
  /\ atoms_on_surface (self w) <= atoms_on_surface (self w')
  /\ (below_target (self w) = false ->
      atoms_on_surface (self w') = atoms_on_surface (self w)
      /\ stdout w' = stdout w).
Proof.
  induction n as [|n IH]; intros w w' Hwf H.
  - apply ret_Ok in H as [_ ->]. auto.
  - cbn [repeat_times] in H.
    apply bind_Ok in H as ([] & w1 & H1 & H).
    apply run_step_Ok in H1
      as (wa & wb & Hcase & _ & _ & Hwf1 & Hcfg & Hatoms & _ & Hout); [|exact Hwf].
    apply IH in H as (Hwf' & Hle & Hstay); [|exact Hwf1].
    split; [exact Hwf'|].
    destruct (below_target (self w)) eqn:Hb.
    + destruct Hcase as [_ Hadd]. split; [lia | discriminate].
    + subst wa. split; [lia|]. intros _.
      assert (Hb1 : below_target (self w1) = false).
      { rewrite <- Hb. apply below_target_stable; auto.
        apply well_formed_lengths in Hwf as (-> & _).
        by apply well_formed_lengths in Hwf1 as (-> & _). }
      destruct (Hstay Hb1) as [-> ->]. auto.
Qed.

(** ** The energy invariant *)

Lemma take_idx_cons {A} (a : list A) i idx o :
  take_idx a (i :: idx) = Some o ->
  exists b o', a !! i = Some b /\ take_idx a idx = Some o' /\ o = b :: o'.
Proof using Type.
  unfold take_idx. cbn [mapM]. intros H.
  apply bind_Some in H as (b & Hb & H).
  apply bind_Some in H as (o' & Ho' & [= <-]). eauto.
Qed.

(** [idx[occ[idx]]] holds the occupied sites of [idx], [idx[~occ[idx]]] the
    unoccupied ones. *)
Lemma mask_filter_take_idx (a : list bool) idx : forall o k (v : bool),
  take_idx a idx = Some o ->
  k ∈ mask_filter idx (if v then o else np_logical_not o)
  <-> k ∈ idx /\ a !! k = Some v.
Proof using Type.
  induction idx as [|i idx IH]; intros o k v H.
  - injection H as <-. destruct v; simpl; split;
      try (intros Hk; by apply elem_of_nil in Hk);
      intros [Hk _]; by apply elem_of_nil in Hk.
  - apply take_idx_cons in H as (b & o' & Hb & Ho' & ->).
    specialize (IH o' k v Ho').
    assert (Hrec : k ∈ mask_filter (i :: idx) (if v then b :: o' else np_logical_not (b :: o'))
                   <-> (k = i /\ b = v) \/ k ∈ mask_filter idx (if v then o' else np_logical_not o')).
    { destruct v, b; simpl; rewrite ?elem_of_cons.
      - split; [intros [->|?]; auto | intros [[-> _]|?]; auto].
      - split; [auto | intros [[_ ?]|?]; [discriminate | auto]].
      - split; [auto | intros [[_ ?]|?]; [discriminate | auto]].
      - split; [intros [->|?]; auto | intros [[-> _]|?]; auto]. }
    rewrite Hrec, IH, elem_of_cons. split.
    + intros [[-> ->]|[? ?]]; auto.
    + intros [[->|?] Hk]; [left; split; [done | congruence] | right; auto].
Qed.

Lemma take_idx_insert_other {A} (a : list A) i v idx :
  i ∉ idx -> take_idx (<[i:=v]> a) idx = take_idx a idx.
Proof using Type.
  intros Hi. unfold take_idx. induction idx as [|k idx IH]; [reflexivity|].
  cbn [mapM]. rewrite list_lookup_insert_ne by (intros ->; apply Hi; left).
  rewrite IH; [reflexivity|]. intros Hk. apply Hi. by right.
Qed.

Lemma get_energy_potential i w e w' :
  get_energy surface V i w = Ok e w' ->
  w' = w /\ potential_at surface V (occ (self w)) i = Some e.
Proof using Type.
  intros H. apply get_energy_Ok in H as (-> & row & o & Hrow & Ho & ->).
  split; [reflexivity|]. unfold potential_at. rewrite Hrow. simpl. by rewrite Ho.
Qed.

(** The loop of [update_energy] writes, at each of its sites, the energy the
    potential gives it, and leaves the other sites alone. *)
Lemma update_energy_loop_Ok xs : forall w w',
  for_each xs (fun i =>
    e <- get_energy surface V i ;;
    assign IndexError (fun s =>
      es ← set_at (energies s) i e; Some (set_energies es s))) w = Ok tt w' ->
  exists es,
    w' = set_self (set_energies es (self w)) w
    /\ forall k,
         (k ∈ xs -> exists e, potential_at surface V (occ (self w)) k = Some e
                              /\ es !! k = Some e)
         /\ (k ∉ xs -> es !! k = energies (self w) !! k).
Proof using Type.
  induction xs as [|x xs IH]; intros w w' H; cbn [for_each] in H.
  - apply ret_Ok in H as [_ ->]. exists (energies (self w)). split.
    + destruct w as [[] ? ? ?]. reflexivity.
    + intros k. split; [intros Hk; by apply elem_of_nil in Hk | reflexivity].
  - apply bind_Ok in H as ([] & w1 & Hx & H).
    apply bind_Ok in Hx as (e & w0 & He & Hx).
    apply get_energy_potential in He as [-> He].
    apply assign_Ok in Hx as (s' & Hs' & ->).
    apply bind_Some in Hs' as (es1 & Hes1 & [= <-]).
    apply set_at_Some in Hes1 as [Hlt ->].
    apply IH in H as (es & -> & Hes). sim_simpl in Hes.
    exists es. split; [by destruct w as [[] ? ? ?]|].
    intros k. destruct (Hes k) as [Hin Hout]. split.
    + intros Hk. destruct (decide (k ∈ xs)) as [Hkx|Hkx]; [auto|].
      apply elem_of_cons in Hk as [->|Hk]; [|done].
      exists e. split; [exact He|].
      rewrite (Hout Hkx). by apply list_lookup_insert_eq.
    + intros Hk. rewrite Hout by (intros ?; apply Hk; by right).
      apply list_lookup_insert_ne. intros ->. apply Hk. left.
Qed.

(** After [update_energy(indices)]: [energy] is the sum of [energies]; a site
    of [indices] has energy zero if unoccupied and the energy of the potential
    if occupied; the energy of any other site is as before. *)
Lemma update_energy_Ok_energies idx w u w' :
  update_energy surface V idx w = Ok u w' ->
  occ (self w') = occ (self w)
  /\ energy (self w') = np_sum (energies (self w'))
  /\ forall k,
       (k ∈ idx -> occ (self w) !! k = Some false ->
        energies (self w') !! k = Some 0%float)
       /\ (k ∈ idx -> occ (self w) !! k = Some true ->
           exists e, potential_at surface V (occ (self w)) k = Some e
                     /\ energies (self w') !! k = Some e)
       /\ (k ∉ idx -> energies (self w') !! k = energies (self w) !! k).
Proof using Type.
  intros H. pose proof (update_energy_Ok _ _ _ _ H) as B.
  split; [by apply bookkeeping_only_occ|].
  unfold update_energy in H.
  step_in H as o Ho.
  step_in H as u0 Hz. apply bind_Some in Hz as (es0 & Hz & [= <-]).
  apply bind_Ok in H as ([] & w1 & Hloop & H).
  apply modify_Ok in H. subst w'.
  apply update_energy_loop_Ok in Hloop as (es & -> & Hes).
  sim_simpl in Hes. sim_simpl.
  split; [reflexivity|].
  pose proof (fun k => mask_filter_take_idx _ _ _ k true Ho) as Htrue.
  pose proof (fun k => mask_filter_take_idx _ _ _ k false Ho) as Hfalse.
  cbn beta iota in Htrue, Hfalse.
  intros k. destruct (Hes k) as [Hin Hout]. repeat split.
  - intros Hk Hocc. rewrite Hout.
    + rewrite (set_all_lookup _ _ _ _ k Hz).
      rewrite bool_decide_eq_true_2; [reflexivity|]. apply Hfalse. auto.
    + intros Hk'. apply Htrue in Hk' as [_ Hk']. congruence.
  - intros Hk Hocc. apply Hin, Htrue. auto.
  - intros Hk. rewrite Hout.
    + rewrite (set_all_lookup _ _ _ _ k Hz).
      rewrite bool_decide_eq_false_2; [reflexivity|].
      intros Hk'. apply Hfalse in Hk' as [? _]. done.
    + intros Hk'. apply Htrue in Hk' as [? _]. done.
Qed.

Lemma keep_modification_Ok_energies idx w u w' :
  keep_modification idx w = Ok u w' ->
  occ (self w') = occ (self w)
  /\ energies (self w') = energies (self w)
  /\ energy (self w') = energy (self w).
Proof using Type.
  unfold keep_modification. intros H.
  step_in H as u0 H0. apply bind_Some in H0 as (pe & _ & [= <-]).
  step_in H as u1 H1.
  apply assign_Ok in H as (s' & Hs' & ->).
  apply bind_Some in Hs' as (po & _ & [= <-]).
  by sim_simpl.
Qed.

Lemma potential_at_Some o i e :
  potential_at surface V o i = Some e ->
  exists row ob, nni surface !! i = Some row /\ take_idx o row = Some ob /\ e = V i ob.
Proof using Type.
  unfold potential_at. intros H.
  apply bind_Some in H as (row & Hrow & H).
  apply bind_Some in H as (ob & Hob & [= <-]). eauto.
Qed.

(** [update_energy(indices)] makes every site of [indices] consistent, keeps
    the consistent sites outside [indices] consistent, and sets [energy]. *)
Lemma update_energy_consistent idx w u w' :
  update_energy surface V idx w = Ok u w' ->
  energy (self w') = np_sum (energies (self w'))
  /\ forall k,
       (k ∈ idx \/ consistent_at surface V (self w) k) ->
       consistent_at surface V (self w') k.
Proof using Type.
  intros H. apply update_energy_Ok_energies in H as (Hocc & Hsum & Hen).
  split; [exact Hsum|]. intros k Hk.
  destruct (Hen k) as (Hzero & Hpot & Hrest).
  unfold consistent_at. rewrite Hocc.
  destruct (decide (k ∈ idx)) as [Hin|Hout].
  - split; [by apply Hzero|]. intros Ho.
    destruct (Hpot Hin Ho) as (e & He & ->).
    apply potential_at_Some in He as (row & ob & ? & ? & ->). eauto.
  - destruct Hk as [?|[Hz Hp]]; [done|].
    rewrite (Hrest Hout). auto.
Qed.

(** After [prepopulate] the energy invariant holds, whatever the energies
    were. *)
Lemma prepopulate_with_consistent c w u w' :
  length (occ (self w)) = stlen surface ->
  prepopulate_with surface V c w = Ok u w' ->
  energy_consistent surface V (self w').
Proof using Type.
  unfold prepopulate_with. intros Hl H.
  step_in H as u0 Hu0.
  step_in H as u1 Ho. sim_simpl in Ho.
  apply bind_Some in Ho as (o & Ho & [= <-]).
  apply set_all_length in Ho.
  apply bind_Ok in H as ([] & w1 & Hupd & H).
  pose proof (update_energy_Ok _ _ _ _ Hupd) as B.
  apply bookkeeping_only_occ in B. sim_simpl in B.
  apply update_energy_consistent in Hupd as [Hsum Hcons].
  apply keep_modification_Ok_energies in H as (Hocc & Hen & He).
  unfold energy_consistent, consistent_at in *. rewrite Hocc, Hen, He.
  split; [exact Hsum|]. intros k.
  destruct (decide (k < stlen surface)) as [Hk|Hk].
  - apply Hcons. left. apply elem_of_seq. lia.
  - rewrite B. rewrite (proj2 (lookup_ge_None o k)) by lia.
    split; discriminate.
Qed.

(** On a table where being a neighbour is mutual, [add_atom] keeps the
    energy invariant: it recomputes the whole neighbour row of the site it
    occupies. *)
Lemma add_atom_consistent w u w' :
  symmetric_table surface ->
  length (occ (self w)) = stlen surface ->
  add_atom surface V w = Ok u w' ->
  energy_consistent surface V (self w) ->
  energy_consistent surface V (self w').
Proof.
  intros Hsym Hl H [_ Hcons]. destruct u.
  apply add_atom_Ok in H
    as (i & row & pos & out & Hi & Hrow & _ & _ & w4 & E1 & E2); [|exact Hl].
  pose proof (update_energy_Ok _ _ _ _ E1) as B1.
  apply bookkeeping_only_occ in B1. sim_simpl in B1.
  pose proof (update_energy_Ok_energies _ _ _ _ E1) as (_ & _ & Hen1).
  apply update_energy_consistent in E1 as [_ Hc1].
  apply update_energy_consistent in E2 as [Hsum Hc2].
  split; [exact Hsum|]. intros k. apply Hc2.
  destruct (decide (k = i)) as [->|Hki]; [left; left|right].
  apply Hc1.
  destruct (decide (k ∈ row)) as [Hk|Hk]; [by left|right].
  destruct (Hcons k) as [Hz Hp].
  unfold consistent_at. sim_simpl.
  rewrite list_lookup_insert_ne by done. split; [exact Hz|].
  intros Ho. destruct (Hp Ho) as (row_k & o & Hrk & Hto & He).
  exists row_k, o. split; [exact Hrk|]. split; [|exact He].
  rewrite take_idx_insert_other; [exact Hto|].
  intros Hik. apply Hk. exact (Hsym i k row row_k Hrow Hrk Hik).
Qed.

(** [update_energy(indices)] leaves [energy] the sum of [energies] and every
    unoccupied site at zero, provided the unoccupied sites outside [indices]
    were at zero. *)
Lemma update_energy_zeros idx w u w' :
  update_energy surface V idx w = Ok u w' ->
  (forall k, k ∉ idx -> occ (self w) !! k = Some false ->
             energies (self w) !! k = Some 0%float) ->
  energy_sum_and_zeros (self w').
Proof using Type.
  intros H Hz. apply update_energy_Ok_energies in H as (Hocc & Hsum & Hen).
  split; [exact Hsum|]. intros k Hk. rewrite Hocc in Hk.
  destruct (Hen k) as (Hzero & _ & Hrest).
  destruct (decide (k ∈ idx)) as [Hin|Hout]; [auto|].
  rewrite (Hrest Hout). auto.
Qed.

(** [hop_commit] restores the part of the invariant that does not involve
    the potential, which the vacated site [i] may have broken. *)
Lemma hop_commit_zeros i w u w' :
  hop_commit surface V i w = Ok u w' ->
  i ∈ _nni (self w) ->
  (forall k, k <> i -> occ (self w) !! k = Some false ->
             energies (self w) !! k = Some 0%float) ->
  energy_sum_and_zeros (self w').
Proof using Type.
  unfold hop_commit. intros H Hi Hz.
  step_in H as u0 Hu0.
  apply bind_Ok in H as (j & w1 & Hj & H).
  apply random_choice_p_Ok in Hj as [(Hself & _) _].
  apply bind_Ok in H as ([] & w2 & Hbump & H).
  assert (Hw2 : occ (self w2) = occ (self w) /\ energies (self w2) = energies (self w)
                /\ _nni (self w2) = _nni (self w)).
  { destruct (Nat.eqb j i); apply modify_Ok in Hbump; subst w2; sim_simpl;
      rewrite Hself; auto. }
  clear Hbump Hself. destruct Hw2 as (Ho2 & He2 & Hn2).
  step_in H as b Hb.
  apply bind_Ok in H as ([] & w3 & Hprint & H).
  assert (Hw3 : self w3 = self w2).
  { destruct b; [apply print_Ok in Hprint | apply ret_Ok in Hprint as [_ Hprint]];
      by subst w3. }
  clear Hprint.
  step_in H as u1 Ho.
  apply bind_Some in Ho as (o & Ho & [= <-]).
  apply set_at_Some in Ho as [Hjlt ->].
  step_in H as u2 Hu2.
  apply bind_Ok in H as ([] & w5 & E1 & H).
  apply bind_Ok in H as ([] & w6 & E2 & H).
  step_in H as u3 Hu3.
  apply bind_Ok in H as ([] & w7 & E3 & H).
  apply bind_Ok in H as ([] & w8 & E4 & H).
  apply modify_Ok in H. subst w'.
  apply keep_modification_Ok_energies in E3 as (Ho7 & He7 & Hs7).
  apply keep_modification_Ok_energies in E4 as (Ho8 & He8 & Hs8).
  apply update_energy_zeros in E1.
  - apply update_energy_zeros in E2; [|intros k _; apply E1].
    destruct E2 as [Hsum Hzero].
    unfold energy_sum_and_zeros. sim_simpl.
    rewrite Hs8, He8, Ho8, Hs7, He7, Ho7. auto.
  - sim_simpl. rewrite Hw3, Hn2, Ho2, He2. intros k Hk Hocc.
    assert (Hki : k <> i) by (intros ->; done).
    destruct (decide (k = j)) as [->|Hkj].
    + rewrite list_lookup_insert_eq in Hocc; [discriminate|].
      by rewrite Hw3, Ho2 in Hjlt.
    + rewrite list_lookup_insert_ne in Hocc by done. auto.
Qed.

(** [move_atom] keeps [energy] the sum of [energies] and the energy of every
    unoccupied site at zero. *)
Lemma move_atom_zeros w u w' :
  well_formed surface (self w) = true ->
  move_atom surface V np_exp w = Ok u w' ->
  energy_sum_and_zeros (self w) ->
  energy_sum_and_zeros (self w').
Proof using Type.
  unfold move_atom. intros Hwf H [Hsum Hz].
  destruct (well_formed_lengths _ Hwf) as (_ & _ & _ & _ & L1 & L2 & L3 & L4).
  step_in H as u0 Hu0.
  step_in H as cands Hc.
  apply bind_Ok in H as (i & w1 & Hi & H).
  apply random_choice_Ok in Hi as (_ & Hself & _).
  sim_simpl in Hself.
  step_in H as row Hrow.
  apply bind_Ok in H as (b & w2 & Hb & H).
  apply is_surrounded_Ok in Hb as [-> _].
  assert (H1 : occ (self w1) = occ (self w) /\ energies (self w1) = energies (self w)
               /\ energy (self w1) = energy (self w)).
  { rewrite Hself. by sim_simpl. }
  destruct H1 as (Ho1 & He1 & Hs1).
  destruct b.
  - apply modify_Ok in H. subst w'. unfold energy_sum_and_zeros. sim_simpl.
    rewrite Hs1, He1, Ho1. auto.
  - apply bind_Ok in H as ([] & w3 & Hw & H).
    apply hop_weights_Ok in Hw; [|by rewrite Hself..].
    destruct Hw as (t & es & o & bT & Hlt & Ht & Ho & Hes & ->).
    apply bind_Ok in H as ([] & w4 & Hn & H).
    apply modify_Ok in Hn. subst w4.
    apply hop_commit_zeros in H; [exact H | |].
    + sim_simpl. left.
    + sim_simpl. rewrite Ho1, He1. intros k Hk Hocc.
      rewrite list_lookup_insert_ne in Hocc by done. auto.
Qed.

End EngineFacts.

(** ** The examples *)

(** Only the values of [np.exp] at zero and from -746 down matter to a run
    that meets no other argument. *)
Lemma float_eqb_zero (x : float) :
  (x =? 0)%float = true -> x = 0%float \/ x = (-0)%float.
Proof.
  intros H. rewrite FloatAxioms.eqb_spec in H.
  change (Prim2SF 0) with (S754_zero false) in H.
  rewrite <- (SF2Prim_Prim2SF x).
  destruct (Prim2SF x) as [[]|[]| |[] m e]; try discriminate H.
  - by right.
  - by left.
Qed.

Lemma exp_like_ext (np_exp : float -> float) :
  exp_like np_exp ->
  np_exp = (fun x => if (x <=? -746)%float then 0%float
                     else if (x =? 0)%float then 1%float else np_exp x).
Proof.
  intros (Hm & H0 & Hu). apply functional_extensionality. intros x.
  destruct (x <=? -746)%float eqn:E; [by apply Hu|].
  destruct (x =? 0)%float eqn:E0; [|reflexivity].
  by apply float_eqb_zero in E0 as [-> | ->].
Qed.

Lemma exp_like_exp_pts : exp_like Cube.exp_pts.
Proof.
  split; [reflexivity|]. split; [reflexivity|].
  intros x Hx. unfold Cube.exp_pts. by rewrite Hx.
Qed.

Lemma cube_surface_ok : well_formed_surface Cube.surface = true.
Proof. reflexivity. Qed.

Lemma loop_surface_ok : well_formed_surface Loop.surface = true.
Proof. reflexivity. Qed.

(** One site of the invariant on a concrete state. *)
Ltac site_case :=
  let Hi := fresh "Hi" in
  unfold consistent_at; split; intros Hi; vm_compute in Hi;
  first [ discriminate Hi
        | reflexivity
        | eexists; eexists; split; [reflexivity|]; split; reflexivity ].

(** C1.  The energy invariant does not survive [move_atom], which recomputes
    the energies of the four candidates only.  On the cube at 1 K with the
    repulsive potential, sites 0 and 3 occupied and the invariant holding,
    the particle of site 0 hops to site 4; site 3, which is not a candidate,
    keeps the energy 1 it had from its neighbour 0, while the potential on
    its neighbour occupancy is now 0. *)
Theorem move_atom_leaves_stale_energy (np_exp : float -> float) :
  exp_like np_exp ->
  let w := Cube.populated Cube.V_repulsive [0; 3] in
  energy_consistent Cube.surface Cube.V_repulsive (self w)
  /\ exists w',
      move_atom Cube.surface Cube.V_repulsive np_exp w = Ok tt w'
      /\ occ (self w') = [false; false; false; true; true; false; false; false]
      /\ energy (self w') = np_sum (energies (self w'))
      /\ energies (self w') !! 3 = Some 1%float
      /\ get_energy Cube.surface Cube.V_repulsive 3 w' = Ok 0%float w'
      /\ ~ energy_consistent Cube.surface Cube.V_repulsive (self w').
Proof.
  intros Hexp w. rewrite (exp_like_ext np_exp Hexp). split.
  - split; [reflexivity|]. intros i.
    do 8 (destruct i as [|i]; [site_case|]).
    site_case.
  - eexists. split; [vm_compute; reflexivity|].
    split; [reflexivity|]. split; [reflexivity|]. split; [reflexivity|].
    split; [reflexivity|].
    intros [_ Hall]. destruct (Hall 3) as [_ H3]. cbv beta in H3.
    destruct H3 as (row & o & Hrow & Ho & He); [reflexivity|].
    vm_compute in Hrow. injection Hrow as <-.
    vm_compute in Ho. injection Ho as <-.
    vm_compute in He.
    apply (f_equal (fun x => match x with Some y => (y =? 0)%float | None => true end)) in He.
    discriminate He.
Qed.

(** The stale energy with the examples' [exp]. *)
Lemma move_atom_leaves_stale_energy_witness :
  let w := Cube.populated Cube.V_repulsive [0; 3] in
  energy_consistent Cube.surface Cube.V_repulsive (self w)
  /\ exists w',
      move_atom Cube.surface Cube.V_repulsive Cube.exp_pts w = Ok tt w'
      /\ occ (self w') = [false; false; false; true; true; false; false; false]
      /\ energy (self w') = np_sum (energies (self w'))
      /\ energies (self w') !! 3 = Some 1%float
      /\ get_energy Cube.surface Cube.V_repulsive 3 w' = Ok 0%float w'
      /\ ~ energy_consistent Cube.surface Cube.V_repulsive (self w').
Proof. exact (move_atom_leaves_stale_energy Cube.exp_pts exp_like_exp_pts). Defined.

(** C7.  On the cube at 1 K with the repulsive potential and sites 0, 3 and 7
    occupied, the hop of the particle of site 0 finds every candidate at an
    energy of at least one unit: the four Boltzmann weights underflow to
    zero, none of the candidates being occupied, their sum is zero, line 199
    divides by it all the same and leaves four NaN in [_p], and the call
    ends in the ValueError of [np.random.choice], site 0 vacated. *)
Theorem move_atom_divides_by_zero (np_exp : float -> float) :
  exp_like np_exp ->
  let w := Cube.populated Cube.V_repulsive [0; 3; 7] in
  let w0 := mkWorld (set_attempted_moves 1 (self w)) Cube.tape0 1 [] in
  exists w1 w2,
    hop_weights Cube.surface Cube.V_repulsive np_exp 0 (Cube.row 0) w0 = Ok tt w1
    /\ _nni (self w1) = [0; 1; 2; 4]
    /\ _occ (self w1) = [false; false; false; false]
    /\ _p (self w1) = [0%float; 0%float; 0%float; 0%float]
    /\ np_sum (_p (self w1)) = 0%float
    /\ hop_normalize w1 = Ok tt w2
    /\ _p (self w2) = [nan; nan; nan; nan]
    /\ occ (self w2) = [false; false; false; true; false; false; false; true]
    /\ move_atom Cube.surface Cube.V_repulsive np_exp w = Raise ValueError w2.
Proof.
  intros Hexp w w0. rewrite (exp_like_ext np_exp Hexp).
  eexists. eexists. split; [vm_compute; reflexivity|].
  split; [reflexivity|]. split; [reflexivity|]. split; [reflexivity|].
  split; [reflexivity|]. split; [vm_compute; reflexivity|].
  split; [reflexivity|]. split; [reflexivity|].
  vm_compute. reflexivity.
Qed.

(** The division by zero with the examples' [exp]. *)
Lemma move_atom_divides_by_zero_witness :
  let w := Cube.populated Cube.V_repulsive [0; 3; 7] in
  exists w2,
    _p (self w2) = [nan; nan; nan; nan]
    /\ move_atom Cube.surface Cube.V_repulsive Cube.exp_pts w = Raise ValueError w2.
Proof.
  destruct (move_atom_divides_by_zero Cube.exp_pts exp_like_exp_pts)
    as (w1 & w2 & _ & _ & _ & _ & _ & _ & Hp & _ & Hraise).
  exists w2. split; [exact Hp | exact Hraise].
Defined.

(** C2 as stated fails.  On the loop with every site occupied, site 0 is
    sampled; its encasing ring and its inner surroundings are both fully
    occupied; [move_atom] does not count a blocked move: the particle stays
    put as a move not moved.  The same happens on the one-site lattice, where
    the occupied site is the only one and makes up both of its shells. *)
Lemma move_atom_surrounded_not_blocked :
  (let w := Loop.full in
   occ (self w) !! 0 = Some true
   /\ forallb (fun k => bool_decide (occ (self w) !! k = Some true))
        (take 6 (drop 18 (Loop.row 0))) = true
   /\ forallb (fun k => bool_decide (occ (self w) !! k = Some true))
        (take 18 (Loop.row 0)) = true
   /\ exists w',
       move_atom Loop.surface Cube.V_flat Cube.exp_pts w = Ok tt w'
       /\ _nni (self w') !! 0 = Some 0
       /\ blocked_moves (self w') = blocked_moves (self w)
       /\ not_moved_moves (self w') = (not_moved_moves (self w) + 1)%Z
       /\ occ (self w') = occ (self w))
  /\ (let w := Dot.occupied in
      occ (self w) = [true]
      /\ nni Dot.surface !! 0 = Some (replicate 24 0)
      /\ exists w',
          move_atom Dot.surface Cube.V_flat Cube.exp_pts w = Ok tt w'
          /\ blocked_moves (self w') = blocked_moves (self w)
          /\ not_moved_moves (self w') = (not_moved_moves (self w) + 1)%Z
          /\ occ (self w') = occ (self w)).
Proof.
  split.
  - intros w. split; [reflexivity|]. split; [reflexivity|]. split; [reflexivity|].
    eexists. split; [vm_compute; reflexivity|].
    repeat split; reflexivity.
  - intros w. split; [reflexivity|]. split; [reflexivity|].
    eexists. split; [vm_compute; reflexivity|].
    repeat split; reflexivity.
Qed.

(** C3 as stated fails.  On the loop with every site occupied, [add_atom]
    raises ValueError out of its first draw and prints nothing: no exhausted
    search is reported.  The state is as before. *)
Lemma add_atom_full_lattice_no_report :
  let w := Loop.full in
  np_all (occ (self w)) = true
  /\ add_atom Loop.surface Cube.V_flat w = Raise ValueError w
  /\ stdout (world_of (add_atom Loop.surface Cube.V_flat w)) = [].
Proof. intros w. repeat split; vm_compute; reflexivity. Qed.

(** The full loop. *)
Lemma add_atom_full_lattice_raises_witness :
  add_atom Loop.surface Cube.V_flat Loop.full = Raise ValueError Loop.full.
Proof.
  apply (add_atom_full_lattice_raises Loop.surface Cube.V_flat Loop.full).
  - reflexivity.
  - vm_compute. lia.
  - reflexivity.
Defined.

(** A deposition on the empty cube. *)
Lemma add_atom_success_witness :
  let w := new_world Cube.sim0 Cube.tape0 in
  let w' := world_of (add_atom Cube.surface Cube.V_flat w) in
  exists i row,
    nni Cube.surface !! i = Some row
    /\ occ (self w) !! i = Some false
    /\ occ (self w') = <[i:=true]> (occ (self w))
    /\ count_nonzero (occ (self w')) = S (count_nonzero (occ (self w)))
    /\ forall k, k ∈ take 9 row -> occ (self w) !! k = Some false.
Proof.
  intros w w'.
  apply (add_atom_success Cube.surface Cube.V_flat cube_surface_ok w w').
  - reflexivity.
  - vm_compute. reflexivity.
  - reflexivity.
Defined.

(** On the cube with sites 0 and 1 occupied, candidate 1 of the hop from site
    0 is occupied and weighs zero. *)
Lemma hop_never_selects_occupied_witness :
  let w := Cube.populated Cube.V_repulsive [0; 1] in
  let w1 := world_of (hop_weights Cube.surface Cube.V_repulsive Cube.exp_pts 0
                        (Cube.row 0) w) in
  _occ (self w1) = [false; true; false; false]
  /\ forall k, _occ (self w1) !! k = Some true -> _p (self w1) !! k = Some 0%float.
Proof.
  intros w w1. split; [reflexivity|].
  apply (hop_never_selects_occupied Cube.surface Cube.V_repulsive Cube.exp_pts
           0 (Cube.row 0) w w1).
  - reflexivity.
  - vm_compute. reflexivity.
Defined.

(** On the cube with site 0 occupied every search is exhausted, and a
    particle is added all the same. *)
Lemma add_atom_adds_one_witness :
  let w := Cube.populated Cube.V_flat [0] in
  exists w' i,
    add_atom Cube.surface Cube.V_flat w = Ok tt w'
    /\ occ (self w) !! i = Some false
    /\ occ (self w') = <[i:=true]> (occ (self w))
    /\ count_nonzero (occ (self w')) = S (count_nonzero (occ (self w)))
    /\ (stdout w' = stdout w
        \/ stdout w' = stdout w ++ [TryToAdd (stlen Cube.surface)]).
Proof.
  intros w.
  apply (add_atom_adds_one Cube.surface Cube.V_flat cube_surface_ok w).
  - reflexivity.
  - exists 1. reflexivity.
Defined.

(** The counters after the hop from site 0 to site 4 on the cube. *)
Lemma move_atom_counter_identity_witness :
  let w := Cube.populated Cube.V_repulsive [0; 3] in
  let w' := world_of (move_atom Cube.surface Cube.V_repulsive Cube.exp_pts w) in
  (counters (self w') = (1, 0, 0, 1)
   \/ counters (self w') = (1, 1, 0, 0)
   \/ counters (self w') = (1, 0, 1, 0))%Z
  /\ (attempted_moves (self w')
      = successful_moves (self w') + not_moved_moves (self w') + blocked_moves (self w'))%Z.
Proof.
  intros w w'.
  destruct (move_atom_counter_identity Cube.surface Cube.V_repulsive Cube.exp_pts w w')
    as (Hcases & Hid & _).
  - vm_compute. reflexivity.
  - split; [exact Hcases|]. apply Hid. reflexivity.
Defined.

(** The cube's table is symmetric: [add_atom] keeps the energy invariant on
    it, which [move_atom] breaks. *)
Lemma cube_symmetric : symmetric_table Cube.surface.
Proof.
  intros i k row_i row_k Hi Hk Hin.
  assert (Hib : i < 8) by (apply lookup_lt_Some in Hi; exact Hi).
  assert (Hkb : k < 8) by (apply lookup_lt_Some in Hk; exact Hk).
  apply list_elem_of_In in Hin. apply list_elem_of_In.
  do 8 (destruct i as [|i]; [
    do 8 (destruct k as [|k]; [
      vm_compute in Hi, Hk; injection Hi as <-; injection Hk as <-;
      vm_compute in Hin; vm_compute; tauto |]); lia |]).
  lia.
Qed.

(** * Further properties of the engine *)

Section Coverage.

Variable surface : Surface.
Variable V : nat -> list bool -> float.
Variable np_exp : float -> float.

(** ** Energy bookkeeping *)

Lemma energies_only_refl w : energies_only w w.
Proof using Type.
  exists (energies (self w)), (energy (self w)). by destruct w as [[] ? ? ?].
Qed.

Lemma energies_only_trans w1 w2 w3 :
  energies_only w1 w2 -> energies_only w2 w3 -> energies_only w1 w3.
Proof using Type.
  intros (es & e & -> & H1) (es' & e' & -> & H1').
  exists es', e'. destruct w1 as [[] ? ? ?]. simpl in *. split; [reflexivity | congruence].
Qed.

Lemma update_energy_energies_only idx :
  always energies_only (update_energy surface V idx).
Proof using Type.
  pose proof energies_only_refl as Hr. pose proof energies_only_trans as Ht.
  unfold update_energy.
  apply (always_bind _ Ht); [apply (always_read _ Hr)|]. intros o.
  apply (always_bind _ Ht).
  { apply (always_assign _ Hr). intros w s' H.
    apply bind_Some in H as (es & H & [= <-]).
    exists es, (energy (self w)). split; [by destruct w as [[] ? ? ?]|].
    eapply set_all_length, H. }
  intros _. apply (always_bind _ Ht).
  { apply (always_for_each _ Hr Ht). intros i.
    apply (always_bind _ Ht).
    - intros w. rewrite <- (get_energy_pure surface V i w). apply Hr.
    - intros e. apply (always_assign _ Hr). intros w s' H.
      apply bind_Some in H as (es & H & [= <-]).
      apply set_at_Some in H as [_ ->].
      exists (<[i:=e]> (energies (self w))), (energy (self w)).
      split; [by destruct w as [[] ? ? ?] | apply length_insert]. }
  intros _. apply always_modify. intros w.
  exists (energies (self w)), (np_sum (energies (self w))).
  split; [by destruct w as [[] ? ? ?] | reflexivity].
Qed.

(** X1.  Whatever [update_energy(indices)] does, returned or raised, it
    writes to [energies] and [energy] only and keeps the length of
    [energies]: the occupancy, the snapshot buffers, the counters, the caches,
    the random source and the output are as before. *)
Theorem update_energy_writes_energies_only idx w :
  let w' := world_of (update_energy surface V idx w) in
  length (energies (self w')) = length (energies (self w))
  /\ set_energy (energy (self w)) (set_energies (energies (self w)) (self w'))
     = self w
  /\ rng_tape w' = rng_tape w /\ rng_pos w' = rng_pos w /\ stdout w' = stdout w.
Proof using Type.
  intros w'. destruct (update_energy_energies_only idx w) as (es & e & Hw & Hl).
  fold w' in Hw. rewrite Hw. sim_simpl. repeat split; auto.
  by destruct w as [[] ? ? ?].
Qed.

(** X2.  A returning [update_energy(indices)] leaves [energy] the sum of
    [energies]; at a site of [indices] the energy is zero if the site is
    unoccupied and what the potential gives on the occupancy of the site's
    neighbour row if it is occupied; at any other site it is as before. *)
Theorem update_energy_recomputes idx w w' :
  update_energy surface V idx w = Ok tt w' ->
  energy (self w') = np_sum (energies (self w'))
  /\ forall k,
       (k ∈ idx -> occ (self w) !! k = Some false ->
        energies (self w') !! k = Some 0%float)
       /\ (k ∈ idx -> occ (self w) !! k = Some true ->
           exists row o, nni surface !! k = Some row
                         /\ take_idx (occ (self w)) row = Some o
                         /\ energies (self w') !! k = Some (V k o))
       /\ (k ∉ idx -> energies (self w') !! k = energies (self w) !! k).
Proof using Type.
  intros H. apply update_energy_Ok_energies in H as (_ & Hsum & Hen).
  split; [exact Hsum|]. intros k. destruct (Hen k) as (Hz & Hp & Hr).
  repeat split; auto.
  intros Hk Ho. destruct (Hp Hk Ho) as (e & He & ->).
  apply potential_at_Some in He as (row & ob & ? & ? & ->). eauto.
Qed.

(** X4.  With an index that is not below the length of [occ],
    [update_energy] raises IndexError and changes nothing. *)
Theorem update_energy_out_of_range idx w k :
  k ∈ idx -> length (occ (self w)) <= k ->
  update_energy surface V idx w = Raise IndexError w.
Proof using Type.
  intros Hk Hlen. unfold update_energy, bind at 1, read.
  replace (take_idx (occ (self w)) idx) with (@None (list bool)); [reflexivity|].
  symmetry. apply mapM_None_2, Exists_exists. exists k. split; [exact Hk|].
  by apply lookup_ge_None.
Qed.

Lemma set_all_in_range {A} (idx : list nat) : forall (a : list A) v a',
  set_all a idx v = Some a' -> Forall (fun i => i < length a) idx.
Proof using Type.
  induction idx as [|i idx IH]; intros a v a' H; [constructor|].
  simpl in H. destruct (set_at a i v) as [a1|] eqn:E; [|discriminate].
  apply set_at_Some in E as [Hi ->]. constructor; [exact Hi|].
  apply IH in H. by rewrite length_insert in H.
Qed.

Lemma update_energy_loop_total xs : forall w,
  Forall (fun k => is_Some (potential_at surface V (occ (self w)) k)
                   /\ k < length (energies (self w))) xs ->
  exists w',
    for_each xs (fun i =>
      e <- get_energy surface V i ;;
      assign IndexError (fun s =>
        es ← set_at (energies s) i e; Some (set_energies es s))) w = Ok tt w'.
Proof using Type.
  intros w Hxs.
  destruct (for_each_total
              (fun w1 => occ (self w1) = occ (self w)
                         /\ length (energies (self w1)) = length (energies (self w)))
              (fun k => is_Some (potential_at surface V (occ (self w)) k)
                        /\ k < length (energies (self w)))
              xs
              (fun i => e <- get_energy surface V i ;;
                 assign IndexError (fun s =>
                   es ← set_at (energies s) i e; Some (set_energies es s)))
              Hxs) with (w := w) as (w' & E & _); [| auto | eauto].
  intros x w1 [[e He] Hx] [Ho Hl].
  assert (Hg : get_energy surface V x w1 = Ok e w1).
  { unfold potential_at in He. rewrite <- Ho in He.
    apply bind_Some in He as (row & Hrow & He).
    apply bind_Some in He as (ob & Hob & [= <-]).
    unfold get_energy, bind, index_or_raise, read. rewrite Hrow. simpl.
    by rewrite Hob. }
  rewrite (bind_step _ _ _ _ _ Hg). unfold assign.
  rewrite set_at_total by lia. simpl. eexists. split; [reflexivity|].
  sim_simpl. rewrite length_insert. auto.
Qed.

(** X3.  [update_energy] is idempotent: a second call with the same indices,
    right after one that returned, returns and changes nothing. *)
Theorem update_energy_idempotent idx w w1 :
  update_energy surface V idx w = Ok tt w1 ->
  update_energy surface V idx w1 = Ok tt w1.
Proof using Type.
  intros H.
  pose proof (update_energy_Ok_energies _ _ _ _ _ _ H) as (Hocc & Hsum & Hen).
  assert (Hagain : exists w2, update_energy surface V idx w1 = Ok tt w2).
  { pose proof (always_Ok _ _ _ _ _ (update_energy_energies_only idx) H)
      as (es1 & e1 & Hw1 & Hl1).
    unfold update_energy in H |- *.
    step_in H as o Ho.
    step_in H as u0 Hz. apply bind_Some in Hz as (es0 & Hz & [= <-]).
    apply bind_Ok in H as ([] & wl & Hloop & H).
    apply update_energy_loop_Ok in Hloop as (es & -> & Hes). sim_simpl in Hes.
    apply modify_Ok in H.
    assert (Hlen1 : length (energies (self w1)) = length (energies (self w))).
    { rewrite Hw1. sim_simpl. exact Hl1. }
    erewrite bind_step; [|unfold read; rewrite Hocc, Ho; reflexivity].
    destruct (set_all_total (mask_filter idx (np_logical_not o))
                (energies (self w1)) 0%float) as [es0' Hz'].
    { rewrite Hlen1. eapply set_all_in_range, Hz. }
    erewrite bind_step; [|unfold assign; rewrite Hz'; reflexivity].
    destruct (update_energy_loop_total (mask_filter idx o)
                (set_self (set_energies es0' (self w1)) w1)) as [w2 E2].
    { apply Forall_forall. intros k Hk. sim_simpl. rewrite Hocc.
      apply (mask_filter_take_idx _ _ _ k true Ho) in Hk as [Hk Hkt].
      destruct (Hen k) as (_ & Hp & _). destruct (Hp Hk Hkt) as (e & He & Hek).
      split; [eauto|].
      apply set_all_length in Hz'. rewrite Hz'.
      by apply lookup_lt_Some in Hek. }
    rewrite (bind_step _ _ _ _ _ E2). eexists. reflexivity. }
  destruct Hagain as [w2 H2]. rewrite H2. f_equal.
  pose proof (update_energy_Ok_energies _ _ _ _ _ _ H2) as (Hocc2 & Hsum2 & Hen2).
  pose proof (always_Ok _ _ _ _ _ (update_energy_energies_only idx) H2)
    as (es2 & e2 & Hw2 & Hl2).
  assert (Hes : energies (self w2) = energies (self w1)).
  { apply list_eq. intros k.
    destruct (Hen k) as (Hz & Hp & Hr). destruct (Hen2 k) as (Hz2 & Hp2 & Hr2).
    rewrite Hocc in Hz2, Hp2.
    destruct (decide (k ∈ idx)) as [Hk|Hk]; [|by apply Hr2].
    destruct (occ (self w) !! k) as [[]|] eqn:Ho.
    - destruct (Hp Hk eq_refl) as (e & He & ->).
      destruct (Hp2 Hk eq_refl) as (e' & He' & ->).
      congruence.
    - rewrite (Hz Hk eq_refl). by apply Hz2.
    - exfalso. unfold update_energy in H. step_in H as o Ho'.
      apply (take_idx_in_range _ _ _ k Ho') in Hk.
      apply lookup_ge_None in Ho. lia. }
  rewrite Hw2 in Hes, Hsum2 |- *. sim_simpl in Hes. sim_simpl in Hsum2.
  subst es2 e2. rewrite <- Hsum.
  by destruct w1 as [[] ? ? ?].
Qed.

Lemma copy_at_lookup {A} (idx : list nat) : forall (a b a' : list A),
  copy_at a b idx = Some a' ->
  forall k, (k ∈ idx -> a' !! k = b !! k /\ is_Some (b !! k) /\ k < length a)
            /\ (k ∉ idx -> a' !! k = a !! k).
Proof using Type.
  induction idx as [|i idx IH]; simpl; intros a b a' H k.
  - injection H as <-. split; [intros Hk; by apply elem_of_nil in Hk | done].
  - destruct (b !! i) as [v|] eqn:Hb; [|discriminate].
    destruct (set_at a i v) as [a1|] eqn:E; [|discriminate].
    apply set_at_Some in E as [Hi ->].
    destruct (IH _ _ _ H k) as [Hin Hout]. rewrite length_insert in Hin.
    split.
    + intros Hk. destruct (decide (k ∈ idx)) as [Hk'|Hk']; [by apply Hin|].
      apply elem_of_cons in Hk as [->|Hk]; [|done].
      rewrite (Hout Hk'), list_lookup_insert_eq by exact Hi.
      rewrite Hb. eauto.
    + intros Hk. apply not_elem_of_cons in Hk as [Hne Hk].
      rewrite (Hout Hk). by apply list_lookup_insert_ne.
Qed.

Lemma copy_at_is_Some {A} (idx : list nat) : forall (a b : list A),
  Forall (fun i => is_Some (b !! i) /\ i < length a) idx -> is_Some (copy_at a b idx).
Proof using Type.
  induction idx as [|i idx IH]; simpl; intros a b H; [eauto|].
  inversion H as [|? ? [[v Hv] Hi] Hrest]; subst. rewrite Hv.
  rewrite set_at_total by exact Hi. apply IH.
  eapply Forall_impl; [exact Hrest|]. intros j [? ?]. by rewrite length_insert.
Qed.

(** What [keep_modification(idx)] has stored, [reverse_modification(idx)]
    puts back into an array that differs from the stored one at [idx] only. *)
Lemma copy_at_restore {A} (idx : list nat) (p p' a b : list A) :
  copy_at p a idx = Some p' ->
  length b = length a ->
  (forall k, k ∉ idx -> b !! k = a !! k) ->
  copy_at b p' idx = Some a.
Proof using Type.
  intros Hc Hl Hout.
  pose proof (copy_at_lookup _ _ _ _ Hc) as Hp.
  destruct (copy_at_is_Some idx b p') as [b' Hb'].
  { apply Forall_forall. intros i Hi. destruct (Hp i) as [Hin _].
    destruct (Hin Hi) as (-> & Hs & _). split; [exact Hs|].
    destruct Hs as [v Hv]. apply lookup_lt_Some in Hv. lia. }
  rewrite Hb'. f_equal. apply list_eq. intros k.
  destruct (copy_at_lookup _ _ _ _ Hb' k) as [Hin' Hout'].
  destruct (decide (k ∈ idx)) as [Hk|Hk].
  - destruct (Hin' Hk) as (-> & _). destruct (Hp k) as [Hin _].
    by destruct (Hin Hk) as (-> & _).
  - rewrite (Hout' Hk). by apply Hout.
Qed.

(** X5.  [reverse_modification(idx)] undoes what was done at [idx] since
    [keep_modification(idx)]: with the occupancy and the energies changed at
    indices of [idx] only, it returns and puts back the occupancy, the
    energies and the total energy of the moment of the [keep_modification]. *)
Theorem reverse_modification_restores idx w w1 s' :
  keep_modification idx w = Ok tt w1 ->
  previous_energies s' = previous_energies (self w1) ->
  previous_energy s' = previous_energy (self w1) ->
  previous_occ s' = previous_occ (self w1) ->
  length (occ s') = length (occ (self w)) ->
  length (energies s') = length (energies (self w)) ->
  (forall k, k ∉ idx -> occ s' !! k = occ (self w) !! k
                        /\ energies s' !! k = energies (self w) !! k) ->
  reverse_modification idx (set_self s' w1)
  = Ok tt (set_self (set_occ (occ (self w))
                       (set_energy (energy (self w))
                          (set_energies (energies (self w)) s'))) w1).
Proof using Type.
  intros H Hpe Hpen Hpo Hlo Hle Hout.
  unfold keep_modification in H.
  step_in H as u0 H0. apply bind_Some in H0 as (pe & Hcpe & [= <-]).
  step_in H as u1 H1.
  apply assign_Ok in H as (s2 & Hs2 & ->).
  apply bind_Some in Hs2 as (po & Hcpo & [= <-]).
  sim_simpl in Hcpo. sim_simpl in Hpe. sim_simpl in Hpen. sim_simpl in Hpo.
  unfold reverse_modification.
  erewrite bind_step; cycle 1.
  { unfold assign. sim_simpl. rewrite Hpe.
    rewrite (copy_at_restore idx _ _ _ _ Hcpe Hle (fun k Hk => proj2 (Hout k Hk))).
    reflexivity. }
  erewrite bind_step; cycle 1.
  { unfold modify. reflexivity. }
  unfold assign. sim_simpl. rewrite Hpo.
  rewrite (copy_at_restore idx _ _ _ _ Hcpo Hlo (fun k Hk => proj1 (Hout k Hk))).
  simpl. sim_simpl. rewrite Hpen. reflexivity.
Qed.

(** *** [prepopulate] *)

(** Sampling without replacement returns as many entries as asked, taken at
    distinct positions of the pool, and touches the random tape only. *)
Lemma sample_without_replacement_Ok k : forall pool w,
  k <= length pool ->
  exists ys pos,
    sample_without_replacement k pool w
    = Ok ys (mkWorld (self w) (rng_tape w) pos (stdout w))
    /\ length ys = k /\ ys ⊆+ pool.
Proof using Type.
  induction k as [|k IH]; intros pool w Hk; simpl.
  - exists [], (rng_pos w). destruct w. repeat split. apply submseteq_nil_l.
  - destruct pool as [|x pool]; [simpl in Hk; lia|].
    set (l := x :: pool) in *.
    unfold bind at 1, draw at 1.
    set (j := rng_tape w (rng_pos w) mod length l).
    assert (Hj : j < length l) by (apply Nat.mod_upper_bound; subst l; simpl; lia).
    destruct (lookup_lt_is_Some_2 l j Hj) as [y Hy].
    destruct (IH (delete j l)
                (mkWorld (self w) (rng_tape w) (S (rng_pos w)) (stdout w)))
      as (ys & pos & E & Hlen & Hsub).
    { rewrite length_delete by eauto. lia. }
    cbn [self rng_tape rng_pos stdout] in E.
    unfold bind. rewrite E. unfold ret.
    exists (nth j l x :: ys), pos. split; [reflexivity|].
    split; [simpl; lia|].
    rewrite (nth_lookup_Some _ _ _ _ Hy).
    rewrite (delete_Permutation l j y Hy). by apply submseteq_skip.
Qed.

Lemma count_nonzero_set_all (c : list nat) : forall o o',
  NoDup c -> (forall k, k ∈ c -> o !! k = Some false) ->
  set_all o c true = Some o' ->
  count_nonzero o' = count_nonzero o + length c.
Proof using Type.
  induction c as [|i c IH]; intros o o' Hnd Hfree H; simpl in H.
  - injection H as <-. simpl. lia.
  - destruct (set_at o i true) as [o1|] eqn:E; [|discriminate].
    apply set_at_Some in E as [Hi ->].
    apply NoDup_cons in Hnd as [Hni Hnd].
    rewrite (IH (<[i:=true]> o) o' Hnd); [| |exact H].
    + rewrite count_nonzero_insert_true by (apply Hfree; left). simpl. lia.
    + intros k Hk. rewrite list_lookup_insert_ne by (intros ->; done).
      apply Hfree. by right.
Qed.

Lemma count_nonzero_0 (o : list bool) :
  count_nonzero o = 0 -> forall k, k < length o -> o !! k = Some false.
Proof using Type.
  induction o as [|[] o IH]; simpl; intros H k Hk; [lia|lia|].
  destruct k as [|k]; [reflexivity|]. simpl. apply IH; lia.
Qed.

(** [a[all] = b[all]] makes [a] a copy of [b]. *)
Lemma copy_at_all {A} n (a b a' : list A) :
  length a = n -> length b = n ->
  copy_at a b (seq 0 n) = Some a' -> a' = b.
Proof using Type.
  intros Ha Hb H. apply list_eq. intros k.
  destruct (copy_at_lookup _ _ _ _ H k) as [Hin _].
  destruct (decide (k < n)) as [Hk|Hk].
  - apply Hin, elem_of_seq. lia.
  - apply copy_at_length in H.
    rewrite (proj2 (lookup_ge_None a' k)), (proj2 (lookup_ge_None b k)) by lia.
    reflexivity.
Qed.

(** With every index, [keep_modification] makes the snapshot a copy of the
    current state. *)
Lemma keep_modification_all w u w' :
  keep_modification (seq 0 (stlen surface)) w = Ok u w' ->
  well_formed surface (self w) = true ->
  w' = set_self (set_previous_occ (occ (self w))
         (set_previous_energy (energy (self w))
            (set_previous_energies (energies (self w)) (self w)))) w.
Proof using Type.
  intros H Hwf. apply well_formed_lengths in Hwf as (Ho & Hpo & He & Hpe & _).
  unfold keep_modification in H.
  step_in H as u0 H0. apply bind_Some in H0 as (pe & Hcpe & [= <-]).
  step_in H as u1 H1.
  apply assign_Ok in H as (s2 & Hs2 & ->).
  apply bind_Some in Hs2 as (po & Hcpo & [= <-]).
  sim_simpl in Hcpo.
  apply copy_at_all in Hcpe; [|done..]. apply copy_at_all in Hcpo; [|done..].
  subst. by sim_simpl.
Qed.

Hypothesis surface_ok : well_formed_surface surface = true.

(** What [prepopulate] and [prepopulate_split] do once the sites [c] are
    chosen. *)
Lemma prepopulate_with_returns c w :
  well_formed surface (self w) = true ->
  Forall (fun k => k < stlen surface) c ->
  exists w' o,
    prepopulate_with surface V c w = Ok tt w'
    /\ set_all (occ (self w)) c true = Some o
    /\ occ (self w') = o
    /\ add_prepopulated (self w') = Z.of_nat (length c)
    /\ energy_consistent surface V (self w')
    /\ previous_occ (self w') = occ (self w')
    /\ previous_energies (self w') = energies (self w')
    /\ previous_energy (self w') = energy (self w')
    /\ well_formed surface (self w') = true
    /\ counters (self w') = counters (self w)
    /\ config (self w') = config (self w)
    /\ total_steps (self w') = total_steps (self w)
    /\ move_accepted (self w') = move_accepted (self w).
Proof using surface_ok.
  intros Hwf Hc.
  pose proof (well_formed_lengths _ _ Hwf) as (Ho & Hpo & He & Hpe & _).
  destruct (set_all_total c (occ (self w)) true) as [o Hset]; [by rewrite Ho|].
  pose proof (set_all_length _ _ _ _ Hset) as Hlo.
  set (w1 := set_self (set_occ o (set_add_prepopulated (Z.of_nat (length c)) (self w))) w).
  assert (Hall : Forall (fun i => i < stlen surface) (seq 0 (stlen surface))).
  { apply Forall_forall. intros i Hi. apply elem_of_seq in Hi. lia. }
  assert (Hwf1 : well_formed surface (self w1) = true).
  { apply (same_shape_well_formed _ surface_ok (self w)); [|exact Hwf].
    subst w1. unfold same_shape. sim_simpl. rewrite Hlo. auto 10. }
  destruct (update_energy_total surface V surface_ok (seq 0 (stlen surface)) w1)
    as [w2 Hupd]; [subst w1; sim_simpl; lia | subst w1; by sim_simpl | exact Hall |].
  pose proof (update_energy_Ok _ _ _ _ _ _ Hupd) as B2.
  assert (Hwf2 : well_formed surface (self w2) = true).
  { eapply (same_shape_well_formed _ surface_ok); [|exact Hwf1]. by apply bookkeeping_only_shape. }
  pose proof (well_formed_lengths _ _ Hwf2) as (Ho2 & Hpo2 & He2 & Hpe2 & _).
  destruct (keep_modification_total surface (seq 0 (stlen surface)) w2)
    as [w3 Hkeep]; [done..|].
  assert (Hrun : prepopulate_with surface V c w = Ok tt w3).
  { unfold prepopulate_with.
    erewrite bind_step; [|unfold modify; reflexivity].
    erewrite bind_step; [|unfold assign; sim_simpl; rewrite Hset; reflexivity].
    fold w1. rewrite (bind_step _ _ _ _ _ Hupd). exact Hkeep. }
  exists w3, o. split; [exact Hrun|]. split; [exact Hset|].
  pose proof (prepopulate_with_consistent _ _ _ _ _ _ Ho Hrun) as Hcons.
  pose proof (keep_modification_all _ _ _ Hkeep Hwf2) as ->.
  pose proof (bookkeeping_only_frame _ _ B2) as (Hocc2 & Hcnt2 & _).
  pose proof (bookkeeping_only_config _ _ B2) as Hcfg2.
  destruct B2 as (es & e & pes & pe & po & Hw2 & _).
  sim_simpl. sim_simpl in Hcons.
  split; [by rewrite Hocc2|]. split; [by rewrite Hw2|].
  split; [exact Hcons|]. do 3 (split; [reflexivity|]).
  split.
  { eapply (same_shape_well_formed _ surface_ok); [|exact Hwf2].
    unfold same_shape. sim_simpl. repeat split; congruence. }
  split; [exact Hcnt2|]. split; [exact Hcfg2|].
  rewrite Hw2. subst w1. by sim_simpl.
Qed.

(** The occupancy after [self.occ[c] = True] with distinct sites [c]. *)
Lemma set_all_true_occupancy (c : list nat) (o o' : list bool) :
  set_all o c true = Some o' ->
  (forall k, o' !! k = Some true <-> k ∈ c \/ o !! k = Some true)
  /\ (NoDup c -> count_nonzero o = 0 -> count_nonzero o' = length c).
Proof using Type.
  intros Hset. split.
  - intros k. rewrite (set_all_lookup _ _ _ _ k Hset).
    case_bool_decide as Hk; split; auto. intros [?|?]; [done|assumption].
  - intros Hnd H0. rewrite (count_nonzero_set_all c o o' Hnd); [lia| |exact Hset].
    intros k Hk. apply count_nonzero_0; [exact H0|].
    apply set_all_in_range in Hset. rewrite Forall_forall in Hset. auto.
Qed.

(** The energy invariant and unchanged move counters give what the lap
    driver keeps. *)
Lemma setup_lap_invariant s s' :
  well_formed surface s' = true ->
  counters s' = counters s ->
  move_accepted s' = move_accepted s ->
  energy_consistent surface V s' ->
  counter_identity s -> accepted_identity s ->
  lap_invariant surface s'.
Proof using Type.
  clear surface_ok.
  intros Hwf Hc Hm [Hsum Hcons] Hci Hai.
  unfold lap_invariant, counter_identity, accepted_identity, counters in *.
  injection Hc as -> -> -> ->. rewrite Hm.
  repeat split; try assumption. intros k Hk. by apply (Hcons k).
Qed.

(** X6.  On a well-formed state, [prepopulate] with a sample size between 0
    and the number of sites returns.  It has chosen that many distinct sites
    [c]; the occupied sites are then those of [c] and those occupied before,
    [add_prepopulated] is the sample size (the number of particles too, if
    the lattice was empty), the energy invariant holds whatever the energies
    were, and the snapshot is a copy of the current state.  The move counters
    being untouched, the state is one the lap driver can start from. *)
Theorem prepopulate_returns size w :
  well_formed surface (self w) = true ->
  (0 <= size <= Z.of_nat (stlen surface))%Z ->
  exists c w',
    prepopulate surface V size w = Ok tt w'
    /\ NoDup c /\ length c = Z.to_nat size
    /\ (forall k, occ (self w') !! k = Some true
                  <-> k ∈ c \/ occ (self w) !! k = Some true)
    /\ add_prepopulated (self w') = size
    /\ (atoms_on_surface (self w) = 0 -> atoms_on_surface (self w') = Z.to_nat size)
    /\ energy_consistent surface V (self w')
    /\ previous_occ (self w') = occ (self w')
    /\ previous_energies (self w') = energies (self w')
    /\ previous_energy (self w') = energy (self w')
    /\ (counter_identity (self w) -> accepted_identity (self w) ->
        lap_invariant surface (self w')).
Proof using surface_ok.
  intros Hwf Hsize.
  destruct (sample_without_replacement_Ok (Z.to_nat size) (seq 0 (stlen surface)) w)
    as (c & pos & Hc & Hlen & Hsub); [rewrite length_seq; lia|].
  assert (Hnd : NoDup c).
  { destruct (submseteq_Permutation _ _ Hsub) as [rest Hperm].
    pose proof (NoDup_seq 0 (stlen surface)) as Hall.
    rewrite Hperm in Hall. by apply NoDup_app in Hall as [? _]. }
  assert (Hrange : Forall (fun k => k < stlen surface) c).
  { apply Forall_forall. intros k Hk.
    eapply elem_of_submseteq in Hk; [|exact Hsub]. apply elem_of_seq in Hk. lia. }
  destruct (prepopulate_with_returns c
              (mkWorld (self w) (rng_tape w) pos (stdout w)) Hwf Hrange)
    as (w' & o & Hrun & Hset & Hocc & Hadd & Hcons & Hpo & Hpe & Hpen & Hwf'
        & Hcnt & _ & _ & Hma).
  sim_simpl in Hset.
  destruct (set_all_true_occupancy _ _ _ Hset) as [Hiff Hcount].
  exists c, w'. split.
  { unfold prepopulate, random_choice_without_replacement.
    rewrite length_seq.
    destruct (Z.ltb_spec size 0) as [?|_]; [lia|].
    destruct (Z.ltb_spec (Z.of_nat (stlen surface)) size) as [?|_]; [lia|].
    rewrite (bind_step _ _ _ _ _ Hc). exact Hrun. }
  split; [exact Hnd|]. split; [exact Hlen|].
  split; [by rewrite Hocc|].
  split; [rewrite Hadd, Hlen; lia|].
  split; [unfold atoms_on_surface; rewrite Hocc, <- Hlen; by apply Hcount|].
  do 4 (split; [assumption|]).
  by apply setup_lap_invariant.
Qed.

(** X7.  With a negative sample size or one above the number of sites,
    [prepopulate] raises ValueError before it has written anything or drawn
    from the generator. *)
Theorem prepopulate_bad_size size w :
  (size < 0 \/ Z.of_nat (stlen surface) < size)%Z ->
  prepopulate surface V size w = Raise ValueError w.
Proof using Type.
  intros Hsize. unfold prepopulate, random_choice_without_replacement.
  rewrite length_seq.
  destruct (Z.ltb_spec size 0) as [?|?]; [reflexivity|].
  destruct (Z.ltb_spec (Z.of_nat (stlen surface)) size) as [?|?]; [reflexivity|lia].
Qed.

(** *** [prepopulate_split] *)

Variable groups : Groups.

(** [idx[f(a[idx])]] holds the entries of [idx] whose value in [a]
    satisfies [f]. *)
Lemma mask_filter_map_take_idx {A} (a : list A) (f : A -> bool) idx : forall xs k,
  take_idx a idx = Some xs ->
  k ∈ mask_filter idx (map f xs)
  <-> k ∈ idx /\ exists x, a !! k = Some x /\ f x = true.
Proof using Type.
  clear surface_ok.
  induction idx as [|i idx IH]; intros xs k H.
  - injection H as <-. simpl. split; [intros Hk|intros [Hk _]]; by apply elem_of_nil in Hk.
  - apply take_idx_cons in H as (b & xs' & Hb & Hxs' & ->).
    specialize (IH xs' k Hxs'). cbn [map mask_filter].
    destruct (f b) eqn:Hf.
    + rewrite !elem_of_cons, IH. split.
      * intros [->|[Hk Hx]]; [eauto|]. auto.
      * intros [[->|Hk] Hx]; [by left | right; auto].
    + rewrite IH, elem_of_cons. split.
      * intros [Hk Hx]. auto.
      * intros [[->|Hk] (x & Hx & Hfx)]; [congruence | eauto].
Qed.

Lemma np_union1d_spec (a b : list nat) :
  NoDup (np_union1d a b)
  /\ Sorted Nat.le (np_union1d a b)
  /\ forall k, k ∈ np_union1d a b <-> k ∈ a \/ k ∈ b.
Proof using Type.
  unfold np_union1d. split; [|split].
  - rewrite merge_sort_Permutation. apply NoDup_remove_dups.
  - apply (Sorted_merge_sort Nat.le).
  - intros k. rewrite merge_sort_Permutation, elem_of_remove_dups.
    apply elem_of_app.
Qed.

(** X8.  Where the two site types exist and hold sites of the lattice,
    [prepopulate_split] returns without a draw from the generator.  The
    sites [c] it has filled are those of the first type left of [-gap/2] and
    those of the second type right of [gap/2], each once and in increasing
    order; [add_prepopulated] is their number, the sites occupied before
    stay occupied, and the energy invariant holds afterwards.  The move
    counters being untouched, the state is one the lap driver can start
    from. *)
Theorem prepopulate_split_returns i j gap w s1 s2 idx1 idx2 :
  well_formed surface (self w) = true ->
  sites groups !! i = Some s1 -> sites groups !! j = Some s2 ->
  stidx groups !! i = Some idx1 -> stidx groups !! j = Some idx2 ->
  length (stx groups) = stlen surface ->
  Forall (fun k => k < stlen surface) idx1 ->
  Forall (fun k => k < stlen surface) idx2 ->
  exists c w',
    prepopulate_split surface groups V i j gap w = Ok tt w'
    /\ (forall k, k ∈ c <->
          (k ∈ idx1 /\ exists x, stx groups !! k = Some x /\ (x <? - gap / 2)%float = true)
          \/ (k ∈ idx2 /\ exists x, stx groups !! k = Some x /\ (gap / 2 <? x)%float = true))
    /\ NoDup c /\ Sorted Nat.le c
    /\ add_prepopulated (self w') = Z.of_nat (length c)
    /\ (forall k, occ (self w') !! k = Some true
                  <-> k ∈ c \/ occ (self w) !! k = Some true)
    /\ (atoms_on_surface (self w) = 0 -> atoms_on_surface (self w') = length c)
    /\ energy_consistent surface V (self w')
    /\ rng_pos w' = rng_pos w
    /\ (counter_identity (self w) -> accepted_identity (self w) ->
        lap_invariant surface (self w')).
Proof using surface_ok.
  intros Hwf Hs1 Hs2 Hi1 Hi2 Hx H1 H2.
  destruct (take_idx_total (stx groups) idx1) as [x1 Hx1]; [by rewrite Hx|].
  destruct (take_idx_total (stx groups) idx2) as [x2 Hx2]; [by rewrite Hx|].
  set (low := mask_filter idx1 (map (fun x => (x <? - gap / 2)%float) x1)).
  set (high := mask_filter idx2 (map (fun x => (gap / 2 <? x)%float) x2)).
  destruct (np_union1d_spec low high) as (Hnd & Hsorted & Hin).
  assert (Hrange : Forall (fun k => k < stlen surface) (np_union1d low high)).
  { apply Forall_forall. intros k Hk. apply Hin in Hk.
    destruct Hk as [Hk|Hk]; apply mask_filter_elem_of in Hk.
    - rewrite Forall_forall in H1. auto.
    - rewrite Forall_forall in H2. auto. }
  destruct (prepopulate_with_returns (np_union1d low high) w Hwf Hrange)
    as (w' & o & Hrun & Hset & Hocc & Hadd & Hcons & _ & _ & _ & Hwf'
        & Hcnt & _ & _ & Hma).
  destruct (set_all_true_occupancy _ _ _ Hset) as [Hiff Hcount].
  exists (np_union1d low high), w'. split.
  { assert (Hlow : mask_select idx1 (map (fun x => (x <? - gap / 2)%float) x1) = Some low).
    { unfold mask_select.
      by rewrite length_map, (take_idx_length _ _ _ Hx1), Nat.eqb_refl. }
    assert (Hhigh : mask_select idx2 (map (fun x => (gap / 2 <? x)%float) x2) = Some high).
    { unfold mask_select.
      by rewrite length_map, (take_idx_length _ _ _ Hx2), Nat.eqb_refl. }
    unfold prepopulate_split, bind, index_or_raise, ret.
    rewrite Hs1, Hs2, Hi1, Hi2. cbn beta iota.
    rewrite Hx1. cbn beta iota. rewrite Hlow. cbn beta iota.
    rewrite Hx2. cbn beta iota. rewrite Hhigh. cbn beta iota.
    exact Hrun. }
  split.
  { intros k. rewrite Hin. subst low high.
    by rewrite (mask_filter_map_take_idx _ _ _ _ k Hx1),
               (mask_filter_map_take_idx _ _ _ _ k Hx2). }
  split; [exact Hnd|]. split; [exact Hsorted|]. split; [exact Hadd|].
  split; [by rewrite Hocc|].
  split; [unfold atoms_on_surface; rewrite Hocc; by apply Hcount|].
  split; [exact Hcons|].
  split; [|by apply setup_lap_invariant].
  unfold prepopulate_with in Hrun.
  step_in Hrun as u0 Hu0. step_in Hrun as u1 Hu1.
  apply bind_Ok in Hrun as ([] & w2 & Hupd & Hkeep).
  apply update_energy_Ok, bookkeeping_only_frame in Hupd as (_ & _ & _ & Hp2 & _).
  apply keep_modification_Ok, bookkeeping_only_frame in Hkeep as (_ & _ & _ & Hp3 & _).
  rewrite Hp3, Hp2. reflexivity.
Qed.

(** *** [accept] *)

(** X9.  [accept] only reads the simulation: whatever its outcome, the
    object, the output and the random tape are as before.  When the energy
    has dropped since the snapshot it returns True without a draw from the
    generator; otherwise it draws once.  If it raises, the exception is
    ZeroDivisionError, the energy has not dropped and the temperature is
    zero.  (Whether it raises at temperature zero depends on the type of the
    temperature, which only a Python number makes [boltzmann_T] raise on;
    nothing is stated about that.) *)
Theorem accept_reads_only w :
  let dE := (energy (self w) - previous_energy (self w))%float in
  let o := accept np_exp w in
  self (world_of o) = self w
  /\ rng_tape (world_of o) = rng_tape w
  /\ stdout (world_of o) = stdout w
  /\ rng_pos (world_of o) = (if (dE <? 0)%float then rng_pos w else S (rng_pos w))
  /\ ((dE <? 0)%float = true -> o = Ok true w)
  /\ (forall e w', o = Raise e w' ->
        e = ZeroDivisionError /\ (dE <? 0)%float = false
        /\ (temperature (self w) =? 0)%float = true).
Proof using Type.
  intros dE o.
  set (w1 := mkWorld (self w) (rng_tape w) (S (rng_pos w)) (stdout w)).
  assert (Hacc : exists b,
    o = if (dE <? 0)%float then Ok true w
        else if (temperature (self w) =? 0)%float then Raise ZeroDivisionError w1
        else Ok b w1).
  { subst o dE w1.
    unfold accept, random_uniform, boltzmann_T, bind, draw, get_self, ret, raise.
    cbn [self rng_tape rng_pos stdout].
    destruct (_ <? 0)%float; [by exists true|].
    destruct (_ =? 0)%float; [by exists true|]. eexists. reflexivity. }
  destruct Hacc as [b ->].
  destruct (dE <? 0)%float, (temperature (self w) =? 0)%float; subst w1;
    cbn [world_of self rng_tape rng_pos stdout];
    repeat split; try discriminate; eauto.
  match goal with H : Raise _ _ = Raise _ _ |- _ => by injection H as <- _ end.
Qed.

(** *** The counters *)

(** Closes [ledger (self w') = ledger (self w)] where [w'] is [w] after
    one write to another field. *)
Ltac ledger_leaf := unfold ledger, counters; sim_simpl; reflexivity.

Lemma ledger_same_refl : forall w : World, ledger (self w) = ledger (self w).
Proof using Type. reflexivity. Qed.

Lemma ledger_same_trans : forall w1 w2 w3 : World,
  ledger (self w2) = ledger (self w1) ->
  ledger (self w3) = ledger (self w2) ->
  ledger (self w3) = ledger (self w1).
Proof using Type. clear surface_ok. congruence. Qed.

Lemma bookkeeping_ledger_same {A} (c : M A) :
  always bookkeeping_only c ->
  always (fun w w' => ledger (self w') = ledger (self w)) c.
Proof using Type.
  apply always_weaken. intros w w' (es & e & pes & pe & po & -> & _). ledger_leaf.
Qed.

Lemma random_choice_ledger_same a :
  always (fun w w' => ledger (self w') = ledger (self w)) (random_choice a).
Proof using Type.
  pose proof ledger_same_refl as Hr. pose proof ledger_same_trans as Ht.
  destruct a; unfold random_choice; repeat always_step Hr Ht ledger_leaf.
Qed.

Lemma random_choice_p_ledger_same a p :
  always (fun w w' => ledger (self w') = ledger (self w)) (random_choice_p a p).
Proof using Type.
  pose proof ledger_same_refl as Hr. pose proof ledger_same_trans as Ht.
  unfold random_choice_p.
  repeat always_step Hr Ht ledger_leaf.
  destruct (support_from 0 p); repeat always_step Hr Ht ledger_leaf.
  destruct (a !! _); repeat always_step Hr Ht ledger_leaf.
Qed.

Lemma hop_weights_ledger_same i row :
  always (fun w w' => ledger (self w') = ledger (self w))
    (hop_weights surface V np_exp i row).
Proof using Type.
  pose proof ledger_same_refl as Hr. pose proof ledger_same_trans as Ht.
  unfold hop_weights, hop_energy, boltzmann_T.
  repeat (first [ eapply always_weaken; [|apply get_energy_pure]; by intros ? ? <-
                | always_step Hr Ht ledger_leaf ]).
Qed.

Lemma add_atom_search_ledger_same n cands : forall last,
  always (fun w w' => ledger (self w') = ledger (self w))
    (add_atom_search surface n cands last).
Proof using Type.
  pose proof ledger_same_refl as Hr. pose proof ledger_same_trans as Ht.
  induction n as [|n IH]; intros last; simpl.
  - always_step Hr Ht ledger_leaf.
  - apply (always_bind _ Ht); [apply random_choice_ledger_same|]. intros i.
    repeat always_step Hr Ht ledger_leaf. apply IH.
Qed.

(** [add_atom] writes no counter, whether it returns or raises. *)
Lemma add_atom_ledger_same :
  always (fun w w' => ledger (self w') = ledger (self w)) (add_atom surface V).
Proof using Type.
  pose proof ledger_same_refl as Hr. pose proof ledger_same_trans as Ht.
  unfold add_atom.
  always_step Hr Ht ledger_leaf; [always_step Hr Ht ledger_leaf|].
  apply (always_bind _ Ht); [apply add_atom_search_ledger_same|]. intros [last ok].
  always_step Hr Ht ledger_leaf; [repeat always_step Hr Ht ledger_leaf|].
  simpl. destruct last as [[i row]|]; [|always_step Hr Ht ledger_leaf].
  repeat (first [ apply bookkeeping_ledger_same, update_energy_bookkeeping
                | always_step Hr Ht ledger_leaf ]).
Qed.

(** A step of a run that has returned, through a relation the first part
    always keeps. *)
Lemma bind_Ok_always {A B} (R : World -> World -> Prop) (c : M A) (k : A -> M B)
    w b w' :
  always R c -> bind c k w = Ok b w' ->
  exists a w1, R w w1 /\ k a w1 = Ok b w'.
Proof using Type.
  intros Hc H. apply bind_Ok in H as (a & w1 & Hc1 & H).
  exists a, w1. split; [|exact H]. specialize (Hc w). by rewrite Hc1 in Hc.
Qed.

(** A returning [move_atom] adds one to [attempted_moves] and either one to
    [blocked_moves], or one to [move_accepted] and to one of
    [successful_moves] and [not_moved_moves]; it writes no other counter. *)
Lemma move_atom_ledger w w' :
  move_atom surface V np_exp w = Ok tt w' ->
  let a := attempted_moves (self w) in
  let s := successful_moves (self w) in
  let n := not_moved_moves (self w) in
  let b := blocked_moves (self w) in
  let t := total_steps (self w) in
  let m := move_accepted (self w) in
  let p := add_prepopulated (self w) in
  (ledger (self w') = (a + 1, s, n, b + 1, t, m, p)
   \/ ledger (self w') = (a + 1, s + 1, n, b, t, m + 1, p)
   \/ ledger (self w') = (a + 1, s, n + 1, b, t, m + 1, p))%Z.
Proof using Type.
  clear surface_ok.
  pose proof ledger_same_refl as Hr. pose proof ledger_same_trans as Ht.
  intros H a s n b t m p.
  unfold move_atom in H.
  step_in H as u0 Hu0.
  set (w0 := set_self _ w) in H.
  assert (Hw0 : ledger (self w0) = (a + 1, s, n, b, t, m, p)%Z).
  { subst w0 a s n b t m p. unfold ledger, counters. by sim_simpl. }
  clearbody w0.
  step_in H as cands Hc.
  apply (bind_Ok_always _ _ _ _ _ _ (random_choice_ledger_same cands)) in H
    as (i & w1 & Hi & H).
  cbn beta in Hi. rewrite Hw0 in Hi. clear Hw0 w0 Hc.
  step_in H as row Hrow.
  apply bind_Ok in H as (blocked & w2 & Hb & H).
  apply is_surrounded_Ok in Hb as [-> _].
  destruct blocked.
  - apply modify_Ok in H. subst w'. left.
    unfold ledger, counters in *. sim_simpl. by injection Hi as -> -> -> -> -> -> ->.
  - right.
    apply (bind_Ok_always _ _ _ _ _ _ (hop_weights_ledger_same i row)) in H
      as ([] & w3 & Hw & H).
    cbn beta in Hw. rewrite Hi in Hw. clear Hi w1.
    step_in H as u2 Hu2.
    set (w3' := set_self _ w3) in H.
    assert (Hw' : ledger (self w3') = ledger (self w3)) by (subst w3'; ledger_leaf).
    rewrite Hw in Hw'. clear Hw. clearbody w3'. rename Hw' into Hw.
    unfold hop_commit in H.
    step_in H as u1 Hu1.
    apply (bind_Ok_always _ _ _ _ _ _ (random_choice_p_ledger_same _ _)) in H
      as (j & w4 & Hj & H).
    cbn beta in Hj. rewrite Hw in Hj. clear Hw.
    apply bind_Ok in H as ([] & w5 & Hbump & H).
    assert (H5 : (ledger (self w5) = (a + 1, s + 1, n, b, t, m, p)
                  \/ ledger (self w5) = (a + 1, s, n + 1, b, t, m, p))%Z).
    { destruct (Nat.eqb j i); apply modify_Ok in Hbump; subst w5;
        unfold ledger, counters in *; sim_simpl;
        injection Hj as -> -> -> -> -> -> ->; auto. }
    clear Hbump Hj.
    assert (Htail : ledger (self w')
                    = (counters (self w5), total_steps (self w5),
                       (move_accepted (self w5) + 1)%Z, add_prepopulated (self w5))).
    { apply (bind_Ok_always (fun w w' => ledger (self w') = ledger (self w))) in H
        as (? & w6 & E6 & H); [|repeat always_step Hr Ht ledger_leaf].
      apply (bind_Ok_always (fun w w' => ledger (self w') = ledger (self w))) in H
        as (? & w7 & E7 & H); [|repeat always_step Hr Ht ledger_leaf].
      apply (bind_Ok_always (fun w w' => ledger (self w') = ledger (self w))) in H
        as (? & w8 & E8 & H); [|repeat always_step Hr Ht ledger_leaf].
      step_in H as u3 Hu3.
      apply (bind_Ok_always _ _ _ _ _ _
               (bookkeeping_ledger_same _ (update_energy_bookkeeping _ _ _))) in H
        as (? & w9 & E9 & H).
      apply (bind_Ok_always _ _ _ _ _ _
               (bookkeeping_ledger_same _ (update_energy_bookkeeping _ _ _))) in H
        as (? & w10 & E10 & H).
      step_in H as u4 Hu4.
      apply (bind_Ok_always _ _ _ _ _ _
               (bookkeeping_ledger_same _ (keep_modification_bookkeeping _))) in H
        as (? & w11 & E11 & H).
      apply (bind_Ok_always _ _ _ _ _ _
               (bookkeeping_ledger_same _ (keep_modification_bookkeeping _))) in H
        as (? & w12 & E12 & H).
      apply modify_Ok in H. subst w'. cbn beta in *.
      assert (E : ledger (self w12) = ledger (self w5)) by congruence.
      unfold ledger, counters in *. sim_simpl.
      injection E as -> -> -> -> -> -> ->. reflexivity. }
    rewrite Htail. unfold ledger, counters in *.
    destruct H5 as [H5|H5]; injection H5 as -> -> -> -> -> -> ->; auto.
Qed.

(** *** The lap driver *)

(** [add_atom] keeps the part of the energy invariant that does not involve
    the potential, whatever the neighbour table. *)
Lemma add_atom_zeros w u w' :
  length (occ (self w)) = stlen surface ->
  add_atom surface V w = Ok u w' ->
  energy_sum_and_zeros (self w) -> energy_sum_and_zeros (self w').
Proof using surface_ok.
  intros Hl H [Hsum Hz].
  apply (add_atom_Ok surface V surface_ok) in H
    as (i & row & pos & out & Hi & Hrow & _ & _ & w4 & H1 & H2); [|exact Hl].
  apply update_energy_zeros in H1.
  - apply update_energy_zeros in H2; [exact H2|].
    intros k _. apply H1.
  - intros k _. sim_simpl. intros Hk.
    destruct (decide (k = i)) as [->|Hne].
    + rewrite list_lookup_insert_eq in Hk by (by apply lookup_lt_Some in Hi).
      discriminate.
    + rewrite list_lookup_insert_ne in Hk by done. by apply Hz.
Qed.

Lemma move_atom_lap_step w w' :
  lap_invariant surface (self w) ->
  move_atom surface V np_exp w = Ok tt w' ->
  lap_invariant surface (self w')
  /\ atoms_on_surface (self w') = atoms_on_surface (self w)
  /\ config (self w') = config (self w)
  /\ total_steps (self w') = total_steps (self w)
  /\ add_prepopulated (self w') = add_prepopulated (self w).
Proof using surface_ok.
  intros (Hwf & Hci & Hai & Hz) H.
  pose proof (move_atom_step surface V np_exp surface_ok _ _ Hwf H)
    as (Hwf' & Hatoms & Hcfg & _).
  pose proof (move_atom_zeros _ _ _ _ _ _ Hwf H Hz) as Hz'.
  apply move_atom_ledger in H. cbn zeta in H.
  unfold lap_invariant, counter_identity, accepted_identity in *.
  unfold ledger, counters in H.
  destruct H as [H|[H|H]]; injection H as -> -> -> -> -> -> ->;
    repeat split; try assumption; try reflexivity; try apply Hz'; lia.
Qed.

Lemma repeat_move_atom_lap n : forall w w',
  lap_invariant surface (self w) ->
  repeat_times n (move_atom surface V np_exp) w = Ok tt w' ->
  lap_invariant surface (self w')
  /\ atoms_on_surface (self w') = atoms_on_surface (self w)
  /\ config (self w') = config (self w)
  /\ total_steps (self w') = total_steps (self w)
  /\ add_prepopulated (self w') = add_prepopulated (self w).
Proof using surface_ok.
  induction n as [|n IH]; intros w w' Hinv H.
  - apply ret_Ok in H as [_ ->]. auto.
  - cbn [repeat_times] in H.
    apply bind_Ok in H as ([] & w1 & H1 & H).
    apply move_atom_lap_step in H1 as (Hinv1 & Ha1 & Hc1 & Ht1 & Hp1); [|exact Hinv].
    apply IH in H as (Hinv' & Ha' & Hc' & Ht' & Hp'); [|exact Hinv1].
    repeat split; try apply Hinv'; congruence.
Qed.

Lemma add_atom_lap_step w w' :
  lap_invariant surface (self w) ->
  add_atom surface V w = Ok tt w' ->
  lap_invariant surface (self w')
  /\ total_steps (self w') = total_steps (self w)
  /\ add_prepopulated (self w') = add_prepopulated (self w).
Proof using surface_ok.
  intros (Hwf & Hci & Hai & Hz) H.
  pose proof (add_atom_step surface V surface_ok _ _ Hwf H) as (Hwf' & _).
  pose proof (well_formed_lengths _ _ Hwf) as (Hl & _).
  pose proof (add_atom_zeros _ _ _ Hl H Hz) as Hz'.
  apply (always_Ok _ _ _ _ _ add_atom_ledger_same) in H.
  unfold lap_invariant, counter_identity, accepted_identity in *.
  unfold ledger, counters in H. injection H as -> -> -> -> -> -> ->. auto 10.
Qed.

Lemma run_step_lap w w' :
  lap_invariant surface (self w) ->
  run_step surface V np_exp w = Ok tt w' ->
  lap_invariant surface (self w')
  /\ config (self w') = config (self w)
  /\ total_steps (self w') = (total_steps (self w) + 1)%Z
  /\ atoms_on_surface (self w') <= S (atoms_on_surface (self w))
  /\ add_prepopulated (self w') = add_prepopulated (self w).
Proof using surface_ok.
  intros Hinv H.
  pose proof Hinv as (Hwf & _).
  apply (run_step_Ok surface V np_exp surface_ok _ _ Hwf) in H
    as (w1 & w2 & Hcase & Hmoves & -> & Hwf' & Hcfg & Hatoms & _).
  assert (H1 : lap_invariant surface (self w1)
               /\ total_steps (self w1) = total_steps (self w)
               /\ add_prepopulated (self w1) = add_prepopulated (self w)
               /\ atoms_on_surface (self w1) <= S (atoms_on_surface (self w))).
  { destruct (below_target (self w)).
    - destruct Hcase as [Hadd Ha].
      apply add_atom_lap_step in Hadd as (? & ? & ?); [|exact Hinv].
      do 3 (split; [assumption|]). lia.
    - subst w1. do 3 (split; [done|]). lia. }
  destruct H1 as (Hinv1 & Ht1 & Hp1 & Ha1).
  apply repeat_move_atom_lap in Hmoves as (Hinv2 & Ha2 & _ & Ht2 & Hp2); [|exact Hinv1].
  destruct Hinv2 as (_ & Hci & Hai & Hsum & Hz).
  sim_simpl in Hatoms. rewrite <- Hatoms in Ha1. 
  unfold lap_invariant, counter_identity, accepted_identity, energy_sum_and_zeros in *.
  sim_simpl. repeat split; try assumption; try congruence.
Qed.

Lemma repeat_run_step_lap n : forall w w',
  lap_invariant surface (self w) ->
  repeat_times n (run_step surface V np_exp) w = Ok tt w' ->
  lap_invariant surface (self w')
  /\ config (self w') = config (self w)
  /\ total_steps (self w') = (total_steps (self w) + Z.of_nat n)%Z
  /\ atoms_on_surface (self w') <= atoms_on_surface (self w) + n
  /\ add_prepopulated (self w') = add_prepopulated (self w).
Proof using surface_ok.
  induction n as [|n IH]; intros w w' Hinv H.
  - apply ret_Ok in H as [_ ->]. repeat split; try apply Hinv; lia.
  - cbn [repeat_times] in H.
    apply bind_Ok in H as ([] & w1 & H1 & H).
    apply run_step_lap in H1 as (Hinv1 & Hc1 & Ht1 & Ha1 & Hp1); [|exact Hinv].
    apply IH in H as (Hinv' & Hc' & Ht' & Ha' & Hp'); [|exact Hinv1].
    repeat split; try apply Hinv'; try congruence; lia.
Qed.

(** X10.  A returning [run_lap] keeps the sizes of the arrays, the two
    counter identities attempted = successful + not moved + blocked and
    move_accepted = successful + not moved, and the part of the energy
    invariant that does not involve the potential (energy is the sum of
    energies, which are zero on free sites).  It leaves the run parameters
    and [add_prepopulated] as they are, advances [total_steps] by
    [steps_per_lap] (by nothing if that is negative), and deposits at most
    one particle per step. *)
Theorem run_lap_keeps_invariants w w' :
  lap_invariant surface (self w) ->
  run_lap surface V np_exp w = Ok tt w' ->
  lap_invariant surface (self w')
  /\ config (self w') = config (self w)
  /\ total_steps (self w') = (total_steps (self w) + Z.max 0 (steps_per_lap (self w)))%Z
  /\ atoms_on_surface (self w')
     <= atoms_on_surface (self w) + Z.to_nat (steps_per_lap (self w))
  /\ add_prepopulated (self w') = add_prepopulated (self w).
Proof using surface_ok.
  intros Hinv H. unfold run_lap in H. step_in H as s Hs.
  apply repeat_run_step_lap in H as (Hinv' & Hc & Ht & Ha & Hp); [|exact Hinv].
  repeat split; try apply Hinv'; try assumption. lia.
Qed.

(** X11.  On a well-formed state with a free site [add_atom] returns.  It
    writes no counter, keeps the part of the energy invariant that does not
    involve the potential on any neighbour table, and the whole energy
    invariant on a table where being a neighbour is mutual. *)
Theorem add_atom_keeps_energy_invariants w :
  well_formed surface (self w) = true ->
  (exists k, occ (self w) !! k = Some false) ->
  exists w',
    add_atom surface V w = Ok tt w'
    /\ ledger (self w') = ledger (self w)
    /\ (energy_sum_and_zeros (self w) -> energy_sum_and_zeros (self w'))
    /\ (symmetric_table surface -> energy_consistent surface V (self w) ->
        energy_consistent surface V (self w')).
Proof using surface_ok.
  intros Hwf Hfree.
  destruct (add_atom_total surface V surface_ok w Hwf Hfree) as [w' H].
  pose proof (well_formed_lengths _ _ Hwf) as (Hl & _).
  exists w'. split; [exact H|]. split; [|split].
  - exact (always_Ok _ _ _ _ _ add_atom_ledger_same H).
  - by apply (add_atom_zeros _ _ _ Hl H).
  - intros Hsym. by apply (add_atom_consistent surface V surface_ok _ _ _ Hsym Hl H).
Qed.

(** *** Edge cases *)

Lemma mask_filter_none (o : list bool) n :
  length o = n -> count_nonzero o = 0 -> mask_filter (seq 0 n) o = [].
Proof using Type.
  clear surface_ok.
  intros Hl H0. destruct (mask_filter (seq 0 n) o) as [|x l] eqn:E; [reflexivity|].
  assert (Hx : x ∈ mask_filter (seq 0 n) o) by (rewrite E; left).
  apply mask_filter_seq in Hx as [_ Hx]; [|exact Hl].
  rewrite Nat.sub_0_r in Hx.
  pose proof (lookup_lt_Some _ _ _ Hx) as Hlt.
  rewrite (count_nonzero_0 o H0 x Hlt) in Hx. discriminate.
Qed.

(** X12.  With no particle on the lattice [move_atom] raises ValueError,
    from [np.random.choice] on the empty array of occupied sites, after it
    has added one to [attempted_moves] and nothing else: the counter
    identity attempted = successful + not moved + blocked does not survive
    the exception. *)
Theorem move_atom_empty_lattice w :
  length (occ (self w)) = stlen surface ->
  atoms_on_surface (self w) = 0 ->
  move_atom surface V np_exp w
  = Raise ValueError
      (set_self (set_attempted_moves (attempted_moves (self w) + 1) (self w)) w)
  /\ (counter_identity (self w) ->
      ~ counter_identity (self (world_of (move_atom surface V np_exp w)))).
Proof using surface_ok.
  intros Hl H0.
  assert (Hrun : move_atom surface V np_exp w
    = Raise ValueError
        (set_self (set_attempted_moves (attempted_moves (self w) + 1) (self w)) w)).
  { unfold move_atom.
    erewrite bind_step; [|unfold modify; reflexivity].
    erewrite bind_step; cycle 1.
    { unfold read, mask_select. sim_simpl.
      rewrite (surface_sti surface surface_ok), length_seq, Hl, Nat.eqb_refl.
      rewrite (mask_filter_none _ _ Hl H0). reflexivity. }
    reflexivity. }
  split; [exact Hrun|]. rewrite Hrun. cbn [world_of].
  unfold counter_identity. sim_simpl. lia.
Qed.


(** *** The snapshot *)

Lemma keep_modification_Ok_snapshot idx w u w' :
  keep_modification idx w = Ok u w' ->
  exists pes po,
    w' = set_self (set_previous_occ po
           (set_previous_energy (energy (self w))
              (set_previous_energies pes (self w)))) w
    /\ copy_at (previous_energies (self w)) (energies (self w)) idx = Some pes
    /\ copy_at (previous_occ (self w)) (occ (self w)) idx = Some po.
Proof using Type.
  clear surface_ok.
  unfold keep_modification. intros H.
  step_in H as u0 H0. apply bind_Some in H0 as (pes & Hpes & [= <-]).
  step_in H as u1 H1.
  apply assign_Ok in H as (s2 & Hs2 & ->).
  apply bind_Some in Hs2 as (po & Hpo & [= <-]).
  sim_simpl in Hpo. exists pes, po. by sim_simpl.
Qed.

Lemma snapshot_but_occ D i v s :
  snapshot_but D s -> snapshot_but (i :: D) (set_occ (<[i:=v]> (occ s)) s).
Proof using Type.
  clear surface_ok.
  intros H k Hk. apply not_elem_of_cons in Hk as [Hne Hk].
  destruct (H k Hk) as [Ho He]. sim_simpl.
  rewrite list_lookup_insert_ne by done. auto.
Qed.

Lemma snapshot_but_update_energy D idx w u w' :
  update_energy surface V idx w = Ok u w' ->
  snapshot_but D (self w) -> snapshot_but (idx ++ D) (self w').
Proof using Type.
  clear surface_ok.
  intros H HD k Hk. apply not_elem_of_app in Hk as [Hidx Hk].
  destruct (HD k Hk) as [Ho He].
  pose proof (update_energy_Ok_energies _ _ _ _ _ _ H) as (Hocc & _ & Hen).
  destruct (Hen k) as (_ & _ & Hrest).
  pose proof (always_Ok _ _ _ _ _ (update_energy_energies_only idx) H)
    as (es & e & Hw' & _).
  rewrite (Hrest Hidx), Hocc. rewrite Hw'. sim_simpl. auto.
Qed.

Lemma snapshot_but_keep_modification D D' idx w u w' :
  keep_modification idx w = Ok u w' ->
  snapshot_but D (self w) ->
  (forall k, k ∈ D -> k ∈ idx \/ k ∈ D') ->
  snapshot_but D' (self w') /\ previous_energy (self w') = energy (self w').
Proof using Type.
  clear surface_ok.
  intros H HD Hsub.
  apply keep_modification_Ok_snapshot in H as (pes & po & -> & Hpes & Hpo).
  split; [|by sim_simpl]. intros k Hk. sim_simpl.
  destruct (copy_at_lookup _ _ _ _ Hpes k) as [Hin1 Hout1].
  destruct (copy_at_lookup _ _ _ _ Hpo k) as [Hin2 Hout2].
  destruct (decide (k ∈ idx)) as [Hi|Hi].
  - destruct (Hin1 Hi) as [-> _]. destruct (Hin2 Hi) as [-> _]. auto.
  - rewrite (Hout1 Hi), (Hout2 Hi). apply HD. intros HkD.
    destruct (Hsub k HkD); done.
Qed.

Lemma snapshot_but_nil s :
  snapshot_but [] s -> previous_energy s = energy s -> snapshot_current s.
Proof using Type.
  clear surface_ok.
  intros H He. split; [|split; [|exact He]]; apply list_eq; intros k;
    apply H, not_elem_of_nil.
Qed.

Lemma snapshot_current_but s : snapshot_current s -> snapshot_but [] s.
Proof using Type.
  clear surface_ok. intros (Ho & He & _) k _. by rewrite Ho, He.
Qed.

(** X16.  A returning [move_atom] keeps the snapshot current: where
    [previous_occ], [previous_energies] and [previous_energy] hold the
    current state before the call, they do so after it, the two
    [keep_modification] calls covering every site the move has written. *)
Theorem move_atom_keeps_snapshot_current w w' :
  well_formed surface (self w) = true ->
  snapshot_current (self w) ->
  move_atom surface V np_exp w = Ok tt w' ->
  snapshot_current (self w').
Proof using Type.
  clear surface_ok.
  intros Hwf Hsnap H. unfold move_atom in H.
  destruct (well_formed_lengths _ _ Hwf) as (Locc & _ & _ & _ & L1 & L2 & L3 & L4).
  step_in H as u0 Hu0.
  step_in H as cands Hc.
  apply bind_Ok in H as (i & w1 & Hi & H).
  apply random_choice_Ok in Hi as (_ & Hself & _).
  step_in H as row Hrow.
  apply bind_Ok in H as (b & w2 & Hb & H).
  apply is_surrounded_Ok in Hb as [-> _].
  assert (Hsnap1 : snapshot_current (self w1)).
  { rewrite Hself. destruct Hsnap as (? & ? & ?). by split. }
  destruct b.
  - apply modify_Ok in H. subst w'. destruct Hsnap1 as (? & ? & ?). by split.
  - apply bind_Ok in H as ([] & w3 & Hw & H).
    apply hop_weights_Ok in Hw; [|rewrite Hself; sim_simpl; assumption..].
    destruct Hw as (t & es & o & bT & _ & _ & _ & _ & ->).
    step_in H as u2 Hu2.
    unfold hop_commit in H.
    step_in H as u1 Hu1.
    apply bind_Ok in H as (j & w4 & Hj & H).
    apply random_choice_p_Ok in Hj as [(Hself4 & _) _].
    apply bind_Ok in H as ([] & w5 & Hbump & H).
    assert (H5 : snapshot_but [i] (self w5)).
    { assert (Hbase : snapshot_but [i] (self w4)).
      { rewrite Hself4. sim_simpl. intros k Hk.
        apply (snapshot_but_occ [] i false (self w1)) in Hk;
          [|by apply snapshot_current_but].
        exact Hk. }
      destruct (Nat.eqb j i); apply modify_Ok in Hbump; subst w5; exact Hbase. }
    clear Hbump.
    step_in H as bj Hbj.
    apply bind_Ok in H as ([] & w6 & Hprint & H).
    assert (H6 : self w6 = self w5).
    { destruct bj; [by apply print_Ok in Hprint; subst w6
                   | by apply ret_Ok in Hprint as [_ ->]]. }
    step_in H as u3 Ho. apply bind_Some in Ho as (oj & Ho & [= <-]).
    apply set_at_Some in Ho as [_ ->].
    step_in H as u4 Hu4.
    apply bind_Ok in H as ([] & w7 & E1 & H).
    apply bind_Ok in H as ([] & w8 & E2 & H).
    step_in H as u5 Hu5.
    apply bind_Ok in H as ([] & w9 & E3 & H).
    apply bind_Ok in H as ([] & w10 & E4 & H).
    apply modify_Ok in H. subst w'.
    assert (Hnni8 : _nni (self w8) = _nni (self w6)).
    { pose proof (always_Ok _ _ _ _ _ (update_energy_energies_only _) E1)
        as (? & ? & -> & _).
      pose proof (always_Ok _ _ _ _ _ (update_energy_energies_only _) E2)
        as (? & ? & -> & _). by sim_simpl. }
    sim_simpl in E1. sim_simpl in E3. rewrite Hnni8 in E3.
    eapply (snapshot_but_update_energy (j :: [i])) in E1; cycle 1.
    { sim_simpl. apply snapshot_but_occ. by rewrite H6. }
    eapply snapshot_but_update_energy in E2; [|exact E1].
    eapply (snapshot_but_keep_modification _ [i; j]) in E3 as [E3 _]; [|exact E2|].
    + eapply (snapshot_but_keep_modification _ []) in E4 as [E4 He]; [|exact E3|].
      * destruct (snapshot_but_nil _ E4 He) as (? & ? & ?). by split.
      * intros k Hk. by left.
    + intros k Hk. rewrite !elem_of_app in Hk.
      destruct Hk as [Hk|[Hk|Hk]]; [by right | by left |].
      right. apply elem_of_cons in Hk as [->|Hk]; [by right; left|].
      apply list_elem_of_singleton in Hk as ->. by left.
Qed.

(** X17.  [add_atom] never writes the snapshot: after a returning call from
    a state whose snapshot was current, [previous_occ] still holds the new
    site as free, so that the snapshot is no longer current. *)
Theorem add_atom_leaves_snapshot_stale w w' :
  well_formed surface (self w) = true ->
  snapshot_current (self w) ->
  add_atom surface V w = Ok tt w' ->
  previous_occ (self w') = previous_occ (self w)
  /\ previous_energies (self w') = previous_energies (self w)
  /\ previous_energy (self w') = previous_energy (self w)
  /\ ~ snapshot_current (self w')
  /\ exists i, previous_occ (self w') !! i = Some false
               /\ occ (self w') !! i = Some true.
Proof using surface_ok.
  intros Hwf (Hpo & Hpe & Hpen) H.
  pose proof (well_formed_lengths _ _ Hwf) as (Hl & _).
  apply (add_atom_Ok surface V surface_ok) in H
    as (i & row & pos & out & Hi & Hrow & B & _ & w4 & H1 & H2); [|exact Hl].
  apply bookkeeping_only_occ in B. sim_simpl in B.
  pose proof (always_Ok _ _ _ _ _ (update_energy_energies_only _) H1)
    as (es1 & e1 & -> & _).
  pose proof (always_Ok _ _ _ _ _ (update_energy_energies_only _) H2)
    as (es2 & e2 & -> & _).
  sim_simpl. sim_simpl in B. do 3 (split; [reflexivity|]).
  assert (Hnew : occ (self w) !! i = Some false
                 /\ <[i:=true]> (occ (self w)) !! i = Some true).
  { split; [exact Hi|]. apply list_lookup_insert_eq. by apply lookup_lt_Some in Hi. }
  split; [|exists i; rewrite Hpo; split; apply Hnew].
  intros (Hbad & _). sim_simpl in Hbad. rewrite Hpo in Hbad.
  destruct Hnew as [Hf Ht]. rewrite <- Hbad in Ht. congruence.
Qed.

(** X18.  Where one of the two site types is missing from the tables of the
    lattice, [prepopulate_split] raises IndexError before it has written
    anything. *)
Theorem prepopulate_split_missing_type i j gap w :
  sites groups !! i = None \/ sites groups !! j = None
  \/ stidx groups !! i = None \/ stidx groups !! j = None ->
  prepopulate_split surface groups V i j gap w = Raise IndexError w.
Proof using Type.
  clear surface_ok.
  intros H. unfold prepopulate_split, bind, index_or_raise, ret, raise.
  destruct (sites groups !! i); [|reflexivity].
  destruct (sites groups !! j); [|reflexivity].
  destruct (stidx groups !! i); [|reflexivity].
  destruct (stidx groups !! j); [|reflexivity].
  destruct H as [H|[H|[H|H]]]; discriminate.
Qed.

(** *** Runs that raise *)

Lemma world_of_bind {A B} (c : M A) (k : A -> M B) w :
  world_of (bind c k w)
  = match c w with Ok a w1 => world_of (k a w1) | Raise _ w1 => w1 end.
Proof using Type. clear surface_ok. unfold bind. by destruct (c w). Qed.

Lemma read_Raise {A} e (f : Sim -> option A) w e' w' :
  read e f w = Raise e' w' -> w' = w.
Proof using Type.
  clear surface_ok. unfold read. destruct (f (self w)); [discriminate|]. by intros [= _ <-].
Qed.

Lemma assign_Raise e (f : Sim -> option Sim) w e' w' :
  assign e f w = Raise e' w' -> w' = w.
Proof using Type.
  clear surface_ok. unfold assign. destruct (f (self w)); [discriminate|]. by intros [= _ <-].
Qed.

Lemma index_or_raise_Raise {A} (o : option A) w e w' :
  index_or_raise o w = Raise e w' -> w' = w.
Proof using Type.
  clear surface_ok. destruct o; simpl; [discriminate|]. by intros [= _ <-].
Qed.

Lemma random_choice_Raise a w e w' : random_choice a w = Raise e w' -> w' = w.
Proof using Type.
  clear surface_ok. destruct a as [|x a]; [by intros [= _ <-]|].
  unfold random_choice, bind, draw, ret. discriminate.
Qed.

Lemma random_choice_p_Raise a p w e w' :
  random_choice_p a p w = Raise e w' -> self w' = self w.
Proof using Type.
  clear surface_ok. unfold random_choice_p.
  destruct (negb (length a =? length p)); [by intros [= _ <-]|].
  destruct (negb (valid_probabilities p)); [by intros [= _ <-]|].
  destruct (support_from 0 p) as [|k0 supp]; [by intros [= _ <-]|].
  unfold bind, draw. destruct (a !! _); [discriminate|]. by intros [= _ <-].
Qed.

(** The blocked-move test only reads. *)
Lemma is_surrounded_pure i row : always eq (is_surrounded i row).
Proof using Type.
  clear surface_ok.
  assert (Hr : forall w : World, w = w) by reflexivity.
  assert (Ht : forall w1 w2 w3 : World, w1 = w2 -> w2 = w3 -> w1 = w3)
    by (intros ? ? ? -> ->; reflexivity).
  unfold is_surrounded. repeat always_step Hr Ht idtac.
Qed.

(** One step of a run known to have raised: the first part has raised, or it
    has returned and the rest has raised. *)
Ltac raise_in_as H a H1 :=
  let w := fresh "w" in
  apply bind_Raise in H; destruct H as [H | (a & w & H1 & H)].

Tactic Notation "raise_in" hyp(H) "as" ident(a) ident(H1) := raise_in_as H a H1.

Lemma bookkeeping_only_cache w w' :
  bookkeeping_only w w' -> _nni (self w') = _nni (self w).
Proof using Type.
  clear surface_ok. intros (es & e & pes & pe & po & -> & _). by sim_simpl.
Qed.

(** Once the destination is occupied, the rest of [hop_commit] returns. *)
Lemma hop_commit_tail_total i j w :
  length (occ (self w)) = stlen surface ->
  length (energies (self w)) = stlen surface ->
  length (previous_occ (self w)) = stlen surface ->
  length (previous_energies (self w)) = stlen surface ->
  Forall (fun k => k < stlen surface) (_nni (self w)) ->
  i < stlen surface -> j < stlen surface ->
  exists w',
    (s <- get_self ;;
     update_energy surface V (_nni s) ;;;
     update_energy surface V [i; j] ;;;
     s <- get_self ;;
     keep_modification (_nni s) ;;;
     keep_modification [i; j] ;;;
     modify (fun s => set_move_accepted (move_accepted s + 1) s)) w = Ok tt w'.
Proof using surface_ok.
  intros Lo Le Lpo Lpe Hnni Hi Hj.
  assert (Hij : Forall (fun k => k < stlen surface) [i; j]) by (repeat constructor; assumption).
  erewrite bind_step; [|reflexivity].
  destruct (update_energy_total surface V surface_ok (_nni (self w)) w Lo Le Hnni)
    as [w1 H1].
  rewrite (bind_step _ _ _ _ _ H1).
  apply update_energy_Ok in H1.
  pose proof (bookkeeping_only_cache _ _ H1) as Hc1.
  apply bookkeeping_only_frame in H1 as (Ho1 & _ & _ & _ & _ & Le1 & Lpe1 & Lpo1).
  destruct (update_energy_total surface V surface_ok [i; j] w1) as [w2 H2];
    [congruence | congruence | exact Hij |].
  rewrite (bind_step _ _ _ _ _ H2).
  apply update_energy_Ok in H2.
  pose proof (bookkeeping_only_cache _ _ H2) as Hc2.
  apply bookkeeping_only_frame in H2 as (Ho2 & _ & _ & _ & _ & Le2 & Lpe2 & Lpo2).
  erewrite bind_step; [|reflexivity].
  destruct (keep_modification_total surface (_nni (self w2)) w2) as [w3 H3];
    [congruence.. | by rewrite Hc2, Hc1 |].
  rewrite (bind_step _ _ _ _ _ H3).
  apply keep_modification_Ok, bookkeeping_only_frame in H3
    as (Ho3 & _ & _ & _ & _ & Le3 & Lpe3 & Lpo3).
  destruct (keep_modification_total surface [i; j] w3) as [w4 H4];
    [congruence.. | exact Hij |].
  rewrite (bind_step _ _ _ _ _ H4). unfold modify. eauto.
Qed.

(** Whatever the rest of [hop_weights] does after [self.occ[i] = False], the
    occupancy stays as that assignment left it. *)
Lemma hop_weights_Raise i row w e w' :
  hop_weights surface V np_exp i row w = Raise e w' ->
  occ (self w') = occ (self w)
  \/ (i < length (occ (self w)) /\ occ (self w') = <[i:=false]> (occ (self w))).
Proof using Type.
  clear surface_ok.
  assert (Hr : forall w : World, occ (self w) = occ (self w)) by reflexivity.
  assert (Ht : forall w1 w2 w3 : World,
             occ (self w2) = occ (self w1) -> occ (self w3) = occ (self w2) ->
             occ (self w3) = occ (self w1)) by (intros; congruence).
  unfold hop_weights. intros H.
  raise_in H as u0 H0.
  - apply assign_Raise in H. subst w'. by left.
  - apply assign_Ok in H0 as (s' & Hs' & ->).
    apply bind_Some in Hs' as (o & Ho & [= <-]).
    apply set_at_Some in Ho as [Hi ->].
    right. split; [exact Hi|].
    match type of H with
    | ?c ?w1 = _ =>
        assert (Hal : always (fun w w' => occ (self w') = occ (self w)) c)
    end.
    { unfold hop_energy, boltzmann_T.
      repeat (first [ eapply always_weaken; [|apply get_energy_pure]; by intros ? ? <-
                    | always_step Hr Ht ltac:(sim_simpl; reflexivity) ]). }
    match type of H with ?c ?w1 = _ => specialize (Hal w1) end.
    rewrite H in Hal. cbn [world_of] in Hal. rewrite Hal. by sim_simpl.
Qed.

(** A [hop_commit] that raises does so before it has filled the
    destination. *)
Lemma hop_commit_Raise i w e w' :
  hop_commit surface V i w = Raise e w' ->
  length (occ (self w)) = stlen surface ->
  length (energies (self w)) = stlen surface ->
  length (previous_occ (self w)) = stlen surface ->
  length (previous_energies (self w)) = stlen surface ->
  Forall (fun k => k < stlen surface) (_nni (self w)) ->
  i < stlen surface ->
  occ (self w') = occ (self w).
Proof using surface_ok.
  unfold hop_commit. intros H Lo Le Lpo Lpe Hnni Hi.
  raise_in H as s Hs; [discriminate|].
  apply get_self_Ok in Hs as [-> ->].
  raise_in H as j Hj.
  { apply random_choice_p_Raise in H. by rewrite H. }
  apply random_choice_p_Ok in Hj as [(Hself & _) (k & x & Hk & _)].
  assert (Hjlt : j < stlen surface).
  { apply list_elem_of_lookup_2 in Hk. rewrite Forall_forall in Hnni. auto. }
  raise_in H as u1 Hbump.
  { destruct (Nat.eqb j i); discriminate. }
  assert (H2 : occ (self w1) = occ (self w) /\ energies (self w1) = energies (self w)
               /\ previous_occ (self w1) = previous_occ (self w)
               /\ previous_energies (self w1) = previous_energies (self w)
               /\ _nni (self w1) = _nni (self w)).
  { destruct (Nat.eqb j i); apply modify_Ok in Hbump; subst w1; sim_simpl;
      rewrite Hself; auto. }
  clear Hbump. destruct H2 as (Ho2 & He2 & Hpo2 & Hpe2 & Hc2).
  raise_in H as b Hb.
  { apply read_Raise in H. subst w'. exact Ho2. }
  apply read_Ok in Hb as [_ ->].
  raise_in H as u2 Hp.
  { destruct b; discriminate. }
  assert (H3 : self w2 = self w1).
  { destruct b; [by apply print_Ok in Hp; subst w2 | by apply ret_Ok in Hp as [_ ->]]. }
  clear Hp.
  raise_in H as u3 Ha.
  { apply assign_Raise in H. subst w'. by rewrite H3. }
  apply assign_Ok in Ha as (s' & Hs' & ->).
  apply bind_Some in Hs' as (o & Ho & [= <-]).
  apply set_at_Some in Ho as [_ ->].
  exfalso.
  destruct (hop_commit_tail_total i j
              (set_self (set_occ (<[j:=true]> (occ (self w2))) (self w2)) w2))
    as [w5 E]; sim_simpl; rewrite ?length_insert, ?H3; congruence.
Qed.

(** A [move_atom] that raises leaves the occupancy as it was, or with the
    sampled site vacated and no destination filled. *)
Lemma move_atom_Raise w e w' :
  move_atom surface V np_exp w = Raise e w' ->
  well_formed surface (self w) = true ->
  occ (self w') = occ (self w)
  \/ exists i, occ (self w) !! i = Some true
               /\ occ (self w') = <[i:=false]> (occ (self w)).
Proof using surface_ok.
  unfold move_atom. intros H Hwf.
  destruct (well_formed_lengths _ _ Hwf) as (Lo & Lpo & Le & Lpe & L1 & L2 & L3 & L4).
  raise_in H as u0 H0; [discriminate|].
  apply modify_Ok in H0. subst w0.
  raise_in H as cands Hc.
  { apply read_Raise in H. subst w'. by left. }
  apply read_Ok in Hc as [Hc ->]. sim_simpl in Hc.
  apply mask_select_Some in Hc as [_ ->].
  raise_in H as i Hi.
  { apply random_choice_Raise in H. subst w'. by left. }
  apply random_choice_Ok in Hi as (Hi & Hself & _).
  apply (occupied_candidates surface surface_ok) in Hi; [|exact Lo].
  assert (Hocc1 : occ (self w0) = occ (self w)) by (rewrite Hself; by sim_simpl).
  raise_in H as row Hrow.
  { apply index_or_raise_Raise in H. subst w'. by left. }
  apply index_or_raise_Ok in Hrow as [Hrow ->].
  raise_in H as b Hb.
  { pose proof (is_surrounded_pure i row w0) as Hp. rewrite H in Hp.
    cbn [world_of] in Hp. subst w'. by left. }
  apply is_surrounded_Ok in Hb as [-> _].
  destruct b; [discriminate|].
  raise_in H as u1 Hw.
  { apply hop_weights_Raise in H as [H|[_ H]]; [left | right; exists i];
      rewrite H, Hocc1; auto. }
  apply hop_weights_Ok in Hw; [|rewrite Hself; sim_simpl; assumption..].
  destruct Hw as (t & es & o & bT & Hlt & Ht & _ & _ & ->).
  raise_in H as u2 Hn; [discriminate|].
  apply modify_Ok in Hn. rewrite Hn in H. clear Hn.
  right. exists i. split; [exact Hi|].
  rewrite Hocc1 in Hlt.
  apply hop_commit_Raise in H; sim_simpl; rewrite ?length_insert, ?Hself; sim_simpl;
    try assumption; try lia.
  - rewrite H. sim_simpl. by rewrite Hocc1.
  - constructor; [lia|]. apply Forall_forall. intros k Hk.
    eapply broadcast_to_elem_of in Hk; [|exact Ht].
    apply elem_of_take in Hk as (n & Hn & _).
    pose proof (surface_entries surface surface_ok i row Hrow) as Hrange.
    rewrite Forall_forall in Hrange. apply Hrange.
    by apply list_elem_of_lookup_2 in Hn.
Qed.

(** The hop branch of [move_atom] never writes [blocked_moves], whether it
    returns or raises. *)
Lemma hop_blocked_kept i row :
  always (fun w w' => blocked_moves (self w') = blocked_moves (self w))
    (hop_weights surface V np_exp i row ;;; hop_normalize ;;; hop_commit surface V i).
Proof using Type.
  clear surface_ok.
  assert (Hr : forall w : World, blocked_moves (self w) = blocked_moves (self w))
    by reflexivity.
  assert (Ht : forall w1 w2 w3 : World,
             blocked_moves (self w2) = blocked_moves (self w1) ->
             blocked_moves (self w3) = blocked_moves (self w2) ->
             blocked_moves (self w3) = blocked_moves (self w1)) by (intros; congruence).
  assert (Hbook : forall A (c : M A), always bookkeeping_only c ->
            always (fun w w' => blocked_moves (self w') = blocked_moves (self w)) c).
  { intros A c. apply always_weaken. intros w w' (es & e & pes & pe & po & -> & _).
    by sim_simpl. }
  unfold hop_weights, hop_normalize, hop_commit, hop_energy, boltzmann_T, random_choice_p.
  repeat (first [ eapply always_weaken; [|apply get_energy_pure]; by intros ? ? <-
                | apply Hbook, update_energy_bookkeeping
                | apply Hbook, keep_modification_bookkeeping
                | always_step Hr Ht ltac:(sim_simpl; reflexivity)
                | match goal with
                  | |- always _ (match ?x with _ => _ end) => destruct x
                  end ]).
Qed.

(** *** The claims about [move_atom] and [run_lap], returned or raised *)

(** C2, as the code has it.  Let [i] be the site that [move_atom] samples,
    an occupied one.  When every site of its encasing ring (entries 18 to
    24) is occupied and no site of its inner surroundings (entries 0 to 18)
    is, [move_atom] returns having added one to [attempted_moves] and one to
    [blocked_moves], taken one draw, and changed nothing else: the occupancy
    is as before.  When a site of the inner surroundings is occupied, or a
    site of the ring is free, the move is not blocked: whether the call
    returns or raises, [blocked_moves] is as before. *)
Theorem move_atom_blocked w i row :
  let cands := mask_filter (sti surface) (occ (self w)) in
  length (sti surface) = length (occ (self w)) ->
  cands !! (rng_tape w (rng_pos w) mod length cands) = Some i ->
  nni surface !! i = Some row ->
  occ (self w) !! i = Some true ->
  ((forall k, k ∈ take 6 (drop 18 row) -> occ (self w) !! k = Some true) ->
   (forall k, k ∈ take 18 row -> occ (self w) !! k = Some false) ->
   move_atom surface V np_exp w
   = Ok tt (mkWorld
              (set_blocked_moves (blocked_moves (self w) + 1)
                 (set_attempted_moves (attempted_moves (self w) + 1) (self w)))
              (rng_tape w) (S (rng_pos w)) (stdout w)))
  /\ ((exists k, k ∈ take 18 row /\ occ (self w) !! k = Some true)
      \/ (exists k, k ∈ take 6 (drop 18 row) /\ occ (self w) !! k = Some false) ->
      blocked_moves (self (world_of (move_atom surface V np_exp w)))
      = blocked_moves (self w)).
Proof using Type.
  clear surface_ok.
  intros cands Hlen Hi Hrow Hocc.
  set (w1 := mkWorld (set_attempted_moves (attempted_moves (self w) + 1) (self w))
               (rng_tape w) (S (rng_pos w)) (stdout w)).
  assert (Hpre : move_atom surface V np_exp w
    = (blocked <- is_surrounded i row ;;
       if blocked : bool
       then modify (fun s => set_blocked_moves (blocked_moves s + 1) s)
       else hop_weights surface V np_exp i row ;;; hop_normalize ;;;
            hop_commit surface V i) w1).
  { unfold move_atom.
    erewrite bind_step; [|reflexivity].
    erewrite bind_step; cycle 1.
    { unfold read, mask_select. sim_simpl. rewrite Hlen, Nat.eqb_refl. reflexivity. }
    fold cands.
    assert (Hchoice : random_choice cands
              (set_self (set_attempted_moves (attempted_moves (self w) + 1) (self w)) w)
            = Ok i w1).
    { unfold random_choice. destruct cands as [|x cands'] eqn:E; [discriminate|].
      unfold bind, draw, ret. sim_simpl. f_equal.
      apply nth_lookup_Some with (d := x) in Hi. exact Hi. }
    rewrite (bind_step _ _ _ _ _ Hchoice).
    rewrite Hrow. erewrite bind_step; [|reflexivity]. reflexivity. }
  split.
  - intros Hring Hinner. rewrite Hpre.
    assert (Hb : is_surrounded i row w1 = Ok true w1).
    { unfold is_surrounded.
      erewrite bind_step; cycle 1.
      { unfold read. subst w1. sim_simpl.
        rewrite (take_idx_constant _ true) by exact Hring. reflexivity. }
      rewrite np_all_replicate_true. cbn [negb].
      erewrite bind_step; cycle 1.
      { unfold read. subst w1. sim_simpl.
        rewrite (take_idx_constant _ false) by exact Hinner. reflexivity. }
      rewrite np_any_replicate_false.
      unfold read. subst w1. sim_simpl. rewrite Hocc. reflexivity. }
    rewrite (bind_step _ _ _ _ _ Hb). reflexivity.
  - intros Hnot. rewrite Hpre, world_of_bind.
    destruct (is_surrounded i row w1) as [b w2|e w2] eqn:E.
    + apply is_surrounded_Ok in E as [-> Hb]. destruct b.
      * exfalso. destruct (Hb eq_refl) as (_ & Hring & Hinner).
        subst w1. sim_simpl in Hring. sim_simpl in Hinner.
        destruct Hnot as [(k & Hk & Hko)|(k & Hk & Hko)].
        -- rewrite (Hinner k Hk) in Hko. discriminate.
        -- rewrite (Hring k Hk) in Hko. discriminate.
      * cbv beta iota. rewrite (hop_blocked_kept i row w1). subst w1. by sim_simpl.
    + pose proof (is_surrounded_pure i row w1) as Hp. rewrite E in Hp.
      cbn [world_of] in Hp. subst w2. subst w1. by sim_simpl.
Qed.

(** C4, as the code has it.  On a well-formed state, a returning
    [move_atom] leaves the occupancy as it was (a blocked move, or a stay
    with j = i), or has moved exactly one particle: from the sampled occupied
    site [i] to a site [j] other than [i] among the first three
    neighbour-table entries of [i], unoccupied before the call; no other
    entry of [occ] has changed.  A [move_atom] that raises leaves the
    occupancy as it was, or with the sampled site vacated and no destination
    filled: one particle fewer. *)
Theorem move_atom_moves_at_most_one w :
  well_formed surface (self w) = true ->
  (forall w',
     move_atom surface V np_exp w = Ok tt w' ->
     occ (self w') = occ (self w)
     \/ exists i j row,
          nni surface !! i = Some row
          /\ j <> i /\ j ∈ take 3 row
          /\ occ (self w) !! i = Some true
          /\ occ (self w) !! j = Some false
          /\ occ (self w') = <[j:=true]> (<[i:=false]> (occ (self w)))
          /\ occ (self w') !! i = Some false
          /\ occ (self w') !! j = Some true
          /\ forall k, k <> i -> k <> j -> occ (self w') !! k = occ (self w) !! k)
  /\ (forall e w',
        move_atom surface V np_exp w = Raise e w' ->
        occ (self w') = occ (self w)
        \/ exists i,
             occ (self w) !! i = Some true
             /\ occ (self w') = <[i:=false]> (occ (self w))
             /\ S (atoms_on_surface (self w')) = atoms_on_surface (self w)).
Proof using surface_ok.
  intros Hwf. split.
  - intros w' H.
    apply (move_atom_Ok surface V np_exp surface_ok) in H
      as (i & row & Hi & Hrow & _ & _ & _ & _ & _ & Hcase); [|exact Hwf].
    destruct Hcase as [(Hocc & _)|(j & Hj & Hfree & Hocc & _)]; [by left|].
    destruct (decide (j = i)) as [->|Hne].
    + left. rewrite Hocc, list_insert_insert_eq. by apply list_insert_id.
    + right. exists i, j, row.
      assert (Hi_lt : i < length (occ (self w))) by (eapply lookup_lt_Some, Hi).
      assert (Hj_lt : j < length (occ (self w))).
      { apply lookup_lt_Some in Hfree. by rewrite length_insert in Hfree. }
      rewrite list_lookup_insert_ne in Hfree by done.
      destruct Hj as [?|Hj]; [done|].
      repeat split; auto; rewrite Hocc.
      * rewrite list_lookup_insert_ne by done. by apply list_lookup_insert_eq.
      * apply list_lookup_insert_eq. by rewrite length_insert.
      * intros k Hki Hkj. by rewrite !list_lookup_insert_ne by done.
  - intros e w' H. apply move_atom_Raise in H as [H|(i & Hi & H)]; [by left| |exact Hwf].
    right. exists i. split; [exact Hi|]. split; [exact H|].
    unfold atoms_on_surface. rewrite H. by apply count_nonzero_insert_false.
Qed.

(** Moves leave [total_steps] alone. *)
Lemma repeat_move_atom_total_steps n : forall w w',
  repeat_times n (move_atom surface V np_exp) w = Ok tt w' ->
  total_steps (self w') = total_steps (self w).
Proof using Type.
  clear surface_ok.
  induction n as [|n IH]; intros w w' H.
  - by apply ret_Ok in H as [_ ->].
  - cbn [repeat_times] in H.
    apply bind_Ok in H as ([] & w1 & H1 & H).
    apply IH in H. rewrite H.
    apply move_atom_ledger in H1. cbn zeta in H1. unfold ledger, counters in H1.
    destruct H1 as [H1|[H1|H1]]; injection H1 as ? ? ? ? ? ? ?; assumption.
Qed.

Lemma run_step_total_steps w w' :
  well_formed surface (self w) = true ->
  run_step surface V np_exp w = Ok tt w' ->
  total_steps (self w') = (total_steps (self w) + 1)%Z.
Proof using surface_ok.
  intros Hwf H.
  apply (run_step_Ok surface V np_exp surface_ok) in H
    as (w1 & w2 & Hcase & Hmoves & -> & _); [|exact Hwf].
  sim_simpl. apply repeat_move_atom_total_steps in Hmoves. rewrite Hmoves.
  destruct (below_target (self w)); [|by subst w1].
  destruct Hcase as [Hadd _].
  apply (always_Ok _ _ _ _ _ add_atom_ledger_same) in Hadd.
  unfold ledger in Hadd. injection Hadd as ? ? ? ?. congruence.
Qed.

(** A returning run of [n] steps is a chain of [n] returning steps. *)
Lemma repeat_run_step_chain n : forall w w',
  well_formed surface (self w) = true ->
  repeat_times n (run_step surface V np_exp) w = Ok tt w' ->
  (exists f : nat -> World,
     f 0 = w /\ f n = w'
     /\ forall k, k < n -> run_step surface V np_exp (f k) = Ok tt (f (S k)))
  /\ total_steps (self w') = (total_steps (self w) + Z.of_nat n)%Z.
Proof using surface_ok.
  induction n as [|n IH]; intros w w' Hwf H.
  - apply ret_Ok in H as [_ ->]. split; [|lia].
    exists (fun _ => w). repeat split. intros k Hk. lia.
  - cbn [repeat_times] in H.
    apply bind_Ok in H as ([] & w1 & H1 & H).
    pose proof (run_step_total_steps _ _ Hwf H1) as Ht1.
    pose proof (run_step_Ok surface V np_exp surface_ok _ _ Hwf H1)
      as (_ & _ & _ & _ & _ & Hwf1 & _).
    destruct (IH _ _ Hwf1 H) as [(g & Hg0 & Hgn & Hg) Ht].
    split; [|lia].
    exists (fun k => match k with O => w | S k' => g k' end).
    split; [reflexivity|]. split; [exact Hgn|].
    intros [|k] Hk; [by rewrite Hg0|]. apply Hg. lia.
Qed.

(** C8, as the code has it.  A returning step of [run_lap] has called
    [add_atom] exactly when the coverage was strictly below the target at the
    start of the step, and then [move_atom] moves_per_step times the number
    of occupied sites as it is after the deposition (none for a negative
    product), each call adding one to [attempted_moves]; it has added one to
    [total_steps].  A returning lap is a chain of steps_per_lap such steps
    (none for a negative number), each from the state the one before has
    left, so that [total_steps] has advanced by that number.  Over a
    returning lap the number of occupied sites of the fixed-size lattice
    never goes down, and it stays as it is, nothing being printed either,
    when the coverage is not below the target at the start of the lap. *)
Theorem run_lap_schedule :
  (forall w w',
     well_formed surface (self w) = true ->
     run_step surface V np_exp w = Ok tt w' ->
     exists w1 w2,
       (if below_target (self w)
        then add_atom surface V w = Ok tt w1
             /\ atoms_on_surface (self w1) = S (atoms_on_surface (self w))
        else w1 = w)
       /\ repeat_times
            (Z.to_nat (moves_per_step (self w) * Z.of_nat (atoms_on_surface (self w1))))
            (move_atom surface V np_exp) w1 = Ok tt w2
       /\ atoms_on_surface (self w') = atoms_on_surface (self w1)
       /\ attempted_moves (self w')
          = (attempted_moves (self w)
             + Z.max 0 (moves_per_step (self w) * Z.of_nat (atoms_on_surface (self w1))))%Z
       /\ total_steps (self w') = (total_steps (self w2) + 1)%Z
       /\ total_steps (self w') = (total_steps (self w) + 1)%Z)
  /\ (forall w w',
        well_formed surface (self w) = true ->
        run_lap surface V np_exp w = Ok tt w' ->
        let N := Z.to_nat (steps_per_lap (self w)) in
        (exists f : nat -> World,
           f 0 = w /\ f N = w'
           /\ forall k, k < N -> run_step surface V np_exp (f k) = Ok tt (f (S k)))
        /\ total_steps (self w') = (total_steps (self w) + Z.of_nat N)%Z
        /\ length (occ (self w')) = length (occ (self w))
        /\ atoms_on_surface (self w) <= atoms_on_surface (self w')
        /\ (below_target (self w) = false ->
            atoms_on_surface (self w') = atoms_on_surface (self w)
            /\ stdout w' = stdout w)).
Proof using surface_ok.
  split.
  - intros w w' Hwf H.
    pose proof (run_step_total_steps _ _ Hwf H) as Hts.
    pose proof H as H'.
    apply (run_step_Ok surface V np_exp surface_ok) in H'
      as (w1 & w2 & Hcase & Hmoves & Hw' & _ & _ & Hatoms & Hatt & _); [|exact Hwf].
    exists w1, w2.
    assert (Hmps : moves_per_step (self w1) = moves_per_step (self w)).
    { destruct (below_target (self w)).
      - destruct Hcase as [Hadd _].
        apply (add_atom_step surface V surface_ok _ _ Hwf) in Hadd as (_ & _ & Hcfg & _).
        unfold config in Hcfg. congruence.
      - by subst w1. }
    rewrite Hmps in Hmoves.
    split; [exact Hcase|]. split; [exact Hmoves|]. split; [exact Hatoms|].
    split; [exact Hatt|]. split; [|exact Hts].
    rewrite Hw'. by sim_simpl.
  - intros w w' Hwf H N. unfold run_lap in H.
    step_in H as u0 Hu0. fold N in H.
    destruct (repeat_run_step_chain _ _ _ Hwf H) as [Hchain Hts].
    apply (repeat_run_step surface V np_exp surface_ok) in H as (Hwf' & Hle & Hstay);
      [|exact Hwf].
    split; [exact Hchain|]. split; [exact Hts|]. split; [|auto].
    apply well_formed_lengths in Hwf as (-> & _).
    by apply well_formed_lengths in Hwf' as (-> & _).
Qed.
End Coverage.

(** *** The state [__init__] builds *)

Lemma np_sum_zeros n : np_sum (replicate n 0%float) = 0%float.
Proof.
  unfold np_sum. induction n as [|n IH]; [reflexivity|].
  cbn [replicate fold_left]. exact IH.
Qed.

(** X14.  The state [__init__] builds over the sites of the lattice is well
    formed, holds no particle, and satisfies the energy invariant and the
    counter identities: the lap driver, [add_atom] and the [prepopulate]
    methods can start from it. *)
Theorem new_sim_initial surface V T steps moves target :
  let s := new_sim (stlen surface) T steps moves target in
  lap_invariant surface s
  /\ energy_consistent surface V s
  /\ atoms_on_surface s = 0
  /\ previous_occ s = occ s
  /\ previous_energies s = energies s
  /\ previous_energy s = energy s
  /\ config s = (steps, moves, target)
  /\ ledger s = (0, 0, 0, 0, 0, 0, 0)%Z.
Proof.
  intros s. subst s. unfold new_sim.
  assert (Hfree : forall n k, replicate n false !! k = Some true -> False).
  { intros n k Hk. apply lookup_replicate in Hk as [Hk _]. discriminate. }
  assert (Hzero : forall n k, replicate n false !! k = Some false ->
                              replicate n 0%float !! k = Some 0%float).
  { intros n k Hk. apply lookup_replicate in Hk as [_ Hk].
    by apply lookup_replicate_2. }
  split; [|split].
  - unfold lap_invariant, well_formed, counter_identity, accepted_identity,
      energy_sum_and_zeros. sim_simpl.
    rewrite !length_replicate, !Nat.eqb_refl, np_sum_zeros.
    repeat split; auto.
  - unfold energy_consistent, consistent_at. sim_simpl.
    rewrite np_sum_zeros. split; [reflexivity|]. intros i. split; [apply Hzero|].
    intros Hi. by apply Hfree in Hi.
  - unfold atoms_on_surface. sim_simpl.
    repeat split.
    induction (stlen surface) as [|n IH]; [reflexivity | exact IH].
Qed.

Lemma landing_prob_from_spec g : forall ss i0 lp0 lp,
  landing_prob_from g i0 ss lp0 = Some lp ->
  length lp = length lp0
  /\ forall k,
       ((forall j idx, j < length ss -> stidx g !! (i0 + j) = Some idx -> k ∉ idx) ->
        lp !! k = lp0 !! k)
       /\ (forall j s idx,
             ss !! j = Some s -> stidx g !! (i0 + j) = Some idx -> k ∈ idx ->
             (forall j' idx', j < j' -> j' < length ss ->
                              stidx g !! (i0 + j') = Some idx' -> k ∉ idx') ->
             lp !! k = Some (prob s)).
Proof.
  induction ss as [|s ss IH]; intros i0 lp0 lp H; cbn [landing_prob_from] in H.
  - injection H as <-. split; [reflexivity|]. intros k. split; [reflexivity|].
    intros j s idx Hs. discriminate.
  - apply bind_Some in H as (idx0 & Hidx0 & H).
    apply bind_Some in H as (lp1 & Hset & H).
    destruct (IH _ _ _ H) as [Hlen Hrec].
    split; [rewrite Hlen; eapply set_all_length, Hset|].
    intros k. destruct (Hrec k) as [Hnone Hlast].
    pose proof (set_all_lookup _ _ _ _ k Hset) as Hk1.
    assert (Hshift : forall j, S i0 + j = i0 + S j) by (intros; lia).
    split.
    + intros Hout. rewrite Hnone.
      * rewrite Hk1, bool_decide_eq_false_2; [reflexivity|].
        apply (Hout 0); [simpl; lia | by rewrite Nat.add_0_r].
      * intros j idx Hj Hidx. rewrite Hshift in Hidx.
        apply (Hout (S j)); [simpl; lia | exact Hidx].
    + intros [|j] s' idx Hs Hidx Hin Hlater.
      * injection Hs as <-. rewrite Nat.add_0_r in Hidx.
        rewrite Hidx in Hidx0. injection Hidx0 as <-.
        rewrite Hnone.
        -- by rewrite Hk1, bool_decide_eq_true_2.
        -- intros j idx' Hj Hidx'. rewrite Hshift in Hidx'.
           apply (Hlater (S j)); [lia | simpl; lia | exact Hidx'].
      * apply (Hlast j s' idx); [exact Hs | by rewrite Hshift | exact Hin |].
        intros j' idx' Hlt Hj' Hidx'. rewrite Hshift in Hidx'.
        apply (Hlater (S j')); [lia | simpl; lia | exact Hidx'].
Qed.

(** X15.  The [landing_prob] array that [__init__] fills has one entry per
    site: zero at a site that belongs to no site type, and otherwise the
    [prob] of the last site type that holds the site, later types
    overwriting earlier ones. *)
Theorem landing_prob_last_type n g lp :
  landing_prob n g = Some lp ->
  length lp = n
  /\ forall k, k < n ->
       ((forall i idx, i < length (sites g) -> stidx g !! i = Some idx -> k ∉ idx) ->
        lp !! k = Some 0%float)
       /\ (forall i s idx,
             sites g !! i = Some s -> stidx g !! i = Some idx -> k ∈ idx ->
             (forall i' idx', i < i' -> i' < length (sites g) ->
                              stidx g !! i' = Some idx' -> k ∉ idx') ->
             lp !! k = Some (prob s)).
Proof.
  intros H. apply landing_prob_from_spec in H as [Hlen H].
  rewrite length_replicate in Hlen. split; [exact Hlen|].
  intros k Hk. destruct (H k) as [Hnone Hlast]. split.
  - intros Hout. rewrite Hnone; [by apply lookup_replicate_2|exact Hout].
  - exact Hlast.
Qed.

(** ** The claims about [move_atom] and [run_lap] on the example lattices *)

(** A blocked move: on the loop, site 0 with its ring occupied and its inner
    surroundings free.  On the full loop the inner surroundings are occupied
    and the move of site 0 is not blocked. *)
Lemma move_atom_blocked_witness :
  move_atom Loop.surface Cube.V_flat Cube.exp_pts Loop.buried
  = Ok tt (mkWorld
             (set_blocked_moves (blocked_moves (self Loop.buried) + 1)
                (set_attempted_moves (attempted_moves (self Loop.buried) + 1)
                   (self Loop.buried)))
             (rng_tape Loop.buried) (S (rng_pos Loop.buried)) (stdout Loop.buried))
  /\ blocked_moves
       (self (world_of (move_atom Loop.surface Cube.V_flat Cube.exp_pts Loop.full)))
     = blocked_moves (self Loop.full).
Proof.
  split.
  - destruct (move_atom_blocked Loop.surface Cube.V_flat Cube.exp_pts Loop.buried 0
                (Loop.row 0)) as [Hb _].
    + reflexivity.
    + reflexivity.
    + reflexivity.
    + reflexivity.
    + apply Hb.
      * intros k Hk. apply list_elem_of_In in Hk. vm_compute in Hk.
        repeat (destruct Hk as [<-|Hk]; [reflexivity|]). destruct Hk.
      * intros k Hk. apply list_elem_of_In in Hk. vm_compute in Hk.
        repeat (destruct Hk as [<-|Hk]; [reflexivity|]). destruct Hk.
  - destruct (move_atom_blocked Loop.surface Cube.V_flat Cube.exp_pts Loop.full 0
                (Loop.row 0)) as [_ Hn].
    + reflexivity.
    + reflexivity.
    + reflexivity.
    + reflexivity.
    + apply Hn. left. exists 1. split; [|reflexivity].
      apply list_elem_of_lookup. by exists 0.
Defined.

(** A hop on the cube: the particle of site 0 goes to site 4.  With sites 0,
    3 and 7 occupied the call raises after site 0 is vacated. *)
Lemma move_atom_moves_at_most_one_witness :
  (let w := Cube.populated Cube.V_repulsive [0; 3] in
   let w' := world_of (move_atom Cube.surface Cube.V_repulsive Cube.exp_pts w) in
   occ (self w') = occ (self w)
   \/ exists i j row,
        nni Cube.surface !! i = Some row
        /\ j <> i /\ j ∈ take 3 row
        /\ occ (self w) !! i = Some true
        /\ occ (self w) !! j = Some false
        /\ occ (self w') = <[j:=true]> (<[i:=false]> (occ (self w)))
        /\ occ (self w') !! i = Some false
        /\ occ (self w') !! j = Some true
        /\ forall k, k <> i -> k <> j -> occ (self w') !! k = occ (self w) !! k)
  /\ (let w := Cube.populated Cube.V_repulsive [0; 3; 7] in
      let w' := world_of (move_atom Cube.surface Cube.V_repulsive Cube.exp_pts w) in
      occ (self w') = occ (self w)
      \/ exists i,
           occ (self w) !! i = Some true
           /\ occ (self w') = <[i:=false]> (occ (self w))
           /\ S (atoms_on_surface (self w')) = atoms_on_surface (self w)).
Proof.
  split; intros w w'.
  - apply (proj1 (move_atom_moves_at_most_one Cube.surface Cube.V_repulsive
                    Cube.exp_pts cube_surface_ok w eq_refl) w').
    vm_compute. reflexivity.
  - apply (proj2 (move_atom_moves_at_most_one Cube.surface Cube.V_repulsive
                    Cube.exp_pts cube_surface_ok w eq_refl) ValueError w').
    vm_compute. reflexivity.
Defined.

Lemma moved_particle_count (o o' : list bool) i j :
  j <> i -> o !! i = Some true -> o !! j = Some false ->
  o' = <[j:=true]> (<[i:=false]> o) -> count_nonzero o' = count_nonzero o.
Proof.
  intros Hne Hi Hj ->.
  rewrite count_nonzero_insert_true by (by rewrite list_lookup_insert_ne).
  by apply count_nonzero_insert_false.
Qed.

(** C4 as stated fails for a call that raises.  On the cube with sites 0, 3
    and 7 occupied, a well-formed state, [move_atom] samples site 0, vacates
    it, finds all four weights underflowed to zero and raises ValueError out
    of [np.random.choice]: the occupancy is neither what it was nor that of
    one particle moved, there being two particles where there were three. *)
Lemma move_atom_raising_loses_particle :
  let w := Cube.populated Cube.V_repulsive [0; 3; 7] in
  let w' := world_of (move_atom Cube.surface Cube.V_repulsive Cube.exp_pts w) in
  well_formed Cube.surface (self w) = true
  /\ move_atom Cube.surface Cube.V_repulsive Cube.exp_pts w = Raise ValueError w'
  /\ occ (self w) = [true; false; false; true; false; false; false; true]
  /\ occ (self w') = [false; false; false; true; false; false; false; true]
  /\ atoms_on_surface (self w) = 3
  /\ atoms_on_surface (self w') = 2
  /\ ~ (occ (self w') = occ (self w)
        \/ exists i j row,
             nni Cube.surface !! i = Some row
             /\ j <> i /\ j ∈ take 3 row
             /\ occ (self w) !! i = Some true
             /\ occ (self w) !! j = Some false
             /\ occ (self w') = <[j:=true]> (<[i:=false]> (occ (self w)))).
Proof.
  intros w w'.
  do 6 (split; [vm_compute; reflexivity|]).
  intros [H|(i & j & row & _ & Hne & _ & Hi & Hj & Hocc)].
  - vm_compute in H. discriminate.
  - pose proof (moved_particle_count _ _ i j Hne Hi Hj Hocc) as Hc.
    vm_compute in Hc. discriminate.
Qed.

(** One lap of one step on the empty cube: one deposition, then one move. *)
Lemma run_lap_schedule_witness :
  let w := new_world Cube.sim0 Cube.tape0 in
  let w' := world_of (run_lap Cube.surface Cube.V_repulsive Cube.exp_pts w) in
  let ws := world_of (run_step Cube.surface Cube.V_repulsive Cube.exp_pts w) in
  below_target (self w) = true
  /\ (exists w1 w2,
        (if below_target (self w)
         then add_atom Cube.surface Cube.V_repulsive w = Ok tt w1
              /\ atoms_on_surface (self w1) = S (atoms_on_surface (self w))
         else w1 = w)
        /\ repeat_times
             (Z.to_nat (moves_per_step (self w) * Z.of_nat (atoms_on_surface (self w1))))
             (move_atom Cube.surface Cube.V_repulsive Cube.exp_pts) w1 = Ok tt w2
        /\ atoms_on_surface (self ws) = atoms_on_surface (self w1)
        /\ attempted_moves (self ws)
           = (attempted_moves (self w)
              + Z.max 0 (moves_per_step (self w) * Z.of_nat (atoms_on_surface (self w1))))%Z
        /\ total_steps (self ws) = (total_steps (self w2) + 1)%Z
        /\ total_steps (self ws) = (total_steps (self w) + 1)%Z)
  /\ (exists f : nat -> World,
        f 0 = w /\ f 1 = w'
        /\ forall k, k < 1 ->
             run_step Cube.surface Cube.V_repulsive Cube.exp_pts (f k) = Ok tt (f (S k)))
  /\ total_steps (self w') = (total_steps (self w) + 1)%Z
  /\ length (occ (self w')) = length (occ (self w))
  /\ atoms_on_surface (self w) <= atoms_on_surface (self w').
Proof.
  intros w w' ws. split; [reflexivity|]. split.
  - apply (proj1 (run_lap_schedule Cube.surface Cube.V_repulsive Cube.exp_pts
                    cube_surface_ok) w ws).
    + reflexivity.
    + vm_compute. reflexivity.
  - destruct (proj2 (run_lap_schedule Cube.surface Cube.V_repulsive Cube.exp_pts
                       cube_surface_ok) w w') as (Hchain & Hts & Hlen & Hle & _).
    + reflexivity.
    + vm_compute. reflexivity.
    + split; [exact Hchain|]. split; [exact Hts|]. split; [exact Hlen | exact Hle].
Defined.

(** C8 as stated fails for a lap that raises.  On the cube with sites 0, 3
    and 7 occupied and a target coverage of 0.25, below the coverage 3/8, no
    deposition is due and the step schedules three moves; the first one
    raises ValueError with site 0 vacated.  The lap ends there: one call of
    the three made, no step completed, and two particles where there were
    three, so that the coverage has gone down. *)
Lemma run_lap_raising_loses_particle :
  let w := world_of (prepopulate_with Cube.surface Cube.V_repulsive [0; 3; 7]
                       (new_world (new_sim 8 1%float 1 1 0.25%float) Cube.tape0)) in
  let o := run_lap Cube.surface Cube.V_repulsive Cube.exp_pts w in
  well_formed Cube.surface (self w) = true
  /\ below_target (self w) = false
  /\ o = Raise ValueError (world_of o)
  /\ atoms_on_surface (self w) = 3
  /\ atoms_on_surface (self (world_of o)) = 2
  /\ (moves_per_step (self w) * Z.of_nat (atoms_on_surface (self w)))%Z = 3%Z
  /\ attempted_moves (self (world_of o)) = (attempted_moves (self w) + 1)%Z
  /\ total_steps (self (world_of o)) = total_steps (self w)
  /\ (coverage_of (self (world_of o)) <? coverage_of (self w))%float = true.
Proof.
  intros w o.
  do 8 (split; [vm_compute; reflexivity|]). vm_compute. reflexivity.
Qed.

(** ** The further properties on the example lattices *)

(** Sites 0 and 3 of the cube recomputed together with the free site 1. *)
Lemma update_energy_recomputes_witness :
  let w := Cube.populated Cube.V_repulsive [0; 3] in
  let w' := world_of (update_energy Cube.surface Cube.V_repulsive [0; 1; 3] w) in
  energy (self w') = np_sum (energies (self w'))
  /\ energies (self w') !! 1 = Some 0%float
  /\ energies (self w') !! 2 = energies (self w) !! 2.
Proof.
  intros w w'.
  destruct (update_energy_recomputes Cube.surface Cube.V_repulsive [0; 1; 3] w w')
    as [Hsum Hk]; [vm_compute; reflexivity|].
  split; [exact Hsum|]. split.
  - destruct (Hk 1) as (Hz & _). apply Hz; [|reflexivity].
    apply list_elem_of_lookup. by exists 1.
  - destruct (Hk 2) as (_ & _ & Hr). apply Hr.
    intros Hin. apply list_elem_of_lookup in Hin as [[|[|[|n]]] Hn]; discriminate.
Defined.

Lemma update_energy_idempotent_witness :
  let w := Cube.populated Cube.V_repulsive [0; 3] in
  let w1 := world_of (update_energy Cube.surface Cube.V_repulsive [0; 1; 3] w) in
  update_energy Cube.surface Cube.V_repulsive [0; 1; 3] w1 = Ok tt w1.
Proof.
  intros w w1.
  apply (update_energy_idempotent Cube.surface Cube.V_repulsive [0; 1; 3] w w1).
  vm_compute. reflexivity.
Defined.

(** Index 8 on the eight sites of the cube. *)
Lemma update_energy_out_of_range_witness :
  let w := Cube.populated Cube.V_repulsive [0; 3] in
  update_energy Cube.surface Cube.V_repulsive [0; 8] w = Raise IndexError w.
Proof.
  intros w.
  apply (update_energy_out_of_range Cube.surface Cube.V_repulsive [0; 8] w 8).
  - apply list_elem_of_lookup. by exists 1.
  - vm_compute. lia.
Defined.

(** The particle of site 0 moved to site 4 by hand, and put back. *)
Lemma reverse_modification_restores_witness :
  let w := Cube.populated Cube.V_repulsive [0; 3] in
  let w1 := world_of (keep_modification [0; 4] w) in
  let s' := set_occ (<[4:=true]> (<[0:=false]> (occ (self w1)))) (self w1) in
  reverse_modification [0; 4] (set_self s' w1)
  = Ok tt (set_self (set_occ (occ (self w))
                       (set_energy (energy (self w))
                          (set_energies (energies (self w)) s'))) w1).
Proof.
  intros w w1 s'.
  apply (reverse_modification_restores [0; 4] w w1 s').
  - vm_compute. reflexivity.
  - vm_compute. reflexivity.
  - vm_compute. reflexivity.
  - vm_compute. reflexivity.
  - vm_compute. reflexivity.
  - vm_compute. reflexivity.
  - intros k Hk.
    destruct k as [|[|[|[|[|k]]]]]; try (split; vm_compute; reflexivity).
    + exfalso. apply Hk. left.
    + exfalso. apply Hk. right. left.
Defined.

(** Two of the eight sites of the empty cube. *)
Lemma prepopulate_returns_witness :
  let w := new_world Cube.sim0 Cube.tape0 in
  exists (c : list nat) w',
    prepopulate Cube.surface Cube.V_repulsive 2 w = Ok tt w'
    /\ NoDup c /\ length c = 2
    /\ add_prepopulated (self w') = 2%Z
    /\ atoms_on_surface (self w') = 2
    /\ energy_consistent Cube.surface Cube.V_repulsive (self w')
    /\ lap_invariant Cube.surface (self w').
Proof.
  intros w.
  destruct (prepopulate_returns Cube.surface Cube.V_repulsive cube_surface_ok 2 w)
    as (c & w' & Hrun & Hnd & Hlen & _ & Hadd & Hatoms & Hcons & _ & _ & _ & Hinv).
  - reflexivity.
  - vm_compute. split; discriminate.
  - exists c, w'. do 4 (split; [assumption|]).
    split; [by apply Hatoms|]. split; [exact Hcons|].
    apply Hinv; reflexivity.
Defined.

(** Nine sites asked of the eight of the cube. *)
Lemma prepopulate_bad_size_witness :
  let w := new_world Cube.sim0 Cube.tape0 in
  prepopulate Cube.surface Cube.V_repulsive 9 w = Raise ValueError w.
Proof.
  intros w. apply (prepopulate_bad_size Cube.surface Cube.V_repulsive 9 w).
  right. vm_compute. reflexivity.
Defined.

(** The even sites left of -1.5 and the odd sites right of 1.5. *)
Lemma prepopulate_split_returns_witness :
  let w := new_world Cube.sim0 Cube.tape0 in
  exists (c : list nat) w',
    prepopulate_split Cube.surface Split.groups Cube.V_repulsive 0 1 3 w = Ok tt w'
    /\ (0 ∈ c /\ 2 ∈ c /\ 5 ∈ c /\ 7 ∈ c)
    /\ NoDup c
    /\ add_prepopulated (self w') = Z.of_nat (length c)
    /\ atoms_on_surface (self w') = length c
    /\ rng_pos w' = rng_pos w.
Proof.
  intros w.
  destruct (prepopulate_split_returns Cube.surface Cube.V_repulsive cube_surface_ok
              Split.groups 0 1 3 w (mkSite 0.5) (mkSite 0.5) [0; 2; 4; 6] [1; 3; 5; 7])
    as (c & w' & Hrun & Hc & Hnd & _ & Hadd & _ & Hatoms & _ & Hpos & _);
    try reflexivity.
  - apply Forall_forall. intros k Hk.
    apply list_elem_of_lookup in Hk as [[|[|[|[|n]]]] Hn];
      try discriminate; injection Hn as <-; vm_compute; lia.
  - apply Forall_forall. intros k Hk.
    apply list_elem_of_lookup in Hk as [[|[|[|[|n]]]] Hn];
      try discriminate; injection Hn as <-; vm_compute; lia.
  - exists c, w'. split; [exact Hrun|]. split.
    { repeat split; apply Hc.
      - left. split; [apply list_elem_of_lookup; by exists 0|].
        eexists. split; reflexivity.
      - left. split; [apply list_elem_of_lookup; by exists 1|].
        eexists. split; reflexivity.
      - right. split; [apply list_elem_of_lookup; by exists 2|].
        eexists. split; reflexivity.
      - right. split; [apply list_elem_of_lookup; by exists 3|].
        eexists. split; reflexivity. }
    repeat split; try assumption. by apply Hatoms.
Defined.

(** A lap of one step on the empty cube: one deposition, one move. *)
Lemma run_lap_keeps_invariants_witness :
  let w := new_world Cube.sim0 Cube.tape0 in
  let w' := world_of (run_lap Cube.surface Cube.V_repulsive Cube.exp_pts w) in
  lap_invariant Cube.surface (self w')
  /\ total_steps (self w') = 1%Z
  /\ atoms_on_surface (self w') <= 1.
Proof.
  intros w w'.
  destruct (run_lap_keeps_invariants Cube.surface Cube.V_repulsive Cube.exp_pts
              cube_surface_ok w w') as (Hinv & _ & Ht & Ha & _).
  - repeat split.
    intros i Hi. apply lookup_replicate in Hi as [_ Hi].
    by apply lookup_replicate_2.
  - vm_compute. reflexivity.
  - split; [exact Hinv|]. split; [exact Ht | exact Ha].
Defined.

(** A second particle on the cube. *)
Lemma add_atom_keeps_energy_invariants_witness :
  let w := Cube.populated Cube.V_repulsive [0] in
  exists w',
    add_atom Cube.surface Cube.V_repulsive w = Ok tt w'
    /\ ledger (self w') = ledger (self w)
    /\ energy_consistent Cube.surface Cube.V_repulsive (self w').
Proof.
  intros w.
  destruct (add_atom_keeps_energy_invariants Cube.surface Cube.V_repulsive
              cube_surface_ok w) as (w' & Hrun & Hledger & _ & Hcons).
  - reflexivity.
  - exists 1. reflexivity.
  - exists w'. split; [exact Hrun|]. split; [exact Hledger|].
    apply Hcons; [exact cube_symmetric|].
    apply (prepopulate_with_consistent Cube.surface Cube.V_repulsive [0]
             (new_world Cube.sim0 Cube.tape0) tt); [reflexivity|].
    vm_compute. reflexivity.
Defined.

(** A move on the empty cube. *)
Lemma move_atom_empty_lattice_witness :
  let w := new_world Cube.sim0 Cube.tape0 in
  let w' := world_of (move_atom Cube.surface Cube.V_repulsive Cube.exp_pts w) in
  attempted_moves (self w') = 1%Z /\ ~ counter_identity (self w').
Proof.
  intros w w'.
  destruct (move_atom_empty_lattice Cube.surface Cube.V_repulsive Cube.exp_pts
              cube_surface_ok w) as [Hrun Hbroken]; [reflexivity..|].
  split; [subst w'; rewrite Hrun; reflexivity|].
  apply Hbroken. reflexivity.
Defined.

(** The two site types of the split lattice, with the same probability. *)
Lemma landing_prob_last_type_witness :
  landing_prob 8 Split.groups = Some (replicate 8 0.5%float)
  /\ length (replicate 8 0.5%float) = 8.
Proof.
  split; [reflexivity|].
  apply (landing_prob_last_type 8 Split.groups (replicate 8 0.5%float)).
  reflexivity.
Defined.

(** The hop from site 0 to site 4 on the cube. *)
Lemma move_atom_keeps_snapshot_current_witness :
  let w := Cube.populated Cube.V_repulsive [0; 3] in
  let w' := world_of (move_atom Cube.surface Cube.V_repulsive Cube.exp_pts w) in
  occ (self w') <> occ (self w) /\ snapshot_current (self w').
Proof.
  intros w w'. split; [vm_compute; discriminate|].
  apply (move_atom_keeps_snapshot_current Cube.surface Cube.V_repulsive Cube.exp_pts
           w w').
  - reflexivity.
  - repeat split.
  - vm_compute. reflexivity.
Defined.

(** A second particle on the cube, after [prepopulate]. *)
Lemma add_atom_leaves_snapshot_stale_witness :
  let w := Cube.populated Cube.V_repulsive [0] in
  let w' := world_of (add_atom Cube.surface Cube.V_repulsive w) in
  previous_occ (self w') = previous_occ (self w)
  /\ ~ snapshot_current (self w').
Proof.
  intros w w'.
  destruct (add_atom_leaves_snapshot_stale Cube.surface Cube.V_repulsive
              cube_surface_ok w w') as (Hpo & _ & _ & Hstale & _).
  - reflexivity.
  - repeat split.
  - vm_compute. reflexivity.
  - split; [exact Hpo | exact Hstale].
Defined.

(** The split lattice has no third site type. *)
Lemma prepopulate_split_missing_type_witness :
  let w := new_world Cube.sim0 Cube.tape0 in
  prepopulate_split Cube.surface Split.groups Cube.V_repulsive 2 0 3 w
  = Raise IndexError w.
Proof.
  intros w.
  apply (prepopulate_split_missing_type Cube.surface Cube.V_repulsive Split.groups
           2 0 3 w).
  left. reflexivity.
Defined.
